(** * Verification of the BEN / XBEN codec (binary-ensemble)

    Shallow embedding of the Rust sources:
    - [src/src/encode/mod.rs]      : [BenEncoder], [encode_ben_vec_from_rle]
    - [src/ben/src/decode/mod.rs]  : [BenDecoder], [decode_ben_line],
                                     [XBenDecoder], [SubsampleDecoder],
                                     [DecoderInitError] and its [Display]
    - [src/src/decode/read.rs]     : [extract_assignment_ben]

    Bytes, [u16], [u32] and [usize] values are modelled as [Z] (or [nat] for
    [usize] counters) with their wrap-around written out.  A Rust panic
    (an [unwrap]/[expect] on an error, or an arithmetic overflow in a debug
    build) is modelled by the [None] branch of an option. *)

From Stdlib Require Import String Ascii ZArith List Bool Lia Sorted Permutation.
Import ListNotations.
Open Scope Z_scope.

(** ** Machine integers *)

(** Arithmetic overflow on fixed-width integers panics in a debug build
    and wraps around in a release build. *)
Inductive Profile := Debug | Release.

Definition wrap32 (z : Z) : Z := z mod 2 ^ 32.
Definition u32_not (z : Z) : Z := Z.lxor z (Z.ones 32).

(** [a * b] on [u32]. *)
Definition u32_mul (p : Profile) (a b : Z) : option Z :=
  if a * b <? 2 ^ 32 then Some (a * b)
  else match p with Debug => None | Release => Some ((a * b) mod 2 ^ 32) end.

(** [a + b] on [u16]. *)
Definition u16_add (p : Profile) (a b : Z) : option Z :=
  if a + b <? 2 ^ 16 then Some (a + b)
  else match p with Debug => None | Release => Some ((a + b) mod 2 ^ 16) end.

(** [a + b] and [a - b] on [u8]. *)
Definition u8_add (p : Profile) (a b : Z) : option Z :=
  if a + b <? 2 ^ 8 then Some (a + b)
  else match p with Debug => None | Release => Some ((a + b) mod 2 ^ 8) end.

Definition u8_sub (p : Profile) (a b : Z) : option Z :=
  if b <=? a then Some (a - b)
  else match p with Debug => None | Release => Some ((a - b) mod 2 ^ 8) end.

(** [x >> k] and [x << k] on [u32]: a shift by [k >= 32] panics in a debug
    build; a release build shifts by [k mod 32]. *)
Definition u32_shr (p : Profile) (x k : Z) : option Z :=
  if k <? 32 then Some (Z.shiftr x k)
  else match p with Debug => None | Release => Some (Z.shiftr x (k mod 32)) end.

Definition u32_shl (p : Profile) (x k : Z) : option Z :=
  if k <? 32 then Some (wrap32 (Z.shiftl x k))
  else match p with Debug => None | Release => Some (wrap32 (Z.shiftl x (k mod 32))) end.

(** [a + b] and [a - b] on [usize], 64 bits wide. *)
Definition usize_add (p : Profile) (a b : Z) : option Z :=
  if a + b <? 2 ^ 64 then Some (a + b)
  else match p with Debug => None | Release => Some ((a + b) mod 2 ^ 64) end.

Definition usize_sub (p : Profile) (a b : Z) : option Z :=
  if b <=? a then Some (a - b)
  else match p with Debug => None | Release => Some ((a - b) mod 2 ^ 64) end.

(** [a % m] on [usize]: a zero divisor panics in either build. *)
Definition usize_rem (a m : Z) : option Z := if m =? 0 then None else Some (a mod m).

(** [x as isize] for a [usize] [x]: the same 64 bits read in two's complement. *)
Definition as_isize (x : Z) : Z := if x <? 2 ^ 63 then x else x - 2 ^ 64.

(** [a - b] on [isize]. *)
Definition isize_sub (p : Profile) (a b : Z) : option Z :=
  if (- 2 ^ 63 <=? a - b) && (a - b <? 2 ^ 63) then Some (a - b)
  else match p with Debug => None | Release => Some (as_isize ((a - b) mod 2 ^ 64)) end.

(** [a.rem_euclid(m)] on [isize]: [a % m], plus [|m|] when negative, which is
    [a mod |m|]; it panics in either build when [m = 0] or when [a % m]
    overflows ([isize::MIN % -1]). *)
Definition isize_rem_euclid (a m : Z) : option Z :=
  if (m =? 0) || ((a =? - 2 ^ 63) && (m =? -1)) then None else Some (a mod Z.abs m).

(** Number of significant bits; [16 - x.leading_zeros()] for a [u16]. *)
Definition bit_length (x : Z) : Z := if x =? 0 then 0 else Z.log2 x + 1.
Definition leading_zeros16 (x : Z) : Z := 16 - bit_length x.

(** [n.to_be_bytes()] for [u32] and [u16]. *)
Definition u32_to_be_bytes (n : Z) : list Z :=
  [Z.shiftr n 24 mod 256; Z.shiftr n 16 mod 256; Z.shiftr n 8 mod 256; n mod 256].
Definition u16_to_be_bytes (n : Z) : list Z := [Z.shiftr n 8 mod 256; n mod 256].

Definition u32_from_be_bytes (b0 b1 b2 b3 : Z) : Z :=
  b0 * 2 ^ 24 + b1 * 2 ^ 16 + b2 * 2 ^ 8 + b3.
Definition u16_from_be_bytes (b0 b1 : Z) : Z := b0 * 2 ^ 8 + b1.

Definition list_Z_eqb (l1 l2 : list Z) : bool :=
  (length l1 =? length l2)%nat && forallb (fun p => fst p =? snd p) (combine l1 l2).

(** Option bind, for code that can panic. *)
Notation "'let*' x ':=' c 'in' k" :=
  (match c with Some x => k | None => None end)
  (at level 200, x pattern, c at level 100, k at level 200).

(** ** RLE primitives ([crate::utils], not part of the sources) *)

Definition run := (Z * Z)%type. (* (value, length) *)

(** Modelled from the spec: [crate::utils::rle_to_vec] (spec 4.1) expands
    each [(val, len)] into [len] copies of [val]. *)
Definition rle_to_vec (rle : list run) : list Z :=
  flat_map (fun r => repeat (fst r) (Z.to_nat (snd r))) rle.

(** Modelled from the spec: [crate::utils::assign_to_rle] (spec 4.1),
    a single left-to-right scan; a position starts a new run iff its value
    differs from the previous one or the current run has reached length
    [2^16 - 1]. *)
Fixpoint assign_to_rle_from (cur : run) (rest : list Z) : list run :=
  match rest with
  | [] => [cur]
  | x :: rest' =>
      if (x =? fst cur) && (snd cur <? 2 ^ 16 - 1)
      then assign_to_rle_from (fst cur, snd cur + 1) rest'
      else cur :: assign_to_rle_from (x, 1) rest'
  end.

Definition assign_to_rle (v : list Z) : list run :=
  match v with
  | [] => []
  | x :: rest => assign_to_rle_from (x, 1) rest
  end.

(** ** BEN bit-packer: [encode_ben_vec_from_rle] *)

(** [while n_bits_left >= 8 { n_bits_left -= 8; output_vec.push((new_val >>
    n_bits_left) as u8); new_val &= !(0xFFFFFFFF << n_bits_left); }].
    Returns the pushed bytes and the final [(n_bits_left, new_val)].
    [n_bits_left] is a [u8], so 32 rounds always reach the exit. *)
Fixpoint drain_bytes (fuel : nat) (n_bits_left new_val : Z) : list Z * (Z * Z) :=
  match fuel with
  | O => ([], (n_bits_left, new_val))
  | S fuel' =>
      if 8 <=? n_bits_left then
        let n' := n_bits_left - 8 in
        let buff := Z.shiftr new_val n' mod 256 in
        let new_val' := Z.land new_val (u32_not (wrap32 (Z.shiftl 4294967295 n'))) in
        let '(out, st) := drain_bytes fuel' n' new_val' in
        (buff :: out, st)
      else ([], (n_bits_left, new_val))
  end.

(** One iteration of [for (val, len) in rle_vec]: state
    [(remainder, remainder_bits)]. *)
Definition encode_run (max_val_bits max_len_bits : Z) (st : Z * Z) (r : run)
  : list Z * (Z * Z) :=
  let '(remainder, remainder_bits) := st in
  let '(v, l) := r in
  let new_val := Z.lor (wrap32 (Z.shiftl remainder max_val_bits)) v in
  let '(out1, (n1, new_val1)) := drain_bytes 32 (remainder_bits + max_val_bits) new_val in
  let new_val2 := Z.lor (wrap32 (Z.shiftl new_val1 max_len_bits)) l in
  let '(out2, (n2, new_val3)) := drain_bytes 32 (n1 + max_len_bits) new_val2 in
  (out1 ++ out2, (new_val3, n2)).

Fixpoint encode_runs (max_val_bits max_len_bits : Z) (st : Z * Z) (rle : list run)
  : list Z * (Z * Z) :=
  match rle with
  | [] => ([], st)
  | r :: rest =>
      let '(out1, st1) := encode_run max_val_bits max_len_bits st r in
      let '(out2, st2) := encode_runs max_val_bits max_len_bits st1 rest in
      (out1 ++ out2, st2)
  end.

(** [if remainder_bits > 0 { output_vec.push((remainder << (8 - remainder_bits)) as u8) }] *)
Definition final_byte (st : Z * Z) : list Z :=
  let '(remainder, remainder_bits) := st in
  if 0 <? remainder_bits then [Z.shiftl remainder (8 - remainder_bits) mod 256] else [].

(** [rle_vec.iter().max_by_key(|x| x.0).unwrap().0] and its [x.1] twin;
    [None] is the [unwrap] on an empty iterator. *)
Definition max_fst (rle : list run) : option Z :=
  match rle with
  | [] => None
  | r :: rest => Some (fold_left (fun m x => Z.max m (fst x)) rest (fst r))
  end.
Definition max_snd (rle : list run) : option Z :=
  match rle with
  | [] => None
  | r :: rest => Some (fold_left (fun m x => Z.max m (snd x)) rest (snd r))
  end.

Definition encode_ben_vec_from_rle (p : Profile) (rle_vec : list run) : option (list Z) :=
  let* max_val := max_fst rle_vec in
  let* max_len := max_snd rle_vec in
  let max_val_bits := Z.max (16 - leading_zeros16 max_val) 1 in
  let max_len_bits := 16 - leading_zeros16 max_len in
  let assign_bits := max_val_bits + max_len_bits in
  let* total := u32_mul p assign_bits (Z.of_nat (length rle_vec) mod 2 ^ 32) in
  let n_bytes := if total mod 8 =? 0 then total / 8 else total / 8 + 1 in
  let '(payload, st) := encode_runs max_val_bits max_len_bits (0, 0) rle_vec in
  Some ([max_val_bits; max_len_bits] ++ u32_to_be_bytes n_bytes ++ payload ++ final_byte st).


(** ** Byte readers *)

(** The kind of an [io::Error] the decoders produce. *)
Inductive IoErrorKind := UnexpectedEof | InvalidData.

(** [io::Result<A>]. *)
Inductive IoResult (A : Type) := Ok (a : A) | Err (e : IoErrorKind).
Arguments Ok {A} a.
Arguments Err {A} e.

(** [reader.read_exact(&mut buf)] on an in-memory reader: [None] is the
    [UnexpectedEof] error. *)
Definition read_exact (k : nat) (inp : list Z) : option (list Z * list Z) :=
  if (k <=? length inp)%nat then Some (firstn k inp, skipn k inp) else None.

Definition read_u8 (inp : list Z) : option (Z * list Z) :=
  match inp with [] => None | b :: rest => Some (b, rest) end.

Definition read_u16_be (inp : list Z) : option (Z * list Z) :=
  match inp with
  | b0 :: b1 :: rest => Some (u16_from_be_bytes b0 b1, rest)
  | _ => None
  end.

Definition read_u32_be (inp : list Z) : option (Z * list Z) :=
  match inp with
  | b0 :: b1 :: b2 :: b3 :: rest => Some (u32_from_be_bytes b0 b1 b2 b3, rest)
  | _ => None
  end.

Fixpoint bytes_of_string (s : string) : list Z :=
  match s with
  | EmptyString => []
  | String c s' => Z.of_nat (nat_of_ascii c) :: bytes_of_string s'
  end.

Definition STANDARD_BANNER : list Z := bytes_of_string "STANDARD BEN FILE".
Definition MKVCHAIN_BANNER : list Z := bytes_of_string "MKVCHAIN BEN FILE".

Inductive BenVariant := Standard | MkvChain.

Definition banner (v : BenVariant) : list Z :=
  match v with Standard => STANDARD_BANNER | MkvChain => MKVCHAIN_BANNER end.

(** ** BEN bit-unpacker: [decode_ben_line] *)

Record DecState := mkDecState {
  buffer : Z;            (* u32 shift register, filled from the top *)
  n_bits_in_buff : Z;    (* u16 *)
  val : Z;
  val_set : bool;
  len : Z;
  len_set : bool;
  output_rle : list run
}.

(** [if val_set && len_set { if len > 0 { output_rle.push((val, len)) }
    val_set = false; len_set = false; }] *)
Definition push_pair (s : DecState) : DecState :=
  if val_set s && len_set s then
    {| buffer := buffer s; n_bits_in_buff := n_bits_in_buff s;
       val := val s; val_set := false; len := len s; len_set := false;
       output_rle := if 0 <? len s then output_rle s ++ [(val s, len s)] else output_rle s |}
  else s.

(** [if n_bits_in_buff >= max_val_bits as u16 && !val_set {
    val = (buffer >> (32 - max_val_bits)) as u16;
    buffer = (buffer << max_val_bits) as u32;
    n_bits_in_buff -= max_val_bits as u16; val_set = true; }].
    [32 - max_val_bits] is a [u8] subtraction; both shifts are [u32] shifts. *)
Definition take_val (p : Profile) (max_val_bits : Z) (s : DecState) : option DecState :=
  if (max_val_bits <=? n_bits_in_buff s) && negb (val_set s) then
    let* k := u8_sub p 32 max_val_bits in
    let* v := u32_shr p (buffer s) k in
    let* b := u32_shl p (buffer s) max_val_bits in
    Some {| buffer := b;
            n_bits_in_buff := n_bits_in_buff s - max_val_bits;
            val := v mod 2 ^ 16;
            val_set := true;
            len := len s; len_set := len_set s; output_rle := output_rle s |}
  else Some s.

(** [if n_bits_in_buff >= max_len_bits as u16 && val_set && !len_set {
    len = (buffer >> (32 - max_len_bits)) as u16;
    buffer = buffer << max_len_bits;
    n_bits_in_buff -= max_len_bits as u16; len_set = true; }] *)
Definition take_len (p : Profile) (max_len_bits : Z) (s : DecState) : option DecState :=
  if (max_len_bits <=? n_bits_in_buff s) && val_set s && negb (len_set s) then
    let* k := u8_sub p 32 max_len_bits in
    let* l := u32_shr p (buffer s) k in
    let* b := u32_shl p (buffer s) max_len_bits in
    Some {| buffer := b;
            n_bits_in_buff := n_bits_in_buff s - max_len_bits;
            val := val s; val_set := val_set s;
            len := l mod 2 ^ 16;
            len_set := true; output_rle := output_rle s |}
  else Some s.

(** The three [if]s of the loop body. *)
Definition extract_fields (p : Profile) (max_val_bits max_len_bits : Z) (s : DecState)
  : option DecState :=
  let* s1 := take_val p max_val_bits s in
  let* s2 := take_len p max_len_bits s1 in
  Some (push_pair s2).

(** [while n_bits_in_buff >= max_val_bits as u16 + max_len_bits as u16 { ... }]
    (the [u16] sum of two [u8] values cannot overflow).  When
    [max_val_bits + max_len_bits >= 1] each round removes at least one bit,
    so [n_bits_in_buff + 1] rounds reach the exit.  With both widths [0] the
    loop would not end, but no such line gets here: a debug build panics on
    the shift by [32 - 0], and a release build has panicked in
    [Vec::with_capacity] before the first byte (see [decode_ben_line]). *)
Fixpoint drain_pairs (p : Profile) (fuel : nat) (max_val_bits max_len_bits : Z) (s : DecState)
  : option DecState :=
  match fuel with
  | O => Some s
  | S fuel' =>
      if max_val_bits + max_len_bits <=? n_bits_in_buff s then
        let* s' := extract_fields p max_val_bits max_len_bits s in
        drain_pairs p fuel' max_val_bits max_len_bits s'
      else Some s
  end.

(** One iteration of [for (_, &byte) in assign_bits.iter().enumerate()]:
    [buffer = buffer | ((byte as u32).to_be() >> n_bits_in_buff);
    n_bits_in_buff += 8;], the three [if]s, then the [while] loop.
    [(byte as u32).to_be()] is [byte << 24] on the little-endian hosts the
    crate targets. *)
Definition decode_byte (p : Profile) (max_val_bits max_len_bits : Z) (s : DecState) (byte : Z)
  : option DecState :=
  let* sh := u32_shr p (byte * 2 ^ 24) (n_bits_in_buff s) in
  let* n := u16_add p (n_bits_in_buff s) 8 in
  let s1 := {| buffer := Z.lor (buffer s) sh;
               n_bits_in_buff := n;
               val := val s; val_set := val_set s; len := len s; len_set := len_set s;
               output_rle := output_rle s |} in
  let* s2 := extract_fields p max_val_bits max_len_bits s1 in
  drain_pairs p (S (Z.to_nat (n_bits_in_buff s2))) max_val_bits max_len_bits s2.

Fixpoint decode_bytes (p : Profile) (max_val_bits max_len_bits : Z) (s : DecState)
  (assign_bits : list Z) : option DecState :=
  match assign_bits with
  | [] => Some s
  | byte :: rest =>
      let* s' := decode_byte p max_val_bits max_len_bits s byte in
      decode_bytes p max_val_bits max_len_bits s' rest
  end.

Definition dec_init : DecState :=
  {| buffer := 0; n_bits_in_buff := 0; val := 0; val_set := false; len := 0;
     len_set := false; output_rle := [] |}.

(** The unpacking loop of [decode_ben_line] over the payload bytes; [None]
    is a panic. *)
Definition decode_payload (p : Profile) (max_val_bits max_len_bits : Z) (assign_bits : list Z)
  : option (list run) :=
  let* s := decode_bytes p max_val_bits max_len_bits dec_init assign_bits in
  Some (output_rle s).

(** [(n_bytes as f64 / ((max_val_bits + max_len_bits) as f64 / 8.0)) as usize]
    for the [u8] sum [w]: [8 * n_bytes / w] when [w >= 1] (the quotient of
    these small integers is never rounded across an integer); [inf]
    saturates to [usize::MAX] and [NaN] becomes [0] when [w = 0]. *)
Definition n_assignments (n_bytes w : Z) : Z :=
  if w =? 0 then (if n_bytes =? 0 then 0 else 2 ^ 64 - 1) else 8 * n_bytes / w.

(** [decode_ben_line(reader, max_val_bits, max_len_bits, n_bytes)]: reads the
    [n_bytes] payload bytes, then unpacks them; returns the rest of the input.
    [max_val_bits + max_len_bits] is a [u8] addition, and
    [Vec::<(u16, u16)>::with_capacity(n_assignments)] panics (capacity
    overflow) in either build when [4 * n_assignments > isize::MAX].
    [None] is a panic. *)
Definition decode_ben_line (p : Profile) (inp : list Z) (max_val_bits max_len_bits n_bytes : Z)
  : option (IoResult (list run) * list Z) :=
  match read_exact (Z.to_nat n_bytes) inp with
  | None => Some (Err UnexpectedEof, [])
  | Some (assign_bits, rest) =>
      let* w := u8_add p max_val_bits max_len_bits in
      if 2 ^ 63 - 1 <? 4 * n_assignments n_bytes w then None
      else
        let* rle := decode_payload p max_val_bits max_len_bits assign_bits in
        Some (Ok rle, rest)
  end.

(** *** The unpacking loop on unbounded integers

    The same loop with every [u8] subtraction, [u16] addition and [u32]
    shift computed exactly, without the panics: [decode_payload] agrees
    with it whenever both widths lie in [1..16] (lemma
    [decode_payload_pure]), which is what every header the encoder writes
    holds.  The correctness proofs of the unpacker are done on it. *)

Definition pure_take_val (max_val_bits : Z) (s : DecState) : DecState :=
  if (max_val_bits <=? n_bits_in_buff s) && negb (val_set s) then
    {| buffer := wrap32 (Z.shiftl (buffer s) max_val_bits);
       n_bits_in_buff := n_bits_in_buff s - max_val_bits;
       val := Z.shiftr (buffer s) (32 - max_val_bits) mod 2 ^ 16;
       val_set := true;
       len := len s; len_set := len_set s; output_rle := output_rle s |}
  else s.

Definition pure_take_len (max_len_bits : Z) (s : DecState) : DecState :=
  if (max_len_bits <=? n_bits_in_buff s) && val_set s && negb (len_set s) then
    {| buffer := wrap32 (Z.shiftl (buffer s) max_len_bits);
       n_bits_in_buff := n_bits_in_buff s - max_len_bits;
       val := val s; val_set := val_set s;
       len := Z.shiftr (buffer s) (32 - max_len_bits) mod 2 ^ 16;
       len_set := true; output_rle := output_rle s |}
  else s.

Definition pure_extract_fields (max_val_bits max_len_bits : Z) (s : DecState) : DecState :=
  push_pair (pure_take_len max_len_bits (pure_take_val max_val_bits s)).

Fixpoint pure_drain_pairs (fuel : nat) (max_val_bits max_len_bits : Z) (s : DecState) : DecState :=
  match fuel with
  | O => s
  | S fuel' =>
      if max_val_bits + max_len_bits <=? n_bits_in_buff s
      then pure_drain_pairs fuel' max_val_bits max_len_bits (pure_extract_fields max_val_bits max_len_bits s)
      else s
  end.

Definition pure_decode_byte (max_val_bits max_len_bits : Z) (s : DecState) (byte : Z) : DecState :=
  let s1 := {| buffer := Z.lor (buffer s) (Z.shiftr (byte * 2 ^ 24) (n_bits_in_buff s));
               n_bits_in_buff := n_bits_in_buff s + 8;
               val := val s; val_set := val_set s; len := len s; len_set := len_set s;
               output_rle := output_rle s |} in
  let s2 := pure_extract_fields max_val_bits max_len_bits s1 in
  pure_drain_pairs (S (Z.to_nat (n_bits_in_buff s2))) max_val_bits max_len_bits s2.

Definition pure_decode_payload (max_val_bits max_len_bits : Z) (assign_bits : list Z) : list run :=
  output_rle (fold_left (pure_decode_byte max_val_bits max_len_bits) assign_bits dec_init).

(** ** BEN stream reader: [BenDecoder] ([src/ben/src/decode/mod.rs]) *)

Inductive DecoderInitError :=
  | InvalidFileFormat (header : list Z)
  | InitIo (e : IoErrorKind).

(** [BenDecoder::new]: the variant and the reader past the banner. *)
Definition BenDecoder_new (inp : list Z) : (BenVariant * list Z) + DecoderInitError :=
  match read_exact 17 inp with
  | None => inr (InitIo UnexpectedEof)
  | Some (check_buffer, rest) =>
      if list_Z_eqb check_buffer STANDARD_BANNER then inl (Standard, rest)
      else if list_Z_eqb check_buffer MKVCHAIN_BANNER then inl (MkvChain, rest)
      else inr (InvalidFileFormat check_buffer)
  end.

Definition MkvRecord := (list Z * Z)%type.

(** What one call of [Iterator::next] does. *)
Inductive Step (A : Type) :=
  | Yield (a : A)               (* Some(Ok(a)) *)
  | YieldErr (e : IoErrorKind)  (* Some(Err(e)) *)
  | Stop                        (* None *)
  | Panic.                      (* process abort: expect/unwrap/overflow *)
Arguments Yield {A} a.
Arguments YieldErr {A} e.
Arguments Stop {A}.
Arguments Panic {A}.

(** [impl Iterator for BenDecoder]: [next]. *)
Definition ben_decoder_next (p : Profile) (variant : BenVariant) (inp : list Z)
  : Step MkvRecord * list Z :=
  match read_u8 inp with
  | None => (Stop, [])
  | Some (max_val_bits, inp1) =>
      match read_u8 inp1 with
      | None => (Panic, [])               (* read_u8().expect(..) *)
      | Some (max_len_bits, inp2) =>
          match read_u32_be inp2 with
          | None => (Panic, [])           (* read_u32::<BigEndian>().expect(..) *)
          | Some (n_bytes, inp3) =>
              match decode_ben_line p inp3 max_val_bits max_len_bits n_bytes with
              | None => (Panic, [])
              | Some (Err e, inp4) => (YieldErr e, inp4)
              | Some (Ok output_rle, inp4) =>
                  let assignment := rle_to_vec output_rle in
                  match variant with
                  | Standard => (Yield (assignment, 1), inp4)
                  | MkvChain =>
                      match read_u16_be inp4 with
                      | None => (Panic, [])   (* read_u16::<BigEndian>().expect(..) *)
                      | Some (count, inp5) => (Yield (assignment, count), inp5)
                      end
                  end
              end
          end
      end
  end.

(** How a run of [next] calls ends. *)
Inductive Outcome := Finished | Failed (e : IoErrorKind) | Panicked.

(** Calling [next] until it stops: the records yielded and how it ended.
    Every record consumes at least six bytes, so [length inp + 1] calls are
    enough. *)
Fixpoint ben_decoder_collect (p : Profile) (fuel : nat) (variant : BenVariant) (inp : list Z)
  : list MkvRecord * Outcome :=
  match fuel with
  | O => ([], Finished)
  | S fuel' =>
      match ben_decoder_next p variant inp with
      | (Yield r, rest) =>
          let '(rs, o) := ben_decoder_collect p fuel' variant rest in (r :: rs, o)
      | (YieldErr e, _) => ([], Failed e)
      | (Stop, _) => ([], Finished)
      | (Panic, _) => ([], Panicked)
      end
  end.

(** Expanding each [(assignment, count)] record [count] times, as
    [write_all_jsonl] does. *)
Definition expand (rs : list MkvRecord) : list (list Z) :=
  flat_map (fun r => repeat (fst r) (Z.to_nat (snd r))) rs.

(** Open a [BenDecoder] on a byte stream and iterate it to the end. *)
Definition ben_decode_stream (p : Profile) (inp : list Z)
  : (list MkvRecord * Outcome) + DecoderInitError :=
  match BenDecoder_new inp with
  | inr e => inr e
  | inl (variant, rest) => inl (ben_decoder_collect p (S (length rest)) variant rest)
  end.

(** ** BEN stream writer: [BenEncoder] ([src/src/encode/mod.rs]) *)

Record BenEncoder := mkBenEncoder {
  writer : list Z;
  previous_sample : list Z;
  count : Z;              (* u16 *)
  enc_variant : BenVariant
}.

Definition BenEncoder_new (variant : BenVariant) : BenEncoder :=
  {| writer := banner variant; previous_sample := []; count := 0; enc_variant := variant |}.

Definition write_rle (p : Profile) (e : BenEncoder) (rle_vec : list run) : option BenEncoder :=
  match enc_variant e with
  | Standard =>
      let* encoded := encode_ben_vec_from_rle p rle_vec in
      Some {| writer := writer e ++ encoded; previous_sample := previous_sample e;
              count := count e; enc_variant := Standard |}
  | MkvChain =>
      let* encoded := encode_ben_vec_from_rle p rle_vec in
      if list_Z_eqb encoded (previous_sample e) then
        let* c := u16_add p (count e) 1 in      (* self.count += 1 *)
        Some {| writer := writer e; previous_sample := previous_sample e;
                count := c; enc_variant := MkvChain |}
      else
        let w := if 0 <? count e
                 then writer e ++ previous_sample e ++ u16_to_be_bytes (count e)
                 else writer e in
        Some {| writer := w; previous_sample := encoded; count := 1; enc_variant := MkvChain |}
  end.

Definition write_assignment (p : Profile) (e : BenEncoder) (assign_vec : list Z)
  : option BenEncoder :=
  write_rle p e (assign_to_rle assign_vec).

(** [impl Drop for BenEncoder]: flush the held MkvChain group. *)
Definition drop_encoder (e : BenEncoder) : list Z :=
  match enc_variant e with
  | MkvChain =>
      if 0 <? count e then writer e ++ previous_sample e ++ u16_to_be_bytes (count e)
      else writer e
  | Standard => writer e
  end.

Fixpoint write_all (p : Profile) (e : BenEncoder) (vs : list (list Z)) : option BenEncoder :=
  match vs with
  | [] => Some e
  | v :: vs' => let* e' := write_assignment p e v in write_all p e' vs'
  end.

(** Create a [BenEncoder], write every vector of [vs], drop the encoder:
    the bytes written, or [None] when the writer panicked. *)
Definition encode_ben_stream (p : Profile) (variant : BenVariant) (vs : list (list Z))
  : option (list Z) :=
  let* e := write_all p (BenEncoder_new variant) vs in Some (drop_encoder e).



(** ** Random access: [extract_assignment_ben] ([src/src/decode/read.rs]) *)

(** [extract_assignment_ben] decodes the target line through
    [jsonl_decode_ben] of [src/src/decode/mod.rs], whose [BenDecoder]
    accepts only the Standard banner and yields bare vectors. *)
Definition old_ben_decoder_next (p : Profile) (inp : list Z) : Step (list Z) * list Z :=
  match read_u8 inp with
  | None => (Stop, [])
  | Some (max_val_bits, inp1) =>
      match read_u8 inp1 with
      | None => (Panic, [])
      | Some (max_len_bits, inp2) =>
          match read_u32_be inp2 with
          | None => (Panic, [])
          | Some (n_bytes, inp3) =>
              match decode_ben_line p inp3 max_val_bits max_len_bits n_bytes with
              | None => (Panic, [])
              | Some (Err e, inp4) => (YieldErr e, inp4)
              | Some (Ok output_rle, inp4) => (Yield (rle_to_vec output_rle), inp4)
              end
          end
      end
  end.

(** [jsonl_decode_ben] of [src/src/decode/mod.rs]: the assignments of the
    JSON lines written, the error returned, or [None] for a panic
    ([BenDecoder::new] panics on a banner other than Standard). *)
Fixpoint old_write_all_jsonl (p : Profile) (fuel : nat) (inp : list Z)
  : option (IoResult (list (list Z))) :=
  match fuel with
  | O => Some (Ok [])
  | S fuel' =>
      match old_ben_decoder_next p inp with
      | (Yield a, rest) =>
          match old_write_all_jsonl p fuel' rest with
          | Some (Ok lines) => Some (Ok (a :: lines))
          | r => r
          end
      | (YieldErr e, _) => Some (Err e)
      | (Stop, _) => Some (Ok [])
      | (Panic, _) => None
      end
  end.

Definition old_jsonl_decode_ben (p : Profile) (inp : list Z)
  : option (IoResult (list (list Z))) :=
  match read_exact 17 inp with
  | None => None
  | Some (check_buffer, rest) =>
      if list_Z_eqb check_buffer STANDARD_BANNER
      then old_write_all_jsonl p (S (length rest)) rest
      else None
  end.

Inductive SampleErrorKind :=
  | InvalidSampleNumber
  | SampleNotFound (sample_number : nat)
  | IoError (e : IoErrorKind)
  | JsonError.

(** The search loop of [extract_assignment_ben], from sample [r_sample]. *)
Fixpoint extract_loop (p : Profile) (fuel : nat) (r_sample sample_number : nat) (inp : list Z)
  : option (list Z + SampleErrorKind) :=
  match fuel with
  | O => Some (inr (SampleNotFound r_sample))
  | S fuel' =>
      match read_u8 inp with
      | None => Some (inr (SampleNotFound r_sample))
      | Some (max_val_bits, inp1) =>
          match read_u8 inp1 with
          | None => Some (inr (IoError UnexpectedEof))
          | Some (max_len_bits, inp2) =>
              match read_u32_be inp2 with
              | None => Some (inr (IoError UnexpectedEof))
              | Some (n_bytes, inp3) =>
                  match read_exact (Z.to_nat n_bytes) inp3 with
                  | None => Some (inr (IoError UnexpectedEof))
                  | Some (assign_bits, rest) =>
                      if (r_sample =? sample_number)%nat then
                        let tmp_reader := STANDARD_BANNER ++ [max_val_bits; max_len_bits]
                                          ++ u32_to_be_bytes n_bytes ++ assign_bits in
                        (* the JSON text written is parsed back as one value: it
                           holds exactly one line; a [u16] array survives the
                           JSON round trip unchanged *)
                        match old_jsonl_decode_ben p tmp_reader with
                        | None => None
                        | Some (Err e) => Some (inr (IoError e))
                        | Some (Ok [a]) => Some (inl a)
                        | Some (Ok _) => Some (inr JsonError)
                        end
                      else extract_loop p fuel' (S r_sample) sample_number rest
                  end
              end
          end
      end
  end.

(** [extract_assignment_ben(reader, sample_number)]; [None] is a panic. *)
Definition extract_assignment_ben (p : Profile) (inp : list Z) (sample_number : nat)
  : option (list Z + SampleErrorKind) :=
  if (sample_number =? 0)%nat then Some (inr InvalidSampleNumber)
  else
    match read_exact 17 inp with
    | None => Some (inr (IoError UnexpectedEof))
    | Some (check_buffer, rest) =>
        if negb (list_Z_eqb check_buffer STANDARD_BANNER)
        then Some (inr (IoError InvalidData))
        else extract_loop p (S (length rest)) 1 sample_number rest
    end.


(** ** [impl Display for DecoderInitError] *)

Definition XZ_MAGIC : list Z := [253; 55; 122; 88; 90; 0].

(** [is_xz_header(h)]: [h.len() >= 6 && &h[..6] == b"\xFD\x37\x7A\x58\x5A\x00"]. *)
Definition is_xz_header (h : list Z) : bool :=
  (6 <=? length h)%nat && list_Z_eqb (firstn 6 h) XZ_MAGIC.

Definition hex_digit (d : Z) : ascii :=
  if d <? 10 then ascii_of_nat (48 + Z.to_nat d) else ascii_of_nat (55 + Z.to_nat d).

(** [format!("{:02X}", b)] *)
Definition hex_byte (b : Z) : string :=
  String (hex_digit (b / 16)) (String (hex_digit (b mod 16)) EmptyString).

(** [to_hex(bytes)]: the [{:02X}] renderings joined by single spaces. *)
Definition to_hex (bytes : list Z) : string :=
  String.concat " " (map hex_byte bytes).

Section Display.
(** [format!("{lossy:?}")] of [String::from_utf8_lossy(header)]; the
    messages below do not depend on how it renders. *)
Variable lossy_debug : list Z -> string.

Definition display_init_error (e : DecoderInitError) (io_msg : string) : string :=
  match e with
  | InitIo _ => "IO error: " ++ io_msg
  | InvalidFileFormat header =>
      if is_xz_header header then
        "Invalid file format: Compressed header detected (hex: " ++ to_hex header
        ++ "). This reader expects an uncompressed .ben file. Decompress this file using the BEN cli `ben -m decode <file_name>.xben` tool or the `decode_xben_to_ben` function in this library."
      else
        "Invalid file format. Found header (utf8-lossy: " ++ lossy_debug header
        ++ ", hex: " ++ to_hex header ++ ")"
  end.
End Display.

(** [s] occurs in [msg]. *)
Definition substring_of (s msg : string) : Prop :=
  exists pre post, msg = (pre ++ s ++ post)%string.

(** ** ben32 frames and the [XBenDecoder] ([src/ben/src/decode/mod.rs]) *)

(** [decode_ben32_line(reader, variant)]: 4-byte words [(value << 16) | count]
    up to the zero word, then the MkvChain count; [None] is the [expect]
    panic on a missing count. *)
Fixpoint ben32_words (fuel : nat) (inp : list Z) : IoResult (list Z) * list Z :=
  match fuel with
  | O => (Err UnexpectedEof, [])
  | S fuel' =>
      match read_u32_be inp with
      | None => (Err UnexpectedEof, [])
      | Some (encoded, rest) =>
          if encoded =? 0 then (Ok [], rest)
          else
            let value := Z.shiftr encoded 16 mod 2 ^ 16 in
            let cnt := Z.land encoded 65535 in
            match ben32_words fuel' rest with
            | (Ok out, rest') => (Ok (repeat value (Z.to_nat cnt) ++ out), rest')
            | (Err e, rest') => (Err e, rest')
            end
      end
  end.

Definition decode_ben32_line (inp : list Z) (variant : BenVariant)
  : option (IoResult MkvRecord) :=
  match ben32_words (S (length inp)) inp with
  | (Err e, _) => Some (Err e)
  | (Ok output_vec, rest) =>
      match variant with
      | Standard => Some (Ok (output_vec, 1))
      | MkvChain =>
          match read_u16_be rest with
          | None => None
          | Some (c, _) => Some (Ok (output_vec, c))
          end
      end
  end.

Definition zero_word_at (ov : list Z) (i : nat) : bool :=
  forallb (fun k => nth k ov 1 =? 0) [i - 3; i - 2; i - 1; i]%nat.

(** [for i in (start..stop).step_by(step) { if overflow[i-3..=i] == [0,0,0,0] ... }]:
    the first such [i]. *)
Fixpoint scan_zero_word (fuel : nat) (i stop step : nat) (ov : list Z) : option nat :=
  match fuel with
  | O => None
  | S fuel' =>
      if (i <? stop)%nat then
        if zero_word_at ov i then Some i else scan_zero_word fuel' (i + step) stop step ov
      else None
  end.

(** [pop_frame_from_overflow]: [(frame, consumed, count)]. *)
Definition pop_frame_from_overflow (variant : BenVariant) (ov : list Z)
  : option (list Z * nat * Z) :=
  match variant with
  | Standard =>
      if (length ov <? 4)%nat then None
      else
        match scan_zero_word (length ov) 3 (length ov) 4 ov with
        | Some i => Some (firstn (i + 1) ov, (i + 1)%nat, 1)
        | None => None
        end
  | MkvChain =>
      if (length ov <? 6)%nat then None
      else
        match scan_zero_word (length ov) 3 (length ov - 2) 2 ov with
        | Some i =>
            Some (firstn (i + 3) ov, (i + 3)%nat,
                  u16_from_be_bytes (nth (i + 1) ov 0) (nth (i + 2) ov 0))
        | None => None
        end
  end.

(** The reader after its banner: the variant, the [overflow] buffer and the
    successive results of [self.xz.read(&mut self.buf)] still to come (an
    empty chunk, or the end of the list, is [Ok(0)], the end of the
    decompressed stream). *)
Record XBenDecoder := mkXBenDecoder {
  xvariant : BenVariant;
  overflow : list Z;
  chunks : list (list Z)
}.

Fixpoint xben_next_loop (fuel : nat) (d : XBenDecoder) : Step MkvRecord * XBenDecoder :=
  match fuel with
  | O => (Stop, d)
  | S fuel' =>
      match pop_frame_from_overflow (xvariant d) (overflow d) with
      | Some (frame, consumed, cnt) =>
          let d' := {| xvariant := xvariant d; overflow := skipn consumed (overflow d);
                       chunks := chunks d |} in
          match decode_ben32_line frame (xvariant d) with
          | None => (Panic, d')
          | Some (Err e) => (YieldErr e, d')
          | Some (Ok (assignment, _)) => (Yield (assignment, cnt), d')
          end
      | None =>
          match chunks d with
          | [] | [] :: _ =>
              match overflow d with
              | [] => (Stop, d)
              | _ => (YieldErr UnexpectedEof, d)
              end
          | c :: cs =>
              xben_next_loop fuel' {| xvariant := xvariant d; overflow := overflow d ++ c;
                                      chunks := cs |}
          end
      end
  end.

(** [impl Iterator for XBenDecoder]: [next]. *)
Definition xben_next (d : XBenDecoder) : Step MkvRecord * XBenDecoder :=
  xben_next_loop (S (S (length (chunks d)))) d.


(** ** Subsampling adapter: [SubsampleDecoder] ([src/ben/src/decode/mod.rs]) *)

(** [Selection]; [Indices] holds what the [Peekable] iterator still yields. *)
Inductive Selection :=
  | Indices (iter : list nat)              (* 1-based, sorted *)
  | Every (step offset : nat)              (* 1-based *)
  | Range (start end_ : nat).              (* inclusive, 1-based *)

Record SubsampleDecoder := mkSubsample {
  inner : list (IoResult MkvRecord);   (* what the upstream iterator still yields *)
  selection : Selection;
  sample : nat                          (* samples fully processed so far *)
}.

Definition SubsampleDecoder_new (inner : list (IoResult MkvRecord)) (sel : Selection)
  : SubsampleDecoder :=
  {| inner := inner; selection := sel; sample := 0 |}.

(** [indices.sort_unstable()]: the order on [usize] is total, so every
    sorting algorithm yields the same list; an insertion sort stands for it. *)
Fixpoint insert_sorted (x : nat) (l : list nat) : list nat :=
  match l with
  | [] => [x]
  | y :: l' => if (x <=? y)%nat then x :: l else y :: insert_sorted x l'
  end.

Fixpoint sort_unstable (l : list nat) : list nat :=
  match l with
  | [] => []
  | x :: l' => insert_sorted x (sort_unstable l')
  end.

(** [indices.dedup()]: drop consecutive repeats. *)
Fixpoint dedup_from (prev : nat) (l : list nat) : list nat :=
  match l with
  | [] => []
  | x :: l' => if (x =? prev)%nat then dedup_from prev l' else x :: dedup_from x l'
  end.

Definition dedup (l : list nat) : list nat :=
  match l with
  | [] => []
  | x :: l' => x :: dedup_from x l'
  end.

Definition by_indices (inner : list (IoResult MkvRecord)) (indices : list nat)
  : SubsampleDecoder :=
  SubsampleDecoder_new inner (Indices (dedup (sort_unstable indices))).

(** The [Selection::Indices] arm of [count_selected_in]; [taken] is a [u16]
    incremented with [saturating_add]. *)
Fixpoint take_indices (iter : list nat) (lo hi : nat) (taken : Z) : Z * list nat :=
  match iter with
  | [] => (taken, [])
  | next :: rest =>
      if (next <? lo)%nat then take_indices rest lo hi taken
      else if (hi <? next)%nat then (taken, iter)
      else take_indices rest lo hi (Z.min (taken + 1) 65535)
  end.

(** [count_selected_in(lo, hi)]: the count and the updated selection, or
    [None] where the code panics. [usize] values are naturals below [2^64];
    the [Every] and [Range] arms do their arithmetic on [usize] and [isize]. *)
Definition count_selected_in (p : Profile) (sel : Selection) (lo hi : nat)
  : option (Z * Selection) :=
  match sel with
  | Indices iter =>
      let '(taken, iter') := take_indices iter lo hi 0 in Some (taken, Indices iter')
  | Every step offset =>
      let start := Nat.max lo offset in
      if (hi <? start)%nat then Some (0, sel)
      else
        let* d := isize_sub p (as_isize (Z.of_nat start)) (as_isize (Z.of_nat offset)) in
        let* r := isize_rem_euclid d (as_isize (Z.of_nat step)) in
        (* [r as usize]: [r >= 0] *)
        let* t := usize_sub p (Z.of_nat step) r in
        let* u := usize_rem t (Z.of_nat step) in
        let* first := usize_add p (Z.of_nat start) u in
        if Z.of_nat hi <? first then Some (0, sel)
        else
          let* k := usize_add p 1 ((Z.of_nat hi - first) / Z.of_nat step) in
          Some (k mod 2 ^ 16, sel)
  | Range start end_ =>
      if (hi <? start)%nat || (end_ <? lo)%nat then Some (0, sel)
      else
        let a := Nat.max lo start in
        let b := Nat.min hi end_ in
        let* d := usize_sub p (Z.of_nat b) (Z.of_nat a) in
        let* k := usize_add p d 1 in
        Some (k mod 2 ^ 16, sel)
  end.

(** The [loop] of [impl Iterator for SubsampleDecoder]. *)
Fixpoint subsample_next_loop (p : Profile) (fuel : nat) (d : SubsampleDecoder)
  : Step MkvRecord * SubsampleDecoder :=
  match fuel with
  | O => (Stop, d)
  | S fuel' =>
      let range_done :=
        match selection d with Range _ end_ => (end_ <=? sample d)%nat | _ => false end in
      if range_done then (Stop, d)
      else
        match inner d with
        | [] => (Stop, d)
        | Err e :: rest =>
            (YieldErr e, {| inner := rest; selection := selection d; sample := sample d |})
        | Ok (assignment, cnt) :: rest =>
            match usize_add p (Z.of_nat (sample d)) 1,
                  usize_add p (Z.of_nat (sample d)) cnt with
            | Some lo, Some hi =>
                match count_selected_in p (selection d) (Z.to_nat lo) (Z.to_nat hi) with
                | Some (selected, sel') =>
                    let d' := {| inner := rest; selection := sel'; sample := Z.to_nat hi |} in
                    if 0 <? selected then (Yield (assignment, selected), d')
                    else subsample_next_loop p fuel' d'
                | None => (Panic, d)
                end
            | _, _ => (Panic, d)
            end
        end
  end.

Definition subsample_next (p : Profile) (d : SubsampleDecoder)
  : Step MkvRecord * SubsampleDecoder :=
  subsample_next_loop p (S (length (inner d))) d.

(** Calling [next] until it stops. *)
Fixpoint subsample_collect (p : Profile) (fuel : nat) (d : SubsampleDecoder)
  : list MkvRecord * Outcome :=
  match fuel with
  | O => ([], Finished)
  | S fuel' =>
      match subsample_next p d with
      | (Yield r, d') => let '(rs, o) := subsample_collect p fuel' d' in (r :: rs, o)
      | (YieldErr e, _) => ([], Failed e)
      | (Stop, _) => ([], Finished)
      | (Panic, _) => ([], Panicked)
      end
  end.

Definition subsample_all (p : Profile) (d : SubsampleDecoder) : list MkvRecord * Outcome :=
  subsample_collect p (S (length (inner d))) d.

Definition five : list (IoResult MkvRecord) :=
  [Ok ([1], 1); Ok ([2], 1); Ok ([3], 1); Ok ([4], 1); Ok ([5], 1)].


(** ** Reference notions used in the statements *)

(** An assignment value of the data model: [1 <= x <= 2^16 - 1]. *)
Definition valid_value (x : Z) : Prop := 1 <= x <= 65535.
Definition valid_assignment (v : list Z) : Prop := Forall valid_value v.

(** The set of 1-based indices a selection denotes. *)
Definition in_selection (sel : Selection) (i : nat) : bool :=
  match sel with
  | Indices l => existsb (Nat.eqb i) l
  | Every step offset => (offset <=? i)%nat && ((i - offset) mod step =? 0)%nat
  | Range start end_ => (start <=? i)%nat && (i <=? end_)%nat
  end.

(** A selection as its constructors build it. *)
Definition wf_selection (sel : Selection) : Prop :=
  match sel with
  | Indices l => StronglySorted lt l
  | Every step offset => (1 <= step /\ 1 <= offset)%nat
  | Range start end_ => (1 <= start <= end_)%nat
  end.

(** [|S ∩ [lo, hi]|]. *)
Definition count_in (mem : nat -> bool) (lo hi : nat) : nat :=
  length (filter mem (seq lo (S hi - lo))).

(** One record [(assignment, |S ∩ [lo, hi]|)] per upstream record whose
    expanded index interval [[lo, hi]] meets [S], in stream order. *)
Fixpoint spec_subsample (mem : nat -> bool) (recs : list MkvRecord) (sample0 : nat)
  : list MkvRecord :=
  match recs with
  | [] => []
  | (a, c) :: rest =>
      let lo := S sample0 in
      let hi := (sample0 + Z.to_nat c)%nat in
      let k := count_in mem lo hi in
      (if (0 <? k)%nat then [(a, Z.of_nat k)] else []) ++ spec_subsample mem rest hi
  end.

Definition sum_counts (recs : list MkvRecord) : nat :=
  fold_right (fun r acc => (Z.to_nat (snd r) + acc)%nat) 0%nat recs.

(** [step < 2^63], so that [step as isize] is [step] itself. *)
Definition step_fits (sel : Selection) : Prop :=
  match sel with Every step _ => Z.of_nat step < 2 ^ 63 | _ => True end.

(** [usize::MAX] on a 64-bit target. *)
Definition usize_MAX : nat := Z.to_nat (2 ^ 64 - 1).

(** Upstream records as the data model has them: [1 <= count <= 2^16 - 1]. *)
Definition valid_record (r : MkvRecord) : Prop := 1 <= snd r <= 65535.

(** A [SubsampleDecoder] state part-way through a stream cut from the
    selection [sel0]: the upstream still holds [recs], and above the samples
    already processed the current selection denotes the same indices. *)
Definition subsample_inv (sel0 : Selection) (d : SubsampleDecoder) (recs : list MkvRecord)
  : Prop :=
  inner d = map Ok recs /\ Forall valid_record recs /\ wf_selection (selection d)
  /\ step_fits (selection d) /\ Z.of_nat (sample d + sum_counts recs) < 2 ^ 63
  /\ (forall i, (sample d < i)%nat -> in_selection (selection d) i = in_selection sel0 i).

(** ** Bit-level view of the packed payload *)

(** The [w] low bits of [x], most significant first. *)
Fixpoint bits_of (w : nat) (x : Z) : list bool :=
  match w with
  | O => []
  | S w' => Z.testbit x (Z.of_nat w') :: bits_of w' x
  end.

(** The number a list of bits spells, most significant first. *)
Definition val_of (l : list bool) : Z :=
  fold_left (fun acc b => 2 * acc + Z.b2z b) l 0.

Definition bytes_bits (bytes : list Z) : list bool := flat_map (bits_of 8) bytes.

(** The bits one run occupies in a line packed at the given widths. *)
Definition run_bits (vb lb : nat) (r : run) : list bool :=
  bits_of vb (fst r) ++ bits_of lb (snd r).

(** ** Run lists *)

(** A run list as the data model has it: lengths in [[1, 2^16 - 1]] and
    consecutive runs with distinct values; [prev] is the value of the run
    before. *)
Fixpoint canonical_rle (prev : option Z) (rle : list run) : Prop :=
  match rle with
  | [] => True
  | (v, l) :: rest => 1 <= l <= 65535 /\ prev <> Some v /\ canonical_rle (Some v) rest
  end.

(** [n] runs of length 1 alternating between the values [x] and [y]. *)
Fixpoint alt_runs (n : nat) (x y : Z) : list run :=
  match n with
  | O => []
  | S n' => (x, 1) :: alt_runs n' y x
  end.

(** A run of [2^16 - 1] copies of [2^16 - 1] followed by [n] alternating
    runs of 1 and 2: packed at 16 value bits and 16 length bits. *)
Definition big_runs (n : nat) : list run := (65535, 65535) :: alt_runs n 1 2.

(** ** Invariants of the bounded round trip *)

(** A [u8] value. *)
Definition is_byte (b : Z) : Prop := 0 <= b < 256.

(** Every run's value fits [vb] bits and its length [lb] bits. *)
Definition runs_fit (vb lb : Z) (rle : list run) : Prop :=
  Forall (fun r => 0 <= fst r < 2 ^ vb /\ 0 <= snd r < 2 ^ lb) rle.

(** The bits of the value already read for the pending run. *)
Definition pend (vb : Z) (s : DecState) : list bool :=
  if val_set s then bits_of (Z.to_nat vb) (val s) else [].

(** The decoder state after reading the bits [C]: the runs decoded so far,
    the value read for the pending run, and the bits held in [buffer]. *)
Definition dec_repr (vb lb : Z) (C : list bool) (s : DecState) : Prop :=
  exists done q,
    len_set s = false /\ n_bits_in_buff s = Z.of_nat (length q) /\ Z.of_nat (length q) <= 32 /\
    buffer s = val_of q * 2 ^ (32 - Z.of_nat (length q)) /\
    output_rle s = filter (fun r => 0 <? snd r) done /\ runs_fit vb lb done /\
    (val_set s = true -> 0 <= val s < 2 ^ vb) /\
    C = concat (map (run_bits (Z.to_nat vb) (Z.to_nat lb)) done) ++ pend vb s ++ q.

(** Bounds on the bits the decoder holds between two bytes. *)
Definition dec_bound (vb lb : Z) (s : DecState) : Prop :=
  n_bits_in_buff s <= 16
  /\ (val_set s = true -> n_bits_in_buff s < lb)
  /\ (val_set s = false -> n_bits_in_buff s < vb + lb).

(** A sample's run list: values and lengths are [u16], lengths non-zero. *)
Definition u16_runs (rle : list run) : Prop :=
  Forall (fun r => 0 <= fst r < 2 ^ 16 /\ 1 <= snd r < 2 ^ 16) rle.

(** The bytes one Standard line of [v] consists of. *)
Definition std_line (v : list Z) (line : list Z) : Prop :=
  exists vb lb body,
    line = [vb; lb] ++ u32_to_be_bytes (Z.of_nat (length body)) ++ body
    /\ Z.of_nat (length body) < 2 ^ 32
    /\ rle_to_vec (pure_decode_payload vb lb body) = v
    /\ 1 <= vb <= 16 /\ 1 <= lb <= 16 /\ Forall is_byte body.

(** A valid sample of fewer than [2^27] entries: its packed bit count
    fits a [u32]. *)
Definition roundtrip_ok (v : list Z) : Prop :=
  valid_assignment v /\ v <> [] /\ Z.of_nat (length v) < 2 ^ 27.

(** A list of samples grouped into maximal runs of equal samples, as a
    MkvChain stream stores them: counts in [[1, 2^16 - 1]], consecutive
    groups distinct. *)
Fixpoint mkv_groups_ok (prev : option (list Z)) (groups : list (list Z * nat)) : Prop :=
  match groups with
  | [] => True
  | (v, k) :: gs =>
      roundtrip_ok v /\ 1 <= Z.of_nat k <= 65535 /\ prev <> Some v /\ mkv_groups_ok (Some v) gs
  end.

(** The samples a list of groups stands for. *)
Definition expand_groups (groups : list (list Z * nat)) : list (list Z) :=
  flat_map (fun g => repeat (fst g) (snd g)) groups.

(** The [(assignment, count)] records a MkvChain stream of the groups holds. *)
Definition group_records (groups : list (list Z * nat)) : list MkvRecord :=
  map (fun g => (fst g, Z.of_nat (snd g))) groups.

(** Reading [bytes] as MkvChain lines yields [recs] and then stops. *)
Definition mkv_decodes (p : Profile) (bytes : list Z) (recs : list MkvRecord) : Prop :=
  (length recs <= length bytes)%nat
  /\ forall fuel, (length recs < fuel)%nat ->
       ben_decoder_collect p fuel MkvChain bytes = (recs, Finished).

(** ** ben32 lines: [encode_ben32_line] ([src/src/encode/mod.rs]) *)

(** [(prev_assign as u32) << 16 | count as u32], as its [to_be_bytes()]. *)
Definition ben32_word (prev_assign count : Z) : list Z :=
  u32_to_be_bytes (Z.lor (wrap32 (Z.shiftl prev_assign 16)) count).

(** The [for assignment in assign_vec] loop of [encode_ben32_line] from the
    state [(first, prev_assign, count)]: the bytes pushed to [ret] and the
    final [(prev_assign, count)]; [None] is the overflow panic of
    [count += 1] or of [assignment.as_u64().unwrap()], which panics on a
    number outside [0, 2^64 - 1]; then [as u16] keeps the low 16 bits. The
    array's elements are the JSON integers of the line. *)
Fixpoint ben32_loop (p : Profile) (first : bool) (prev_assign count : Z) (assign_vec : list Z)
  : option (list Z * (Z * Z)) :=
  match assign_vec with
  | [] => Some ([], (prev_assign, count))
  | assignment :: rest =>
      if negb ((0 <=? assignment) && (assignment <? 2 ^ 64)) then None else
      let assign := assignment mod 2 ^ 16 in
      if first then ben32_loop p false assign 1 rest
      else if assign =? prev_assign then
        let* c := u16_add p count 1 in ben32_loop p false prev_assign c rest
      else
        match ben32_loop p false assign 1 rest with
        | Some (out, st) => Some (ben32_word prev_assign count ++ out, st)
        | None => None
        end
  end.

(** [encode_ben32_line(data)] on the array [data["assignment"]]. *)
Definition encode_ben32_line (p : Profile) (assign_vec : list Z) : option (list Z) :=
  match ben32_loop p true 0 0 assign_vec with
  | None => None
  | Some (ret, (prev_assign, count)) =>
      Some (ret ++ (if 0 <? count then ben32_word prev_assign count else []) ++ [0; 0; 0; 0])
  end.

(** ** XBEN stream writer: [XBenEncoder] ([src/src/encode/mod.rs]) *)

(** [encoder] holds the bytes written into the [XzEncoder]: the
    decompressed stream that an [XzDecoder] reads back. *)
Record XBenEncoder := mkXBenEncoder {
  encoder : list Z;
  xprevious_sample : list Z;
  xcount : Z;              (* u16 *)
  xenc_variant : BenVariant
}.

Definition XBenEncoder_new (variant : BenVariant) : XBenEncoder :=
  {| encoder := banner variant; xprevious_sample := []; xcount := 0; xenc_variant := variant |}.

(** [XBenEncoder::write_json_value] on the array [data["assignment"]]. *)
Definition write_json_value (p : Profile) (e : XBenEncoder) (assign_vec : list Z)
  : option XBenEncoder :=
  let* encoded := encode_ben32_line p assign_vec in
  match xenc_variant e with
  | Standard =>
      Some {| encoder := encoder e ++ encoded; xprevious_sample := xprevious_sample e;
              xcount := xcount e; xenc_variant := Standard |}
  | MkvChain =>
      if list_Z_eqb encoded (xprevious_sample e) then
        let* c := u16_add p (xcount e) 1 in
        Some {| encoder := encoder e; xprevious_sample := xprevious_sample e;
                xcount := c; xenc_variant := MkvChain |}
      else
        let w := if 0 <? xcount e
                 then encoder e ++ xprevious_sample e ++ u16_to_be_bytes (xcount e)
                 else encoder e in
        Some {| encoder := w; xprevious_sample := encoded; xcount := 1; xenc_variant := MkvChain |}
  end.

(** [impl Drop for XBenEncoder]. *)
Definition drop_xencoder (e : XBenEncoder) : list Z :=
  match xenc_variant e with
  | MkvChain =>
      if 0 <? xcount e then encoder e ++ xprevious_sample e ++ u16_to_be_bytes (xcount e)
      else encoder e
  | Standard => encoder e
  end.

Fixpoint xwrite_all (p : Profile) (e : XBenEncoder) (vs : list (list Z)) : option XBenEncoder :=
  match vs with
  | [] => Some e
  | v :: vs' => let* e' := write_json_value p e v in xwrite_all p e' vs'
  end.

(** [jsonl_encode_xben] on the JSONL lines' assignment arrays [vs]: the
    bytes fed to the [XzEncoder] once [ben_encoder] is dropped. *)
Definition jsonl_encode_xben (p : Profile) (variant : BenVariant) (vs : list (list Z))
  : option (list Z) :=
  let* e := xwrite_all p (XBenEncoder_new variant) vs in Some (drop_xencoder e).

(** ** XBEN stream reader: [XBenDecoder::new] and iteration *)

(** [XBenDecoder::new] on the decompressed stream: the variant and the bytes
    after the banner; then [xz.read] hands these bytes over in chunks. *)
Definition XBenDecoder_new (inp : list Z) : (BenVariant * list Z) + IoErrorKind :=
  match read_exact 17 inp with
  | None => inr UnexpectedEof
  | Some (first, rest) =>
      if list_Z_eqb first STANDARD_BANNER then inl (Standard, rest)
      else if list_Z_eqb first MKVCHAIN_BANNER then inl (MkvChain, rest)
      else inr InvalidData
  end.

(** Calling [next] on an [XBenDecoder] until it stops. *)
Fixpoint xben_collect (fuel : nat) (d : XBenDecoder) : list MkvRecord * Outcome :=
  match fuel with
  | O => ([], Finished)
  | S fuel' =>
      match xben_next d with
      | (Yield r, d') => let '(rs, o) := xben_collect fuel' d' in (r :: rs, o)
      | (YieldErr e, _) => ([], Failed e)
      | (Stop, _) => ([], Finished)
      | (Panic, _) => ([], Panicked)
      end
  end.

(** Iterating a fresh decoder whose [xz.read] calls return the chunks [cs];
    each yielded record takes at least one byte. *)
Definition xben_decode_all (variant : BenVariant) (cs : list (list Z)) : list MkvRecord * Outcome :=
  xben_collect (S (length (concat cs))) {| xvariant := variant; overflow := []; chunks := cs |}.

(** ** JSONL output of the BEN reader: [write_all_jsonl], [decode_ben_to_jsonl] *)

(** The [count] JSON lines [{"assignment": assignment, "sample": n}] written
    for one record, [n] running on from [sample_count]. *)
Fixpoint jsonl_lines (assignment : list Z) (count sample_count : nat) : list (list Z * nat) :=
  match count with
  | O => []
  | S count' => (assignment, S sample_count) :: jsonl_lines assignment count' (S sample_count)
  end.

(** [BenDecoder::write_all_jsonl] from [self.sample_count]: the lines written
    and the result, [None] for a panic in [next]. *)
Fixpoint write_all_jsonl (p : Profile) (fuel : nat) (variant : BenVariant) (sample_count : nat)
  (inp : list Z) : list (list Z * nat) * option (IoResult unit) :=
  match fuel with
  | O => ([], Some (Ok tt))
  | S fuel' =>
      match ben_decoder_next p variant inp with
      | (Yield (assignment, count), rest) =>
          let '(more, r) :=
            write_all_jsonl p fuel' variant (sample_count + Z.to_nat count) rest in
          (jsonl_lines assignment (Z.to_nat count) sample_count ++ more, r)
      | (YieldErr e, _) => ([], Some (Err e))
      | (Stop, _) => ([], Some (Ok tt))
      | (Panic, _) => ([], None)
      end
  end.

(** [decode_ben_to_jsonl(reader, writer)]; [DecoderInitError] becomes an
    [io::Error] through [From]. *)
Definition decode_ben_to_jsonl (p : Profile) (inp : list Z)
  : list (list Z * nat) * option (IoResult unit) :=
  match BenDecoder_new inp with
  | inr (InitIo e) => ([], Some (Err e))
  | inr (InvalidFileFormat _) => ([], Some (Err InvalidData))
  | inl (variant, rest) => write_all_jsonl p (S (length rest)) variant 0 rest
  end.

(** ** XBEN to JSONL: [jsonl_decode_ben32] and [decode_xben_to_jsonl]
    ([src/ben/src/decode/mod.rs]) *)

(** [decode_ben32_line(&mut reader, variant)] with the bytes it leaves in the
    reader; the first component is [decode_ben32_line]'s result. *)
Definition decode_ben32_read (inp : list Z) (variant : BenVariant)
  : option (IoResult MkvRecord) * list Z :=
  match ben32_words (S (length inp)) inp with
  | (Err e, rest) => (Some (Err e), rest)
  | (Ok output_vec, rest) =>
      match variant with
      | Standard => (Some (Ok (output_vec, 1)), rest)
      | MkvChain =>
          match read_u16_be rest with
          | None => (None, [])
          | Some (c, rest') => (Some (Ok (output_vec, c)), rest')
          end
      end
  end.

(** The [count] JSON lines [{"assignment": assignment, "sample": n}] for
    [n = sample, sample + 1, ...]. *)
Fixpoint sample_lines (assignment : list Z) (count sample : nat) : list (list Z * nat) :=
  match count with
  | O => []
  | S count' => (assignment, sample) :: sample_lines assignment count' (S sample)
  end.

(** The [loop] of [jsonl_decode_ben32] from [sample_number]: the lines
    written and the result ([None] for a panic). An [UnexpectedEof] from
    [decode_ben32_line] ends it with [Ok(())]. Each round reads at least
    four bytes, so [length inp + 1] rounds reach the end. *)
Fixpoint jsonl_decode_ben32_loop (fuel : nat) (inp : list Z) (sample_number starting_sample : nat)
  (variant : BenVariant) : list (list Z * nat) * option (IoResult unit) :=
  match fuel with
  | O => ([], Some (Ok tt))
  | S fuel' =>
      match decode_ben32_read inp variant with
      | (None, _) => ([], None)
      | (Some (Err UnexpectedEof), _) => ([], Some (Ok tt))
      | (Some (Err e), _) => ([], Some (Err e))
      | (Some (Ok (output_vec, count)), rest) =>
          let '(more, r) :=
            jsonl_decode_ben32_loop fuel' rest (sample_number + Z.to_nat count)
              starting_sample variant in
          (sample_lines output_vec (Z.to_nat count) (sample_number + starting_sample) ++ more, r)
      end
  end.

Definition jsonl_decode_ben32 (inp : list Z) (starting_sample : nat) (variant : BenVariant)
  : list (list Z * nat) * option (IoResult unit) :=
  jsonl_decode_ben32_loop (S (length inp)) inp 1 starting_sample variant.

(** Standard: [for i in (3..overflow.len()).step_by(4)]; a zero word at [i]
    sets [last_valid_assignment = i + 1] and adds one to [line_count]. *)
Fixpoint scan_std (fuel : nat) (i : nat) (overflow : list Z) (last line_count : nat)
  : nat * nat :=
  match fuel with
  | O => (last, line_count)
  | S fuel' =>
      if (i <? length overflow)%nat then
        if zero_word_at overflow i
        then scan_std fuel' (i + 4) overflow (i + 1) (line_count + 1)
        else scan_std fuel' (i + 4) overflow last line_count
      else (last, line_count)
  end.

(** MkvChain: [for i in (3..overflow.len().saturating_sub(2)).step_by(2)]; a
    zero word at [i] sets [last_valid_assignment = i + 3] and adds the count
    in [overflow[i+1..i+3]] to [line_count]. *)
Fixpoint scan_mkv (fuel : nat) (i stop : nat) (overflow : list Z) (last line_count : nat)
  : nat * nat :=
  match fuel with
  | O => (last, line_count)
  | S fuel' =>
      if (i <? stop)%nat then
        if zero_word_at overflow i
        then scan_mkv fuel' (i + 2) stop overflow (i + 3)
               (line_count + Z.to_nat (u16_from_be_bytes (nth (i + 1) overflow 0)
                                                         (nth (i + 2) overflow 0)))
        else scan_mkv fuel' (i + 2) stop overflow last line_count
      else (last, line_count)
  end.

(** [(last_valid_assignment, line_count)] after the scan of one buffer. *)
Definition scan_overflow (variant : BenVariant) (overflow : list Z) (line_count : nat)
  : nat * nat :=
  match variant with
  | Standard => scan_std (length overflow) 3 overflow 0 line_count
  | MkvChain => scan_mkv (length overflow) 3 (length overflow - 2) overflow 0 line_count
  end.

(** The [while let Ok(count) = decoder.read(&mut buffer)] loop, over the
    successive results [reads] of [decoder.read]; an empty read is the end
    of the stream. *)
Fixpoint xben_jsonl_loop (variant : BenVariant) (reads : list (list Z)) (overflow : list Z)
  (line_count starting_sample : nat) : list (list Z * nat) * option (IoResult unit) :=
  match reads with
  | [] => ([], Some (Ok tt))
  | [] :: _ => ([], Some (Ok tt))
  | buffer :: reads' =>
      let overflow := overflow ++ buffer in
      let '(last_valid_assignment, line_count) := scan_overflow variant overflow line_count in
      if (last_valid_assignment =? 0)%nat
      then xben_jsonl_loop variant reads' overflow line_count starting_sample
      else
        match jsonl_decode_ben32 (firstn last_valid_assignment overflow) starting_sample variant with
        | (lines, Some (Ok _)) =>
            let '(more, r) :=
              xben_jsonl_loop variant reads' (skipn last_valid_assignment overflow)
                line_count line_count in
            (lines ++ more, r)
        | (lines, r) => (lines, r)
        end
  end.

(** [decode_xben_to_jsonl(reader, writer)]: [stream] is the decompressed
    stream [decoder.read_exact] reads the banner from, [reads] the results of
    the [decoder.read] calls after it. *)
Definition decode_xben_to_jsonl (stream : list Z) (reads : list (list Z))
  : list (list Z * nat) * option (IoResult unit) :=
  match read_exact 17 stream with
  | None => ([], Some (Err UnexpectedEof))
  | Some (first_buffer, _) =>
      if list_Z_eqb first_buffer STANDARD_BANNER
      then xben_jsonl_loop Standard reads [] 0 0
      else if list_Z_eqb first_buffer MKVCHAIN_BANNER
      then xben_jsonl_loop MkvChain reads [] 0 0
      else ([], Some (Err InvalidData))
  end.

(** ** Reference notions for the ben32 and JSONL statements *)

(** A sample one ben32 line holds: [u16] values in maximal runs shorter
    than [2^16]. *)
Definition ben32_ok (v : list Z) : Prop :=
  exists R, canonical_rle None R /\ Forall (fun r => 0 <= fst r < 2 ^ 16) R /\ rle_to_vec R = v.

(** The bytes [F] are one complete XBEN frame of the variant, read as the
    record [rec]: [pop_frame_from_overflow] takes exactly [F] off any
    overflow that starts with it, finds nothing in a shorter prefix of it,
    and [decode_ben32_line] reads [rec]'s assignment from it. *)
Definition xben_frame (variant : BenVariant) (F : list Z) (rec : MkvRecord) : Prop :=
  (1 <= length F)%nat
  /\ (forall m, pop_frame_from_overflow variant (F ++ m) = Some (F, length F, snd rec))
  /\ (forall ov rest more, (length ov < length F)%nat -> ov ++ rest = F ++ more ->
        pop_frame_from_overflow variant ov = None)
  /\ exists c, decode_ben32_line F variant = Some (Ok (fst rec, c)).

(** A list of samples grouped as an XBEN MkvChain stream stores them. *)
Fixpoint xgroups_ok (prev : option (list Z)) (groups : list (list Z * nat)) : Prop :=
  match groups with
  | [] => True
  | (v, k) :: gs =>
      ben32_ok v /\ 1 <= Z.of_nat k <= 65535 /\ prev <> Some v /\ xgroups_ok (Some v) gs
  end.

(** The JSON lines of the samples [vs], numbered from [n + 1]. *)
Definition numbered (vs : list (list Z)) (n : nat) : list (list Z * nat) :=
  combine vs (seq (S n) (length vs)).

(** The [io::Result<()>] that [write_all_jsonl] returns after iterating to
    the given end ([None] for a panic). *)
Definition outcome_result (o : Outcome) : option (IoResult unit) :=
  match o with
  | Finished => Some (Ok tt)
  | Failed e => Some (Err e)
  | Panicked => None
  end.

(** A run a ben32 word can hold: a [u16] value and a length in [[1, 2^16 - 1]]. *)
Definition u16run (r : run) : Prop := 0 <= fst r < 2 ^ 16 /\ 1 <= snd r < 2 ^ 16.


(** The bytes [F] are the ben32 frame of the record [rec]: the words of
    runs [R], the zero word and, in MkvChain, a non-zero [u16] count. *)
Definition ben32_frame (variant : BenVariant) (F : list Z) (rec : MkvRecord) : Prop :=
  exists R, Forall u16run R /\
    match variant with
    | Standard =>
        F = flat_map (fun r => ben32_word (fst r) (snd r)) R ++ [0; 0; 0; 0]
        /\ rec = (rle_to_vec R, 1)
    | MkvChain =>
        exists c, 1 <= c < 2 ^ 16
        /\ F = flat_map (fun r => ben32_word (fst r) (snd r)) R ++ [0; 0; 0; 0] ++ u16_to_be_bytes c
        /\ rec = (rle_to_vec R, c)
    end.

(** [Y] is a strict prefix of some frame. *)
Definition partial_frame (variant : BenVariant) (Y : list Z) : Prop :=
  exists G rec rest, ben32_frame variant G rec /\ Y ++ rest = G /\ (length Y < length G)%nat.

(** * Proofs *)

Example encode_s1 :
  encode_ben_vec_from_rle Debug (assign_to_rle [1;1;1;2;2;2]) = Some [2;2;0;0;0;1;123].
Proof. reflexivity. Qed.

Example decode_s1 : forall q : Profile, decode_payload q 2 2 [123] = Some [(1, 3); (2, 3)].
Proof. intros []; reflexivity. Qed.

(** Widths outside [1..16]: both [0] makes [Vec::with_capacity(usize::MAX)]
    panic in either build (an empty line allocates nothing); a [u8] sum
    past 255 or a shift by [32 - 0] panics in a debug build. *)
Example decode_ben_line_panics :
  (forall q : Profile, decode_ben_line q [255] 0 0 1 = None)
  /\ decode_ben_line Debug [255] 0 0 0 = Some (Ok [], [255])
  /\ decode_ben_line Debug [255] 200 100 1 = None
  /\ decode_ben_line Debug [255] 0 8 1 = None.
Proof. split; [intros []|]; repeat split; reflexivity. Qed.

Example roundtrip_small_std : forall q : Profile,
  match encode_ben_stream Debug Standard [[1;1;1;2;2;2]; [1;1;2;2;1;2]; [3;3;3;3]] with
  | Some s => ben_decode_stream q s
  | None => inr (InitIo InvalidData)
  end = inl ([([1;1;1;2;2;2], 1); ([1;1;2;2;1;2], 1); ([3;3;3;3], 1)], Finished).
Proof. intros []; vm_compute; reflexivity. Qed.

Example roundtrip_small_mkv : forall q : Profile,
  match encode_ben_stream Debug MkvChain [[1;1;1;2;2;2]; [1;1;1;2;2;2]; [5;5;9]] with
  | Some s => ben_decode_stream q s
  | None => inr (InitIo InvalidData)
  end = inl ([([1;1;1;2;2;2], 2); ([5;5;9], 1)], Finished).
Proof. intros []; vm_compute; reflexivity. Qed.

Example extract_s3 : forall q : Profile,
  match encode_ben_stream Debug Standard [[1;2;3]; [4;5;6]; [7;8;9]] with
  | Some s => extract_assignment_ben q s 2
  | None => None
  end = Some (inl [4;5;6]).
Proof. intros []; vm_compute; reflexivity. Qed.

Example xben_frames :
  fst (xben_next {| xvariant := MkvChain; overflow := [];
                    chunks := [[0;1;0]; [3;0;0;0;0;0;2]] |}) = Yield ([1;1;1], 2).
Proof. reflexivity. Qed.

Example subsample_s4 : forall p : Profile,
  subsample_all p (SubsampleDecoder_new five (Every 2 1)) = ([([1], 1); ([3], 1); ([5], 1)], Finished)
  /\ subsample_all p (SubsampleDecoder_new five (Range 2 4)) = ([([2], 1); ([3], 1); ([4], 1)], Finished)
  /\ subsample_all p (by_indices five [5; 1; 3; 3]%nat) = ([([1], 1); ([3], 1); ([5], 1)], Finished)
  /\ subsample_all p (SubsampleDecoder_new [Ok ([7], 5); Ok ([8], 4)] (Every 3 2))
     = ([([7], 2); ([8], 1)], Finished).
Proof. intros []; repeat split; vm_compute; reflexivity. Qed.

(** ** C9: the S1 scenario *)

(** C9 (counterexample): the 15 body bytes of the scenario are not what
    encoding the single sample [[1,1,1,2,2,2]] produces. *)
Lemma C9_fifteen_bytes_not_single_sample :
  encode_ben_stream Debug Standard [[1;1;1;2;2;2]]
  <> Some (STANDARD_BANNER ++ [2;2;0;0;0;1;123;2;2;0;0;0;2;106;89]).
Proof. vm_compute. discriminate. Qed.

(** C9 (amended): encoding the single sample [[1,1,1,2,2,2]] as a Standard
    stream writes the banner and the 7 body bytes [02 02 00 00 00 01 7B]
    (runs (1,3),(2,3) at 2 value bits and 2 length bits); the 15 bytes
    [02 02 00 00 00 01 7B 02 02 00 00 00 02 6A 59] are the body of the
    two-sample input [[1,1,1,2,2,2],[1,1,2,2,1,2]]. *)
Theorem C9_s1_body : forall p : Profile,
  assign_to_rle [1;1;1;2;2;2] = [(1, 3); (2, 3)]
  /\ encode_ben_stream p Standard [[1;1;1;2;2;2]]
     = Some (STANDARD_BANNER ++ [2;2;0;0;0;1;123])
  /\ encode_ben_stream p Standard [[1;1;1;2;2;2]; [1;1;2;2;1;2]]
     = Some (STANDARD_BANNER ++ [2;2;0;0;0;1;123;2;2;0;0;0;2;106;89]).
Proof. intros []; vm_compute; repeat split. Qed.

(** ** C8: the empty run list *)

(** C8: [encode_ben_vec_from_rle] panics on an empty run list (the
    [max_by_key(..).unwrap()] on an empty iterator), in every build, and so
    does writing an empty assignment through a [BenEncoder]. *)
Theorem C8_empty_runs_panic : forall (p : Profile) (variant : BenVariant),
  encode_ben_vec_from_rle p [] = None
  /\ write_assignment p (BenEncoder_new variant) [] = None.
Proof. intros p []; split; reflexivity. Qed.

(** ** C7: random-access errors *)

(** C7: sample number 0 is refused for every input; one past the end of a
    well-formed stream of one sample reports [SampleNotFound 2], not 1. *)
Theorem C7_extract_errors :
  (forall (q : Profile) (inp : list Z), extract_assignment_ben q inp 0 = Some (inr InvalidSampleNumber))
  /\ (forall p q : Profile,
        match encode_ben_stream p Standard [[1;2;3]] with
        | Some s => extract_assignment_ben q s 2
        | None => None
        end = Some (inr (SampleNotFound 2))).
Proof. split; [reflexivity | intros [] []; vm_compute; reflexivity]. Qed.

(** ** C5: banner rejection *)

Lemma list_Z_eqb_refl : forall l, list_Z_eqb l l = true.
Proof.
  intros l; unfold list_Z_eqb; rewrite Nat.eqb_refl; simpl.
  induction l as [|x l IH]; simpl; auto.
  rewrite Z.eqb_refl; exact IH.
Qed.

Lemma list_Z_eqb_eq : forall l1 l2, list_Z_eqb l1 l2 = true <-> l1 = l2.
Proof.
  split; [|intros ->; apply list_Z_eqb_refl].
  revert l2; induction l1 as [|x l1 IH]; intros [|y l2]; unfold list_Z_eqb; simpl;
    try discriminate; auto.
  intros H; apply andb_true_iff in H as [Hl H].
  apply andb_true_iff in H as [Hxy H].
  apply Z.eqb_eq in Hxy; subst; f_equal; apply IH.
  unfold list_Z_eqb; rewrite Hl, H; reflexivity.
Qed.

Lemma string_app_assoc : forall a b c : string,
  ((a ++ b) ++ c)%string = (a ++ (b ++ c))%string.
Proof. induction a as [|x a IH]; intros; simpl; [reflexivity | rewrite IH; reflexivity]. Qed.

Lemma firstn_length_le_eq : forall (A : Type) (n : nat) (l : list A),
  (n <= length l)%nat -> length (firstn n l) = n.
Proof. intros; rewrite length_firstn; lia. Qed.

(** C5: on an input of at least 17 bytes whose first 17 are neither banner,
    [BenDecoder::new] fails with [InvalidFileFormat] carrying those bytes;
    when the input starts with the xz magic, the displayed message sends the
    user to decompression ([ben -m decode <file_name>.xben] or
    [decode_xben_to_ben]). *)
Theorem C5_banner_rejection :
  forall (lossy_debug : list Z -> string) (io_msg : string) (inp : list Z),
  (17 <= length inp)%nat ->
  firstn 17 inp <> STANDARD_BANNER ->
  firstn 17 inp <> MKVCHAIN_BANNER ->
  BenDecoder_new inp = inr (InvalidFileFormat (firstn 17 inp))
  /\ (firstn 6 inp = XZ_MAGIC ->
      substring_of "Decompress this file using the BEN cli `ben -m decode <file_name>.xben` tool"
        (display_init_error lossy_debug (InvalidFileFormat (firstn 17 inp)) io_msg)
      /\ substring_of "decode_xben_to_ben"
        (display_init_error lossy_debug (InvalidFileFormat (firstn 17 inp)) io_msg)).
Proof.
  intros lossy io inp Hlen Hs Hm.
  split.
  - unfold BenDecoder_new, read_exact.
    replace (17 <=? length inp)%nat with true by (symmetry; apply Nat.leb_le; exact Hlen).
    destruct (list_Z_eqb (firstn 17 inp) STANDARD_BANNER) eqn:E1.
    { apply list_Z_eqb_eq in E1; contradiction. }
    destruct (list_Z_eqb (firstn 17 inp) MKVCHAIN_BANNER) eqn:E2.
    { apply list_Z_eqb_eq in E2; contradiction. }
    reflexivity.
  - intros Hxz.
    assert (Hx : is_xz_header (firstn 17 inp) = true).
    { unfold is_xz_header.
      rewrite firstn_length_le_eq by exact Hlen.
      rewrite firstn_firstn. change (Nat.min 6 17) with 6%nat. rewrite Hxz. reflexivity. }
    unfold display_init_error; rewrite Hx.
    split.
    + eexists ("Invalid file format: Compressed header detected (hex: " ++ to_hex (firstn 17 inp)
               ++ "). This reader expects an uncompressed .ben file. ")%string.
      eexists. rewrite !string_app_assoc. reflexivity.
    + eexists ("Invalid file format: Compressed header detected (hex: " ++ to_hex (firstn 17 inp)
               ++ "). This reader expects an uncompressed .ben file. Decompress this file using the BEN cli `ben -m decode <file_name>.xben` tool or the `")%string.
      eexists. rewrite !string_app_assoc. reflexivity.
Qed.

(** Witness for C5: the 17 first bytes of an xz container. *)
Lemma C5_banner_rejection_witness :
  let inp := XZ_MAGIC ++ [0; 0; 4; 230; 214; 180; 70; 2; 0; 33; 1] in
  (17 <= length inp)%nat /\ firstn 17 inp <> STANDARD_BANNER /\ firstn 17 inp <> MKVCHAIN_BANNER
  /\ BenDecoder_new inp = inr (InvalidFileFormat (firstn 17 inp)).
Proof.
  intros inp.
  assert (H1 : (17 <= length inp)%nat) by (vm_compute; lia).
  assert (H2 : firstn 17 inp <> STANDARD_BANNER) by (vm_compute; discriminate).
  assert (H3 : firstn 17 inp <> MKVCHAIN_BANNER) by (vm_compute; discriminate).
  refine (conj H1 (conj H2 (conj H3 _))).
  exact (proj1 (C5_banner_rejection (fun _ => EmptyString) EmptyString inp H1 H2 H3)).
Defined.

(** ** C4: truncated streams *)

(** C4: a truncated payload is reported as an error value, and so is an
    XBEN stream ending in a partial frame; but a stream cut inside a line
    header (after its first byte) or inside the MkvChain repeat suffix makes
    [BenDecoder::next] panic through [expect]. *)
Theorem C4_truncation_behaviour : forall q : Profile,
  (* end of stream at a sample boundary: [None] *)
  ben_decoder_next q Standard [] = (Stop, [])
  (* cut inside the declared payload: [Some(Err(UnexpectedEof))] *)
  /\ fst (ben_decoder_next q Standard [2; 2; 0; 0; 0; 1]) = YieldErr UnexpectedEof
  (* cut inside the 6-byte header: a panic *)
  /\ ben_decoder_next q Standard [2] = (Panic, [])
  /\ ben_decoder_next q Standard [2; 2; 0; 0] = (Panic, [])
  (* cut inside the MkvChain repeat suffix: a panic *)
  /\ ben_decoder_next q MkvChain [2; 2; 0; 0; 0; 1; 123; 0] = (Panic, [])
  (* XBEN: decompressed stream ends in a partial frame: an error *)
  /\ fst (xben_next {| xvariant := Standard; overflow := []; chunks := [[0; 1; 0; 3; 0; 0]] |})
     = YieldErr UnexpectedEof.
Proof. intros []; repeat split; reflexivity. Qed.

(** The XBEN half of C4 in general: at the end of the decompressed stream,
    an [overflow] that holds no complete frame and is not empty is an
    error. *)
Lemma xben_truncated_frame_error : forall (variant : BenVariant) (ov : list Z),
  ov <> [] -> pop_frame_from_overflow variant ov = None ->
  xben_next {| xvariant := variant; overflow := ov; chunks := [] |}
  = (YieldErr UnexpectedEof, {| xvariant := variant; overflow := ov; chunks := [] |}).
Proof.
  intros variant ov Hne Hpop; unfold xben_next; simpl.
  rewrite Hpop; destruct ov; [contradiction | reflexivity].
Qed.

(** ** C6: the MkvChain repeat counter *)

Definition line_of_1 : list Z := [1; 1; 0; 0; 0; 1; 192].

Lemma write_all_app : forall p e l1 l2,
  write_all p e (l1 ++ l2) = match write_all p e l1 with
                             | Some e' => write_all p e' l2
                             | None => None
                             end.
Proof.
  intros p e l1; revert e; induction l1 as [|v l1 IH]; intros e l2; simpl; [reflexivity|].
  destruct (write_assignment p e v); [apply IH | reflexivity].
Qed.

(** While the count stays below [2^16], each identical sample bumps it. *)
Lemma write_all_repeat_same : forall p k w c,
  0 <= c -> c + Z.of_nat k < 2 ^ 16 ->
  write_all p (mkBenEncoder w line_of_1 c MkvChain) (repeat [1] k)
  = Some (mkBenEncoder w line_of_1 (c + Z.of_nat k) MkvChain).
Proof.
  intros p k; induction k as [|k IH]; intros w c Hc Hk; simpl.
  - rewrite Z.add_0_r; reflexivity.
  - unfold write_assignment, write_rle; simpl.
    unfold u16_add.
    replace (c + 1 <? 2 ^ 16) with true by (symmetry; apply Z.ltb_lt; lia).
    rewrite IH by lia. f_equal. f_equal. lia.
Qed.

Lemma first_write_1 : forall p,
  write_assignment p (BenEncoder_new MkvChain) [1]
  = Some (mkBenEncoder MKVCHAIN_BANNER line_of_1 1 MkvChain).
Proof. intros []; reflexivity. Qed.

(** 65,535 identical samples: one group, count [2^16 - 1]. *)
Lemma write_all_65535 : forall p,
  write_all p (BenEncoder_new MkvChain) (repeat [1] 65535)
  = Some (mkBenEncoder MKVCHAIN_BANNER line_of_1 65535 MkvChain).
Proof.
  intros p. change (repeat [1] 65535) with ([1] :: repeat [1] 65534).
  cbn [write_all]. rewrite first_write_1.
  rewrite write_all_repeat_same by first [lia | vm_compute; reflexivity].
  reflexivity.
Qed.

Lemma repeat_65536_split : repeat [1] 65536 = repeat [1] 65535 ++ [[1]].
Proof. rewrite <- repeat_cons. reflexivity. Qed.

(** The 65,536th identical sample: a panic in a debug build; in a release
    build the count wraps to 0 and the drop writes nothing. *)
Lemma write_all_65536 :
  encode_ben_stream Debug MkvChain (repeat [1] 65536) = None
  /\ encode_ben_stream Release MkvChain (repeat [1] 65536) = Some MKVCHAIN_BANNER.
Proof.
  unfold encode_ben_stream; rewrite repeat_65536_split, !write_all_app, !write_all_65535.
  split; reflexivity.
Qed.

(** C6: the repeat counter of a MkvChain [BenEncoder] is never saturated.
    65,535 identical samples make one group with count [FF FF]; the
    65,536th overflows the [u16]: a debug build panics, a release build
    wraps the count to 0 and the whole group is never written. *)
Theorem C6_repeat_counter_overflow :
  (forall p, encode_ben_stream p MkvChain (repeat [1] 65535)
             = Some (MKVCHAIN_BANNER ++ line_of_1 ++ [255; 255]))
  /\ encode_ben_stream Debug MkvChain (repeat [1] 65536) = None
  /\ encode_ben_stream Release MkvChain (repeat [1] 65536) = Some MKVCHAIN_BANNER
  /\ (forall q, ben_decode_stream q MKVCHAIN_BANNER = inl ([], Finished)).
Proof.
  destruct write_all_65536 as [Hd Hr].
  split; [|split; [exact Hd | split; [exact Hr | reflexivity]]].
  intros p; unfold encode_ben_stream; rewrite write_all_65535; reflexivity.
Qed.

(** ** Subsampling *)

Section Counting.

Lemma count_in_length : forall (mem : nat -> bool) (lo hi : nat) (L : list nat),
  NoDup L ->
  (forall i, In i L <-> ((lo <= i <= hi)%nat /\ mem i = true)) ->
  count_in mem lo hi = length L.
Proof.
  intros mem lo hi L HL Hin; unfold count_in.
  apply Permutation_length, NoDup_Permutation.
  - apply NoDup_filter, seq_NoDup.
  - exact HL.
  - intros i; rewrite filter_In, in_seq, Hin.
    split; intros [A B]; split; auto; lia.
Qed.

Lemma count_in_zero : forall (mem : nat -> bool) (lo hi : nat),
  (forall i, (lo <= i <= hi)%nat -> mem i = false) -> count_in mem lo hi = 0%nat.
Proof.
  intros mem lo hi H.
  rewrite (count_in_length mem lo hi []); [reflexivity | constructor |].
  intros i; simpl; split; [tauto|]. intros [Hi Hm]; rewrite H in Hm; [discriminate | exact Hi].
Qed.

Lemma count_in_le : forall (mem : nat -> bool) (lo hi : nat),
  (count_in mem lo hi <= S hi - lo)%nat.
Proof.
  intros; unfold count_in. rewrite <- (length_seq (S hi - lo) lo) at 2.
  apply filter_length_le.
Qed.

Lemma count_in_ext : forall (m1 m2 : nat -> bool) (lo hi : nat),
  (forall i, (lo <= i)%nat -> m1 i = m2 i) -> count_in m1 lo hi = count_in m2 lo hi.
Proof.
  intros m1 m2 lo hi H; unfold count_in; f_equal.
  apply filter_ext_in; intros i Hi; apply in_seq in Hi; apply H; lia.
Qed.

Lemma StronglySorted_lt_NoDup : forall l : list nat, StronglySorted lt l -> NoDup l.
Proof.
  induction l as [|x l IH]; intros H; constructor.
  - apply StronglySorted_inv in H as [_ H]. intros Hx.
    rewrite Forall_forall in H; specialize (H x Hx); lia.
  - apply IH; apply StronglySorted_inv in H; tauto.
Qed.

Lemma StronglySorted_filter : forall (f : nat -> bool) (l : list nat),
  StronglySorted lt l -> StronglySorted lt (filter f l).
Proof.
  intros f; induction l as [|x l IH]; intros H; simpl; [constructor|].
  apply StronglySorted_inv in H as [Hs Hf].
  destruct (f x); [constructor|]; auto.
  apply Forall_forall; intros y Hy; apply filter_In in Hy as [Hy _].
  rewrite Forall_forall in Hf; auto.
Qed.

Lemma in_selection_indices : forall (l : list nat) (i : nat),
  in_selection (Indices l) i = true <-> In i l.
Proof.
  intros l i; simpl; rewrite existsb_exists; split.
  - intros [x [Hx E]]; apply Nat.eqb_eq in E; subst; exact Hx.
  - intros Hi; exists i; split; [exact Hi | apply Nat.eqb_refl].
Qed.

Lemma filter_const_false : forall l : list nat, filter (fun _ => false) l = [].
Proof. induction l; simpl; auto. Qed.

Lemma filter_const_true : forall l : list nat, filter (fun _ => true) l = l.
Proof. induction l; simpl; f_equal; auto. Qed.

(** The [Indices] arm: the elements of a strictly increasing list inside
    [[lo, hi]] are counted, and the list keeps those above [hi]. *)
Lemma take_indices_spec : forall (l : list nat) (lo hi : nat) (t : Z),
  StronglySorted lt l -> (lo <= hi)%nat -> 0 <= t <= 65535 ->
  take_indices l lo hi t
  = (Z.min (t + Z.of_nat (length (filter (fun i => (lo <=? i)%nat && (i <=? hi)%nat) l))) 65535,
     filter (fun i => (hi <? i)%nat) l).
Proof.
  induction l as [|x l IH]; intros lo hi t Hs Hle Ht; simpl.
  - f_equal; lia.
  - apply StronglySorted_inv in Hs as [Hs Hf].
    destruct (x <? lo)%nat eqn:E1; [apply Nat.ltb_lt in E1 | apply Nat.ltb_ge in E1].
    + replace ((lo <=? x)%nat) with false by (symmetry; apply Nat.leb_gt; lia).
      replace ((hi <? x)%nat) with false by (symmetry; apply Nat.ltb_ge; lia).
      simpl; apply IH; auto.
    + destruct (hi <? x)%nat eqn:E2; [apply Nat.ltb_lt in E2 | apply Nat.ltb_ge in E2].
      * replace ((x <=? hi)%nat) with false by (symmetry; apply Nat.leb_gt; lia).
        rewrite andb_false_r.
        rewrite Forall_forall in Hf.
        rewrite (filter_ext_in _ (fun _ => false)), filter_const_false.
        2: { intros y Hy; specialize (Hf y Hy).
             replace ((y <=? hi)%nat) with false by (symmetry; apply Nat.leb_gt; lia).
             apply andb_false_r. }
        rewrite (filter_ext_in _ (fun _ => true) l), filter_const_true.
        2: { intros y Hy; specialize (Hf y Hy); apply Nat.ltb_lt; lia. }
        simpl; f_equal; lia.
      * replace ((lo <=? x)%nat) with true by (symmetry; apply Nat.leb_le; lia).
        replace ((x <=? hi)%nat) with true by (symmetry; apply Nat.leb_le; lia).
        simpl. rewrite IH by (auto; lia). f_equal. lia.
Qed.

(** The first member of [Every step offset] at or after [s]. *)
Lemma every_first : forall d o s : nat,
  (1 <= d)%nat -> (o <= s)%nat ->
  let f := (s + (d - (s - o) mod d) mod d)%nat in
  (s <= f)%nat /\ ((f - o) mod d = 0)%nat
  /\ (forall i, (s <= i)%nat -> ((i - o) mod d = 0)%nat -> (f <= i)%nat).
Proof.
  intros d o s Hd Hos f.
  pose proof (Nat.div_mod_eq (s - o) d) as Hdm.
  pose proof (Nat.mod_upper_bound (s - o) d ltac:(lia)) as Hr.
  set (q := ((s - o) / d)%nat) in *; set (r := ((s - o) mod d)%nat) in *.
  destruct (Nat.eq_dec r 0) as [Hr0 | Hr0].
  - assert (E : f = s) by (unfold f; rewrite Hr0, Nat.sub_0_r, Nat.Div0.mod_same; lia).
    rewrite E; repeat split; [lia | exact Hr0 | tauto].
  - assert (E : f = (s + (d - r))%nat) by (unfold f; rewrite Nat.mod_small by lia; reflexivity).
    rewrite E; repeat split; [lia| |].
    + replace (s + (d - r) - o)%nat with ((q + 1) * d)%nat by nia.
      apply Nat.Div0.mod_mul.
    + intros i Hi Hm.
      pose proof (Nat.div_mod_eq (i - o) d) as Him; rewrite Hm in Him.
      set (k := ((i - o) / d)%nat) in *.
      assert (q < k)%nat by (destruct (le_lt_dec k q); [nia | lia]).
      nia.
Qed.

Lemma NoDup_progression : forall f d n a : nat, (1 <= d)%nat ->
  NoDup (map (fun j => (f + j * d)%nat) (seq a n)).
Proof.
  intros f d n; induction n as [|n IH]; intros a Hd; simpl; constructor; auto.
  rewrite in_map_iff; intros [j [Ej Hj]]; apply in_seq in Hj; nia.
Qed.

Lemma usize_add_ok : forall p a b, a + b < 2 ^ 64 -> usize_add p a b = Some (a + b).
Proof. intros p a b H; unfold usize_add; rewrite (proj2 (Z.ltb_lt _ _) H); reflexivity. Qed.

Lemma usize_sub_ok : forall p a b, b <= a -> usize_sub p a b = Some (a - b).
Proof. intros p a b H; unfold usize_sub; rewrite (proj2 (Z.leb_le _ _) H); reflexivity. Qed.

Lemma usize_rem_pos : forall a m, 0 < m -> usize_rem a m = Some (a mod m).
Proof. intros a m H; unfold usize_rem; rewrite (proj2 (Z.eqb_neq m 0)) by lia; reflexivity. Qed.

Lemma as_isize_small : forall x, x < 2 ^ 63 -> as_isize x = x.
Proof. intros x H; unfold as_isize; rewrite (proj2 (Z.ltb_lt _ _) H); reflexivity. Qed.

Lemma isize_sub_ok : forall p a b, - 2 ^ 63 <= a - b < 2 ^ 63 -> isize_sub p a b = Some (a - b).
Proof.
  intros p a b H; unfold isize_sub.
  rewrite (proj2 (Z.leb_le _ _)) by lia; rewrite (proj2 (Z.ltb_lt _ _)) by lia; reflexivity.
Qed.

Lemma isize_rem_euclid_pos : forall a m, 0 < m -> isize_rem_euclid a m = Some (a mod m).
Proof.
  intros a m H; unfold isize_rem_euclid.
  rewrite (proj2 (Z.eqb_neq m 0)) by lia; rewrite (proj2 (Z.eqb_neq m (-1))) by lia.
  rewrite andb_false_r, Z.abs_eq by lia; reflexivity.
Qed.

(** [a.rem_euclid(-1)] is [0], [isize::MIN] apart. *)
Lemma isize_rem_euclid_m1 : forall a, a <> - 2 ^ 63 -> isize_rem_euclid a (-1) = Some 0.
Proof.
  intros a H; unfold isize_rem_euclid.
  rewrite (proj2 (Z.eqb_neq a (- 2 ^ 63))) by exact H.
  change (Z.abs (-1)) with 1; rewrite Z.mod_1_r; reflexivity.
Qed.

Lemma every_count : forall (p : Profile) (step offset lo hi : nat),
  (1 <= step)%nat -> (1 <= offset)%nat -> (lo <= hi)%nat -> Z.of_nat hi < Z.of_nat lo + 65535 ->
  Z.of_nat hi < 2 ^ 63 -> Z.of_nat step < 2 ^ 63 ->
  count_selected_in p (Every step offset) lo hi
  = Some (Z.of_nat (count_in (in_selection (Every step offset)) lo hi), Every step offset).
Proof.
  intros p d o lo hi Hd Ho Hle Hw Hh Hds; unfold count_selected_in.
  set (s := Nat.max lo o).
  destruct (hi <? s)%nat eqn:E1; [apply Nat.ltb_lt in E1 | apply Nat.ltb_ge in E1].
  { rewrite count_in_zero; [reflexivity|].
    intros i Hi; simpl; replace ((o <=? i)%nat) with false by (symmetry; apply Nat.leb_gt; lia).
    reflexivity. }
  rewrite (as_isize_small (Z.of_nat s)) by lia.
  rewrite (as_isize_small (Z.of_nat o)) by lia.
  rewrite (as_isize_small (Z.of_nat d)) by lia.
  rewrite isize_sub_ok by lia.
  rewrite isize_rem_euclid_pos by lia.
  pose proof (Nat.mod_upper_bound (s - o) d ltac:(lia)) as Hr.
  replace ((Z.of_nat s - Z.of_nat o) mod Z.of_nat d) with (Z.of_nat ((s - o) mod d))
    by (rewrite Nat2Z.inj_mod, Nat2Z.inj_sub by lia; reflexivity).
  rewrite usize_sub_ok by lia.
  replace (Z.of_nat d - Z.of_nat ((s - o) mod d)) with (Z.of_nat (d - (s - o) mod d)) by lia.
  rewrite usize_rem_pos by lia.
  rewrite <- Nat2Z.inj_mod.
  pose proof (Nat.mod_upper_bound (d - (s - o) mod d) d ltac:(lia)) as Hu.
  rewrite usize_add_ok by lia.
  rewrite <- Nat2Z.inj_add.
  destruct (every_first d o s Hd ltac:(lia)) as [Hsf [Hfo Hmin]].
  set (f := (s + (d - (s - o) mod d) mod d)%nat) in *.
  destruct (Z.of_nat hi <? Z.of_nat f) eqn:E2; [apply Z.ltb_lt in E2 | apply Z.ltb_ge in E2].
  { rewrite count_in_zero; [reflexivity|].
    intros i Hi; simpl.
    destruct ((o <=? i)%nat) eqn:E3; [apply Nat.leb_le in E3 | reflexivity].
    destruct (((i - o) mod d =? 0)%nat) eqn:E4; [apply Nat.eqb_eq in E4 | reflexivity].
    specialize (Hmin i ltac:(lia) E4); lia. }
  assert ((hi - f) / d <= hi - f)%nat by (apply Nat.Div0.div_le_upper_bound; nia).
  replace ((Z.of_nat hi - Z.of_nat f) / Z.of_nat d) with (Z.of_nat ((hi - f) / d))
    by (rewrite Nat2Z.inj_div, Nat2Z.inj_sub by lia; reflexivity).
  rewrite usize_add_ok by lia.
  rewrite (count_in_length _ lo hi (map (fun j => (f + j * d)%nat) (seq 0 (1 + (hi - f) / d)))).
  2: apply NoDup_progression; exact Hd.
  - rewrite length_map, length_seq.
    do 2 f_equal; rewrite Z.mod_small; lia.
  - intros i; rewrite in_map_iff; unfold in_selection; split.
    + intros [j [Ej Hj]]; apply in_seq in Hj.
      pose proof (Nat.Div0.mul_div_le (hi - f) d).
      assert (j * d <= hi - f)%nat by nia.
      split; [lia|].
      apply andb_true_iff; split; [apply Nat.leb_le; lia|].
      apply Nat.eqb_eq.
      replace (i - o)%nat with ((f - o) + j * d)%nat by lia.
      rewrite Nat.Div0.mod_add; exact Hfo.
    + intros [Hi Hm]; apply andb_true_iff in Hm as [H1 H2].
      apply Nat.leb_le in H1; apply Nat.eqb_eq in H2.
      specialize (Hmin i ltac:(lia) H2).
      pose proof (Nat.div_mod_eq (i - o) d) as Him; rewrite H2 in Him.
      pose proof (Nat.div_mod_eq (f - o) d) as Hfm; rewrite Hfo in Hfm.
      set (k := ((i - o) / d)%nat) in *; set (m := ((f - o) / d)%nat) in *.
      assert (m <= k)%nat by (destruct (le_lt_dec m k); [lia | nia]).
      exists (k - m)%nat; split; [nia|].
      apply in_seq; split; [lia|].
      assert ((k - m) * d <= hi - f)%nat by nia.
      pose proof (Nat.Div0.div_le_mono _ _ d H3) as Hdiv.
      rewrite Nat.div_mul in Hdiv by lia; lia.
Qed.

Lemma range_count : forall (p : Profile) (start end_ lo hi : nat),
  (1 <= start <= end_)%nat -> (lo <= hi)%nat -> Z.of_nat hi < Z.of_nat lo + 65535 ->
  Z.of_nat hi < 2 ^ 63 ->
  count_selected_in p (Range start end_) lo hi
  = Some (Z.of_nat (count_in (in_selection (Range start end_)) lo hi), Range start end_).
Proof.
  intros p st en lo hi Hse Hle Hw Hh; unfold count_selected_in.
  destruct ((hi <? st)%nat || (en <? lo)%nat) eqn:E.
  - apply orb_true_iff in E.
    rewrite count_in_zero; [reflexivity|].
    intros i Hi; simpl; apply andb_false_iff.
    destruct E as [E | E]; apply Nat.ltb_lt in E; [left; apply Nat.leb_gt | right; apply Nat.leb_gt]; lia.
  - apply orb_false_iff in E as [E1 E2]; apply Nat.ltb_ge in E1, E2.
    rewrite usize_sub_ok by lia.
    rewrite usize_add_ok by lia.
    rewrite (count_in_length _ lo hi (seq (Nat.max lo st) (Nat.min hi en - Nat.max lo st + 1))).
    + rewrite length_seq; do 2 f_equal; rewrite Z.mod_small; lia.
    + apply seq_NoDup.
    + intros i; rewrite in_seq; unfold in_selection; rewrite andb_true_iff, !Nat.leb_le; lia.
Qed.

(** [count_selected_in] on an interval of at most [2^16 - 1] indices, all
    below [2^63], returns [|S ∩ [lo, hi]|] when [step < 2^63], and the
    selection it hands back denotes the same indices above [hi]. *)
Lemma count_selected_spec : forall (p : Profile) (sel : Selection) (lo hi : nat),
  wf_selection sel -> step_fits sel -> (lo <= hi)%nat -> Z.of_nat hi < Z.of_nat lo + 65535 ->
  Z.of_nat hi < 2 ^ 63 ->
  exists sel', count_selected_in p sel lo hi = Some (Z.of_nat (count_in (in_selection sel) lo hi), sel')
  /\ wf_selection sel' /\ step_fits sel'
  /\ (forall i, (hi < i)%nat -> in_selection sel' i = in_selection sel i).
Proof.
  intros p sel lo hi Hwf Hfit Hle Hw Hh; destruct sel as [l | step offset | st en].
  - simpl in Hwf; unfold count_selected_in.
    rewrite take_indices_spec by (auto; lia).
    assert (Hc : count_in (in_selection (Indices l)) lo hi
                 = length (filter (fun i => (lo <=? i)%nat && (i <=? hi)%nat) l)).
    { apply count_in_length.
      - apply NoDup_filter, StronglySorted_lt_NoDup, Hwf.
      - intros i; rewrite filter_In, in_selection_indices, andb_true_iff, !Nat.leb_le; tauto. }
    pose proof (count_in_le (in_selection (Indices l)) lo hi) as Hcl.
    exists (Indices (filter (fun i => (hi <? i)%nat) l)); split; [|split; [|split]].
    + rewrite Hc in *; do 2 f_equal; lia.
    + apply StronglySorted_filter, Hwf.
    + exact I.
    + intros i Hi; apply Bool.eq_iff_eq_true.
      rewrite !in_selection_indices, filter_In, Nat.ltb_lt; tauto.
  - simpl in Hwf, Hfit; exists (Every step offset).
    split; [apply every_count; lia | split; [simpl; lia | split; [exact Hfit | reflexivity]]].
  - simpl in Hwf; exists (Range st en).
    split; [apply range_count; lia | split; [exact Hwf | split; [exact I | reflexivity]]].
Qed.

(** The reference output only depends on the selection above [sample0]. *)
Lemma spec_subsample_ext : forall (m1 m2 : nat -> bool) recs s,
  (forall i, (s < i)%nat -> m1 i = m2 i) -> spec_subsample m1 recs s = spec_subsample m2 recs s.
Proof.
  intros m1 m2 recs; induction recs as [|[a c] recs IH]; intros s H; simpl; [reflexivity|].
  rewrite (count_in_ext m1 m2) by (intros i Hi; apply H; lia).
  f_equal; apply IH; intros i Hi; apply H; lia.
Qed.

Lemma spec_subsample_nil : forall (m : nat -> bool) recs s,
  (forall i, (s < i)%nat -> m i = false) -> spec_subsample m recs s = [].
Proof.
  intros m recs; induction recs as [|[a c] recs IH]; intros s H; simpl; [reflexivity|].
  rewrite count_in_zero by (intros i Hi; apply H; lia); simpl.
  apply IH; intros i Hi; apply H; lia.
Qed.

End Counting.

(** One call of [next]: it either stops, and nothing of the reference
    output is left, or yields its next record after consuming a non-empty
    prefix of the upstream records and advancing [sample] past all of them. *)
Lemma subsample_next_loop_spec : forall p sel0 fuel recs d,
  (length recs < fuel)%nat -> subsample_inv sel0 d recs ->
  match subsample_next_loop p fuel d with
  | (Stop, _) => spec_subsample (in_selection sel0) recs (sample d) = []
  | (Yield r, d') =>
      exists consumed rest, recs = consumed ++ rest /\ consumed <> []
      /\ subsample_inv sel0 d' rest
      /\ sample d' = (sample d + sum_counts consumed)%nat
      /\ spec_subsample (in_selection sel0) recs (sample d)
         = r :: spec_subsample (in_selection sel0) rest (sample d')
  | _ => False
  end.
Proof.
  intros p sel0 fuel; induction fuel as [|fuel IH]; intros recs d Hlen Hinv; [lia|].
  destruct Hinv as (Hin & Hval & Hwf & Hfit & Hsum & Hag).
  destruct d as [inn sel smp]; simpl in Hin, Hwf, Hfit, Hag |- *; cbn [sample] in Hsum.
  destruct (match sel with Range _ end_ => (end_ <=? smp)%nat | _ => false end) eqn:Edone.
  { destruct sel as [| |st en]; try discriminate.
    apply Nat.leb_le in Edone; apply spec_subsample_nil; intros i Hi.
    rewrite <- Hag by exact Hi; simpl; apply andb_false_iff; right; apply Nat.leb_gt; lia. }
  subst inn; destruct recs as [|[a c] recs]; [reflexivity|].
  inversion Hval as [|? ? Hc Hval']; subst; unfold valid_record in Hc; simpl in Hc.
  assert (Hsum' : Z.of_nat (smp + (Z.to_nat c + sum_counts recs)) < 2 ^ 63) by exact Hsum.
  clear Hsum; rename Hsum' into Hsum.
  simpl map; cbv iota.
  rewrite (usize_add_ok p (Z.of_nat smp) 1) by lia.
  rewrite (usize_add_ok p (Z.of_nat smp) c) by lia.
  replace (Z.to_nat (Z.of_nat smp + 1)) with (S smp) by lia.
  replace (Z.to_nat (Z.of_nat smp + c)) with (smp + Z.to_nat c)%nat by lia.
  destruct (count_selected_spec p sel (S smp) (smp + Z.to_nat c) Hwf Hfit
              ltac:(lia) ltac:(lia) ltac:(lia)) as (sel' & Ecs & Hwf' & Hfit' & Hag').
  rewrite Ecs.
  assert (Hk : count_in (in_selection sel) (S smp) (smp + Z.to_nat c)
               = count_in (in_selection sel0) (S smp) (smp + Z.to_nat c))
    by (apply count_in_ext; intros i Hi; apply Hag; lia).
  rewrite Hk.
  assert (Hinv' : subsample_inv sel0
                    {| inner := map Ok recs; selection := sel'; sample := smp + Z.to_nat c |} recs).
  { unfold subsample_inv; simpl.
    refine (conj eq_refl (conj Hval' (conj Hwf' (conj Hfit' (conj _ _))))); [lia|].
    intros i Hi; rewrite Hag' by lia; apply Hag; lia. }
  simpl spec_subsample.
  destruct (0 <? Z.of_nat (count_in (in_selection sel0) (S smp) (smp + Z.to_nat c))) eqn:Epos.
  - replace ((0 <? count_in (in_selection sel0) (S smp) (smp + Z.to_nat c))%nat) with true
      by (symmetry; apply Nat.ltb_lt; apply Z.ltb_lt in Epos; lia).
    exists [(a, c)], recs; simpl.
    split; [reflexivity | split; [discriminate | split; [exact Hinv' | split; [lia | reflexivity]]]].
  - replace ((0 <? count_in (in_selection sel0) (S smp) (smp + Z.to_nat c))%nat) with false
      by (symmetry; apply Nat.ltb_ge; apply Z.ltb_ge in Epos; lia).
    simpl app.
    specialize (IH recs _ ltac:(simpl in Hlen; lia) Hinv').
    destruct (subsample_next_loop p fuel _) as [[r | e | |] d']; try exact IH.
    destruct IH as (consumed & rest & E & Hne & Hinv'' & Hs & Hsp).
    exists ((a, c) :: consumed), rest; subst recs.
    simpl in Hs |- *.
    split; [reflexivity | split; [discriminate | split; [exact Hinv'' | split; [lia | exact Hsp]]]].
Qed.

Lemma subsample_collect_spec : forall p sel0 fuel recs d,
  (length recs < fuel)%nat -> subsample_inv sel0 d recs ->
  subsample_collect p fuel d = (spec_subsample (in_selection sel0) recs (sample d), Finished).
Proof.
  intros p sel0 fuel; induction fuel as [|fuel IH]; intros recs d Hlen Hinv; [lia|].
  simpl; unfold subsample_next.
  pose proof (subsample_next_loop_spec p sel0 (S (length (inner d))) recs d) as Hstep.
  destruct Hinv as [Hin Hrest].
  rewrite Hin, length_map in Hstep |- *.
  specialize (Hstep ltac:(lia) (conj Hin Hrest)).
  destruct (subsample_next_loop p _ d) as [[r | e | |] d']; try contradiction.
  - destruct Hstep as (consumed & rest & E & Hne & Hinv' & Hs & Hsp).
    assert (length recs = length consumed + length rest)%nat by (subst recs; apply length_app).
    destruct consumed; [contradiction|]; simpl in *.
    rewrite (IH rest d') by (auto; lia). rewrite Hsp; reflexivity.
  - rewrite Hstep; reflexivity.
Qed.

(** For a selection as its constructors build it with [step < 2^63]
    ([step as isize] is then [step]), and upstream records with counts in
    [1, 2^16 - 1] totalling less than [2^63] samples, in either build, the
    [SubsampleDecoder] yields, in stream order, one record
    [(assignment, |S ∩ [lo, hi]|)] for each upstream record whose index
    interval [[lo, hi]] meets [S], and nothing else; each call of [next]
    that yields advances [sample] past every upstream record it consumed,
    the skipped ones included; under [Range], [next] stops as soon as
    [sample >= end]. *)
Lemma subsample_correct_bounded : forall (p : Profile) (sel : Selection) (recs : list MkvRecord),
  wf_selection sel -> step_fits sel -> Forall valid_record recs ->
  Z.of_nat (sum_counts recs) < 2 ^ 63 ->
  subsample_all p (SubsampleDecoder_new (map Ok recs) sel)
  = (spec_subsample (in_selection sel) recs 0, Finished)
  /\ (forall (d d' : SubsampleDecoder) (r : MkvRecord),
        inner d = map Ok recs -> wf_selection (selection d) -> step_fits (selection d) ->
        Z.of_nat (sample d + sum_counts recs) < 2 ^ 63 ->
        subsample_next p d = (Yield r, d') ->
        exists consumed rest, recs = consumed ++ rest /\ consumed <> []
          /\ inner d' = map Ok rest /\ sample d' = (sample d + sum_counts consumed)%nat)
  /\ (forall (d : SubsampleDecoder) (start end_ : nat),
        selection d = Range start end_ -> (end_ <= sample d)%nat -> subsample_next p d = (Stop, d)).
Proof.
  intros p sel recs Hwf Hfit Hval Hsum; split; [|split].
  - unfold subsample_all; simpl; rewrite length_map.
    apply (subsample_collect_spec p sel (S (length recs)) recs); [lia|].
    unfold subsample_inv; simpl; repeat split; auto.
  - intros d d' r Hin Hwfd Hfitd Hsumd Hnext.
    pose proof (subsample_next_loop_spec p (selection d) (S (length (inner d))) recs d) as Hstep.
    rewrite Hin, length_map in Hstep.
    specialize (Hstep ltac:(lia) ltac:(unfold subsample_inv; repeat split; auto)).
    unfold subsample_next in Hnext; rewrite Hin, length_map in Hnext; rewrite Hnext in Hstep.
    destruct Hstep as (consumed & rest & E & Hne & [Hin' _] & Hs & _).
    exists consumed, rest; auto.
  - intros [inn sl smp] st en Hsel Hend; simpl in *; subst sl.
    unfold subsample_next; simpl.
    replace ((en <=? smp)%nat) with true by (symmetry; apply Nat.leb_le; exact Hend).
    reflexivity.
Qed.

(** [step = usize::MAX] is [-1] as an [isize]: [rem_euclid] gives [0], so
    the first selected index is [lo] itself and every upstream record
    counts one selected sample. *)
Lemma every_max_count : forall (p : Profile) (m lo hi : nat),
  Z.of_nat m = 2 ^ 64 - 1 -> (1 <= lo <= hi)%nat -> Z.of_nat hi < 2 ^ 63 ->
  count_selected_in p (Every m 1) lo hi = Some (1, Every m 1).
Proof.
  intros p m lo hi Hm Hl Hh; unfold count_selected_in.
  replace (Nat.max lo 1) with lo by lia.
  replace ((hi <? lo)%nat) with false by (symmetry; apply Nat.ltb_ge; lia).
  rewrite Hm.
  rewrite (as_isize_small (Z.of_nat lo)) by lia.
  rewrite (as_isize_small (Z.of_nat 1)) by lia.
  rewrite isize_sub_ok by lia.
  replace (as_isize (2 ^ 64 - 1)) with (-1) by reflexivity.
  rewrite isize_rem_euclid_m1 by lia.
  rewrite usize_sub_ok by lia.
  rewrite usize_rem_pos by lia.
  replace ((2 ^ 64 - 1 - 0) mod (2 ^ 64 - 1)) with 0 by reflexivity.
  rewrite usize_add_ok by lia.
  replace ((Z.of_nat hi <? Z.of_nat lo + 0)) with false by (symmetry; apply Z.ltb_ge; lia).
  rewrite Z.div_small by lia.
  rewrite usize_add_ok by lia.
  reflexivity.
Qed.

Lemma every_max_collect : forall (p : Profile) (m : nat) (recs : list MkvRecord) (smp fuel : nat),
  Z.of_nat m = 2 ^ 64 - 1 -> Forall valid_record recs ->
  Z.of_nat (smp + sum_counts recs) < 2 ^ 63 -> (length recs < fuel)%nat ->
  subsample_collect p fuel {| inner := map Ok recs; selection := Every m 1; sample := smp |}
  = (map (fun r => (fst r, 1)) recs, Finished).
Proof.
  intros p m recs; induction recs as [|[a c] recs IH]; intros smp fuel Hm Hval Hsum Hlen;
    (destruct fuel as [|fuel]; [simpl in Hlen; lia|]).
  - reflexivity.
  - apply Forall_cons_iff in Hval as [Hc Hval]; unfold valid_record in Hc; simpl in Hc.
    assert (Hsum' : Z.of_nat (smp + (Z.to_nat c + sum_counts recs)) < 2 ^ 63) by exact Hsum.
    clear Hsum; rename Hsum' into Hsum.
    cbn [subsample_collect]; unfold subsample_next; cbn [inner map length subsample_next_loop selection sample].
    rewrite (usize_add_ok p (Z.of_nat smp) 1) by lia.
    rewrite (usize_add_ok p (Z.of_nat smp) c) by lia.
    replace (Z.to_nat (Z.of_nat smp + 1)) with (S smp) by lia.
    replace (Z.to_nat (Z.of_nat smp + c)) with (smp + Z.to_nat c)%nat by lia.
    rewrite every_max_count by lia.
    cbn - [subsample_collect].
    rewrite (IH (smp + Z.to_nat c)%nat fuel Hm Hval) by (simpl in Hlen; lia).
    reflexivity.
Qed.

(** ** C3: subsampling *)

(** C3 (code bug): [SubsampleDecoder::every] accepts [step = usize::MAX],
    which the [Every] arm casts to the [isize] [-1]. [rem_euclid] then gives
    [0], so every upstream record counts as holding one selected sample: over
    the records [([1], 1)] and [([2], 1)] the decoder yields both, in either
    build, where [S ∩ [1, 2] = {1}] gives the first one only. Separately,
    under [Range], an upstream record of count [0] makes [b - a] underflow:
    a debug build panics where the reference output skips the record. *)
Theorem C3_every_step_wraps :
  (forall p : Profile,
     subsample_all p (SubsampleDecoder_new (map Ok [([1], 1); ([2], 1)]) (Every usize_MAX 1))
     = ([([1], 1); ([2], 1)], Finished))
  /\ spec_subsample (in_selection (Every usize_MAX 1)) [([1], 1); ([2], 1)] 0 = [([1], 1)]
  /\ subsample_all Debug (SubsampleDecoder_new (map Ok [([1], 1); ([2], 0)]) (Range 1 5))
     = ([([1], 1)], Panicked)
  /\ spec_subsample (in_selection (Range 1 5)) [([1], 1); ([2], 0)] 0 = [([1], 1)].
Proof.
  assert (Hm : Z.of_nat usize_MAX = 2 ^ 64 - 1) by (unfold usize_MAX; rewrite Z2Nat.id; lia).
  revert Hm; generalize usize_MAX; intros m Hm.
  split; [|split; [|split]].
  - intros p; unfold subsample_all, SubsampleDecoder_new.
    apply (every_max_collect p m [([1], 1); ([2], 1)] 0 _ Hm).
    + repeat constructor; unfold valid_record; simpl; lia.
    + simpl; lia.
    + simpl; lia.
  - assert (H1 : in_selection (Every m 1) 1 = true)
      by (unfold in_selection; rewrite Nat.sub_diag, Nat.Div0.mod_0_l; reflexivity).
    assert (H2 : in_selection (Every m 1) 2 = false)
      by (unfold in_selection; replace (2 - 1)%nat with 1%nat by reflexivity;
          rewrite Nat.mod_small by lia; reflexivity).
    cbn [spec_subsample]; unfold count_in.
    replace (Z.to_nat 1) with 1%nat by reflexivity.
    cbn [Nat.add Nat.sub seq filter]; rewrite H1, H2; reflexivity.
  - vm_compute; reflexivity.
  - vm_compute; reflexivity.
Qed.

(** ** C10: [by_indices] normalises its argument *)

Lemma In_insert_sorted : forall x l y, In y (insert_sorted x l) <-> x = y \/ In y l.
Proof.
  intros x l y; induction l as [|z l IH]; simpl; [tauto|].
  destruct (x <=? z)%nat; simpl; [tauto|]. rewrite IH; tauto.
Qed.

Lemma In_sort_unstable : forall l y, In y (sort_unstable l) <-> In y l.
Proof.
  induction l as [|x l IH]; intros y; simpl; [tauto|].
  rewrite In_insert_sorted, IH; split; intros [H | H]; auto.
Qed.

Lemma insert_sorted_sorted : forall x l, Sorted le l -> Sorted le (insert_sorted x l).
Proof.
  intros x l; induction l as [|z l IH]; intros H; simpl; [repeat constructor|].
  destruct (x <=? z)%nat eqn:E; [apply Nat.leb_le in E | apply Nat.leb_gt in E].
  - constructor; [exact H | constructor; exact E].
  - apply Sorted_inv in H as [Hs Hhd].
    constructor; [apply IH, Hs|].
    destruct l as [|w l]; simpl; [constructor; lia|].
    destruct (x <=? w)%nat; constructor; [lia|].
    inversion Hhd; assumption.
Qed.

Lemma sort_unstable_sorted : forall l, Sorted le (sort_unstable l).
Proof. induction l; simpl; [constructor | apply insert_sorted_sorted; assumption]. Qed.

Lemma dedup_from_spec : forall l prev,
  Sorted le (prev :: l) ->
  Sorted lt (prev :: dedup_from prev l)
  /\ (forall y, In y (prev :: dedup_from prev l) <-> In y (prev :: l)).
Proof.
  induction l as [|x l IH]; intros prev H.
  { simpl; split; [repeat constructor | tauto]. }
  cbn [dedup_from].
  apply Sorted_inv in H as [Hs Hhd]; inversion Hhd; subst.
  destruct (x =? prev)%nat eqn:E.
  - apply Nat.eqb_eq in E; subst x.
    destruct (IH prev Hs) as [H1 H2]; split; [exact H1|].
    intros y; rewrite H2; simpl; tauto.
  - apply Nat.eqb_neq in E.
    destruct (IH x Hs) as [H1 H2]; split.
    + constructor; [exact H1 | constructor; lia].
    + intros y; specialize (H2 y); simpl in H2 |- *; tauto.
Qed.

Lemma dedup_sort_spec : forall l,
  StronglySorted lt (dedup (sort_unstable l))
  /\ (forall y, In y (dedup (sort_unstable l)) <-> In y l).
Proof.
  intros l; pose proof (sort_unstable_sorted l) as Hs.
  destruct (sort_unstable l) as [|x l'] eqn:E; unfold dedup.
  - split; [constructor|]. intros y; rewrite <- (In_sort_unstable l), E; tauto.
  - destruct (dedup_from_spec l' x Hs) as [H1 H2]; split.
    + apply Sorted_StronglySorted; [intros a b c; lia | exact H1].
    + intros y; rewrite H2, <- (In_sort_unstable l y), E; tauto.
Qed.

(** A strictly increasing list is determined by its elements. *)
Lemma StronglySorted_lt_unique : forall l1 l2 : list nat,
  StronglySorted lt l1 -> StronglySorted lt l2 ->
  (forall y, In y l1 <-> In y l2) -> l1 = l2.
Proof.
  induction l1 as [|x l1 IH]; intros [|z l2] H1 H2 Hin.
  - reflexivity.
  - exfalso; apply (proj2 (Hin z)); left; reflexivity.
  - exfalso; apply (proj1 (Hin x)); left; reflexivity.
  - apply StronglySorted_inv in H1 as [H1 F1]; apply StronglySorted_inv in H2 as [H2 F2].
    rewrite Forall_forall in F1, F2.
    assert (Exz : x = z).
    { destruct (proj1 (Hin x) (or_introl eq_refl)) as [E | Hx]; [auto|].
      destruct (proj2 (Hin z) (or_introl eq_refl)) as [E | Hz]; [auto|].
      specialize (F1 z Hz); specialize (F2 x Hx); lia. }
    subst z; f_equal; apply IH; auto.
    intros y; split; intros Hy.
    + destruct (proj1 (Hin y) (or_intror Hy)) as [E | H]; [|exact H].
      subst y; specialize (F1 x Hy); lia.
    + destruct (proj2 (Hin y) (or_intror Hy)) as [E | H]; [|exact H].
      subst y; specialize (F2 x Hy); lia.
Qed.

(** C10: whatever the order and repetitions of [L], [by_indices inner L]
    is the decoder built from [Indices] on the strictly increasing list of
    the distinct elements of [L], so it yields the same records, for every
    upstream stream. *)
Theorem C10_by_indices_normalises : forall (inn : list (IoResult MkvRecord)) (L L' : list nat),
  StronglySorted lt L' -> (forall y, In y L <-> In y L') ->
  by_indices inn L = SubsampleDecoder_new inn (Indices L')
  /\ (forall p : Profile,
        subsample_all p (by_indices inn L) = subsample_all p (SubsampleDecoder_new inn (Indices L'))).
Proof.
  intros inn L L' Hs Hin.
  destruct (dedup_sort_spec L) as [H1 H2].
  assert (E : dedup (sort_unstable L) = L').
  { apply StronglySorted_lt_unique; auto. intros y; rewrite H2; apply Hin. }
  unfold by_indices; rewrite E; split; reflexivity.
Qed.

(** Witness for C10: [[5; 1; 3; 3]] against [[1; 3; 5]]. *)
Lemma C10_by_indices_normalises_witness :
  StronglySorted lt [1; 3; 5]%nat /\ (forall y, In y [5; 1; 3; 3]%nat <-> In y [1; 3; 5]%nat)
  /\ subsample_all Debug (by_indices five [5; 1; 3; 3]%nat)
     = subsample_all Debug (SubsampleDecoder_new five (Indices [1; 3; 5]%nat)).
Proof.
  assert (H1 : StronglySorted lt [1; 3; 5]%nat) by (repeat constructor; lia).
  assert (H2 : forall y, In y [5; 1; 3; 3]%nat <-> In y [1; 3; 5]%nat) by (intros y; simpl; tauto).
  exact (conj H1 (conj H2 (proj2 (C10_by_indices_normalises five _ _ H1 H2) Debug))).
Defined.

(** ** Run-length encoding of a canonical run list *)

Lemma rle_to_vec_cons : forall v l R,
  rle_to_vec ((v, l) :: R) = repeat v (Z.to_nat l) ++ rle_to_vec R.
Proof. reflexivity. Qed.

Lemma assign_to_rle_from_same : forall x k rest,
  k < 65535 -> assign_to_rle_from (x, k) (x :: rest) = assign_to_rle_from (x, k + 1) rest.
Proof.
  intros x k rest Hk; cbn [assign_to_rle_from fst snd].
  rewrite Z.eqb_refl; replace (k <? 2 ^ 16 - 1) with true by (symmetry; apply Z.ltb_lt; lia).
  reflexivity.
Qed.

Lemma assign_to_rle_from_repeat : forall x rest R,
  (forall k, 1 <= k <= 65535 -> assign_to_rle_from (x, k) rest = (x, k) :: R) ->
  forall m k, 1 <= k -> k + Z.of_nat m <= 65535 ->
  assign_to_rle_from (x, k) (repeat x m ++ rest) = (x, k + Z.of_nat m) :: R.
Proof.
  intros x rest R H m; induction m as [|m IH]; intros k Hk Hm.
  - rewrite Z.add_0_r; apply H; lia.
  - cbn [repeat app]; rewrite assign_to_rle_from_same by lia.
    rewrite IH by lia; do 2 f_equal; lia.
Qed.

Lemma assign_to_rle_from_canonical : forall R x k,
  canonical_rle (Some x) R -> 1 <= k <= 65535 ->
  assign_to_rle_from (x, k) (rle_to_vec R) = (x, k) :: R.
Proof.
  induction R as [|[v l] R IH]; intros x k HR Hk; [reflexivity|].
  destruct HR as (Hl & Hne & HR).
  rewrite rle_to_vec_cons.
  replace (Z.to_nat l) with (S (Z.to_nat (l - 1))) by lia.
  cbn [repeat app assign_to_rle_from fst snd].
  replace (v =? x) with false by (symmetry; apply Z.eqb_neq; congruence).
  simpl andb; cbv iota.
  rewrite (assign_to_rle_from_repeat v (rle_to_vec R) R) by (auto; lia).
  do 3 f_equal; lia.
Qed.

(** [assign_to_rle] inverts [rle_to_vec] on canonical run lists. *)
Lemma assign_to_rle_rle_to_vec : forall R,
  canonical_rle None R -> assign_to_rle (rle_to_vec R) = R.
Proof.
  intros [|[v l] R] HR; [reflexivity|].
  destruct HR as (Hl & _ & HR).
  rewrite rle_to_vec_cons.
  replace (Z.to_nat l) with (S (Z.to_nat (l - 1))) by lia.
  cbn [repeat app assign_to_rle].
  rewrite (assign_to_rle_from_repeat v (rle_to_vec R) R) by
    (try (intros; apply assign_to_rle_from_canonical; auto); lia).
  do 2 f_equal; lia.
Qed.

(** ** The packed bit count of one sample is a [u32] *)

Lemma alt_runs_length : forall n x y, length (alt_runs n x y) = n.
Proof. induction n as [|n IH]; intros x y; simpl; [reflexivity | rewrite IH; reflexivity]. Qed.

Lemma alt_runs_bounds : forall n x y r,
  In r (alt_runs n x y) -> (fst r = x \/ fst r = y) /\ snd r = 1.
Proof.
  induction n as [|n IH]; intros x y r Hr; simpl in Hr; [contradiction|].
  destruct Hr as [<- | Hr]; [simpl; auto|].
  apply IH in Hr; tauto.
Qed.

Lemma alt_runs_canonical : forall n x y prev,
  x <> y -> prev <> Some x -> canonical_rle prev (alt_runs n x y).
Proof.
  induction n as [|n IH]; intros x y prev Hxy Hp; simpl; [exact I|].
  repeat split; [lia | lia | exact Hp |].
  apply IH; congruence.
Qed.

Lemma fold_max_id : forall (f : run -> Z) (l : list run) (m : Z),
  (forall r, In r l -> f r <= m) -> fold_left (fun m x => Z.max m (f x)) l m = m.
Proof.
  intros f l m; induction l as [|r l IH]; intros H; simpl; [reflexivity|].
  rewrite Z.max_l by (apply H; left; reflexivity).
  apply IH; intros r' Hr'; apply H; right; exact Hr'.
Qed.

(** With [2^27] runs at 16 + 16 bits the bit count [32 * 2^27 = 2^32]
    overflows the [u32]: a debug build panics, a release build declares a
    payload of 0 bytes. *)
Lemma big_runs_header : forall n, Z.of_nat n = 2 ^ 27 - 1 ->
  encode_ben_vec_from_rle Debug (big_runs n) = None
  /\ exists payload,
       encode_ben_vec_from_rle Release (big_runs n) = Some ([16; 16; 0; 0; 0; 0] ++ payload).
Proof.
  intros n Hn.
  assert (Hf : max_fst (big_runs n) = Some 65535).
  { unfold big_runs, max_fst; f_equal. change (fst (65535, 65535)) with 65535.
    apply fold_max_id; intros r Hr; apply alt_runs_bounds in Hr; lia. }
  assert (Hs : max_snd (big_runs n) = Some 65535).
  { unfold big_runs, max_snd; f_equal. change (snd (65535, 65535)) with 65535.
    apply fold_max_id; intros r Hr; apply alt_runs_bounds in Hr; lia. }
  assert (Hl : Z.of_nat (length (big_runs n)) mod 2 ^ 32 = 2 ^ 27).
  { unfold big_runs; cbn [length]; rewrite alt_runs_length, Nat2Z.inj_succ, Hn; reflexivity. }
  unfold encode_ben_vec_from_rle; rewrite Hf, Hs, Hl.
  split; [reflexivity|].
  cbv beta iota zeta.
  destruct (encode_runs _ _ _ _) as [payload st].
  exists (payload ++ final_byte st); reflexivity.
Qed.

Lemma extract_zero_length_line : forall (q : Profile) (P : list Z),
  extract_assignment_ben q (STANDARD_BANNER ++ [16; 16; 0; 0; 0; 0] ++ P) 1 = Some (inl []).
Proof. intros [] P; reflexivity. Qed.

Lemma big_runs_stream : forall n, Z.of_nat n = 2 ^ 27 - 1 ->
  let v := rle_to_vec (big_runs n) in
  valid_assignment v /\ v <> []
  /\ encode_ben_stream Debug Standard [v] = None
  /\ exists s, encode_ben_stream Release Standard [v] = Some s
               /\ forall q : Profile, extract_assignment_ben q s 1 = Some (inl []).
Proof.
  intros n Hn v.
  assert (Hc : canonical_rle None (big_runs n)).
  { unfold big_runs; simpl canonical_rle.
    repeat split; try lia; try discriminate.
    apply alt_runs_canonical; congruence. }
  assert (Hr : assign_to_rle v = big_runs n) by (apply assign_to_rle_rle_to_vec, Hc).
  assert (Hval : valid_assignment v).
  { unfold valid_assignment, v, rle_to_vec; apply Forall_forall; intros x Hx.
    apply in_flat_map in Hx as [r [Hr' Hx]]; apply repeat_spec in Hx; subst x.
    unfold big_runs in Hr'; destruct Hr' as [<- | Hr'].
    - unfold valid_value; simpl; lia.
    - apply alt_runs_bounds in Hr'; unfold valid_value; lia. }
  assert (Hne : v <> []).
  { unfold v, big_runs; rewrite rle_to_vec_cons.
    replace (Z.to_nat 65535) with (S (Z.to_nat 65534)) by lia.
    cbn [repeat app]; discriminate. }
  clearbody v.
  destruct (big_runs_header n Hn) as [Hd [payload Hrel]].
  split; [exact Hval | split; [exact Hne | split]].
  - unfold encode_ben_stream; cbn [write_all]; unfold write_assignment; rewrite Hr.
    unfold write_rle; cbn [enc_variant BenEncoder_new]; rewrite Hd; reflexivity.
  - exists (STANDARD_BANNER ++ [16; 16; 0; 0; 0; 0] ++ payload); split.
    + unfold encode_ben_stream; cbn [write_all]; unfold write_assignment; rewrite Hr.
      unfold write_rle; cbn [enc_variant BenEncoder_new]; rewrite Hrel; reflexivity.
    + intros q; apply extract_zero_length_line.
Qed.

(** ** C2: random access *)

(** C2 (code bug): a valid sample of [2^16 - 1 + 2^27 - 1] values whose
    run list has [2^27] runs needing 16 value bits and 16 length bits.
    Encoding it as a Standard stream panics in a debug build; in a release
    build the bit count [32 * 2^27] wraps to 0, the header declares an empty
    payload, and [extract_assignment_ben(stream, 1)] returns the empty
    vector instead of the sample. *)
Theorem C2_extract_bit_count_overflow :
  let v := rle_to_vec (big_runs (Z.to_nat (2 ^ 27 - 1))) in
  valid_assignment v /\ v <> []
  /\ encode_ben_stream Debug Standard [v] = None
  /\ exists s, encode_ben_stream Release Standard [v] = Some s
               /\ forall q : Profile, extract_assignment_ben q s 1 = Some (inl []).
Proof.
  apply big_runs_stream.
  rewrite Z2Nat.id; [reflexivity | lia].
Qed.

(** ** C1: round trip *)

(** C1 (code bug): the round trip fails on inputs the claim covers.  The
    list holding one empty vector cannot be encoded at all (the encoder
    panics, in both variants and both builds), and 65,536 identical samples
    written as a MkvChain stream either panic (debug build) or produce a
    stream that decodes to no sample at all (release build). *)
Theorem C1_roundtrip_failures :
  (forall (p : Profile) (variant : BenVariant), encode_ben_stream p variant [[]] = None)
  /\ encode_ben_stream Debug MkvChain (repeat [1] 65536) = None
  /\ (exists s, encode_ben_stream Release MkvChain (repeat [1] 65536) = Some s
               /\ forall q : Profile, ben_decode_stream q s = inl ([], Finished)).
Proof.
  destruct write_all_65536 as [Hd Hr].
  split; [intros p []; reflexivity | split; [exact Hd |]].
  exists MKVCHAIN_BANNER; split; [exact Hr | intros []; reflexivity].
Qed.

(** ** Bounded round trip: packing, unpacking and the two stream variants *)

Lemma length_bits_of : forall w x, length (bits_of w x) = w.
Proof. induction w; intros; simpl; auto. Qed.

Lemma val_of_acc : forall l acc,
  fold_left (fun acc b => 2 * acc + Z.b2z b) l acc = acc * 2 ^ Z.of_nat (length l) + val_of l.
Proof.
  induction l as [|b l IH]; intros acc; [unfold val_of; simpl; lia|].
  unfold val_of; cbn [fold_left length].
  rewrite IH, (IH (2 * 0 + Z.b2z b)).
  rewrite Nat2Z.inj_succ, Z.pow_succ_r by lia. lia.
Qed.

Lemma val_of_cons : forall b l,
  val_of (b :: l) = Z.b2z b * 2 ^ Z.of_nat (length l) + val_of l.
Proof. intros; unfold val_of at 1; simpl; rewrite val_of_acc; lia. Qed.

Lemma val_of_app : forall l1 l2,
  val_of (l1 ++ l2) = val_of l1 * 2 ^ Z.of_nat (length l2) + val_of l2.
Proof.
  intros l1 l2; unfold val_of at 1; rewrite fold_left_app.
  fold (val_of l1); rewrite val_of_acc; reflexivity.
Qed.

Lemma val_of_bound : forall l, 0 <= val_of l < 2 ^ Z.of_nat (length l).
Proof.
  induction l as [|b l IH]; [simpl; unfold val_of; simpl; lia|].
  rewrite val_of_cons; cbn [length]; rewrite Nat2Z.inj_succ, Z.pow_succ_r by lia.
  destruct b; cbn [Z.b2z]; lia.
Qed.

Lemma bits_of_ext : forall w x y,
  (forall i, 0 <= i < Z.of_nat w -> Z.testbit x i = Z.testbit y i) -> bits_of w x = bits_of w y.
Proof.
  induction w as [|w IH]; intros x y H; simpl; [reflexivity|].
  f_equal; [apply H; lia | apply IH; intros i Hi; apply H; lia].
Qed.

Lemma bits_of_mod : forall w x, bits_of w (x mod 2 ^ Z.of_nat w) = bits_of w x.
Proof.
  intros w x; apply bits_of_ext; intros i Hi; apply Z.mod_pow2_bits_low; lia.
Qed.

Lemma bits_of_val_of : forall l, bits_of (length l) (val_of l) = l.
Proof.
  induction l as [|b l IH]; [reflexivity|].
  rewrite val_of_cons; cbn [length bits_of].
  pose proof (val_of_bound l) as Hb.
  set (k := Z.of_nat (length l)) in *.
  f_equal.
  - replace (Z.testbit (Z.b2z b * 2 ^ k + val_of l) k)
      with (Z.testbit ((Z.b2z b * 2 ^ k + val_of l) / 2 ^ k) 0)
      by (rewrite Z.div_pow2_bits by lia; f_equal; lia).
    rewrite Z.div_add_l by lia. rewrite Z.div_small by lia. rewrite Z.add_0_r.
    destruct b; reflexivity.
  - rewrite <- bits_of_mod. fold k.
    replace ((Z.b2z b * 2 ^ k + val_of l) mod 2 ^ k) with (val_of l).
    + exact IH.
    + rewrite Z.add_comm, Z.mod_add, Z.mod_small; lia.
Qed.

Lemma val_of_bits_of : forall w x, val_of (bits_of w x) = x mod 2 ^ Z.of_nat w.
Proof.
  intros w x.
  rewrite <- (bits_of_mod w x).
  pose proof (Z.mod_pos_bound x (2 ^ Z.of_nat w) ltac:(lia)) as Hb.
  set (y := x mod 2 ^ Z.of_nat w) in *.
  (* y is the value of some list of length w *)
  assert (Hex : forall w y, 0 <= y < 2 ^ Z.of_nat w -> val_of (bits_of w y) = y).
  { clear. induction w as [|w IH]; intros y Hy; [simpl in *; unfold val_of; simpl; lia|].
    cbn [bits_of]; rewrite val_of_cons, length_bits_of.
    rewrite Nat2Z.inj_succ, Z.pow_succ_r in Hy by lia.
    rewrite <- (bits_of_mod w y), IH by (apply Z.mod_pos_bound; lia).
    pose proof (Z.div_mod y (2 ^ Z.of_nat w) ltac:(lia)) as Hd.
    assert (Hq : 0 <= y / 2 ^ Z.of_nat w < 2).
    { split; [apply Z.div_pos; lia | apply Z.div_lt_upper_bound; lia]. }
    assert (Ht : Z.testbit y (Z.of_nat w) = Z.testbit (y / 2 ^ Z.of_nat w) 0)
      by (rewrite Z.div_pow2_bits by lia; f_equal; lia).
    rewrite Ht.
    destruct (Z.eq_dec (y / 2 ^ Z.of_nat w) 0) as [E | E].
    - rewrite E in Hd |- *; cbn [Z.testbit Z.b2z Z.odd]; lia.
    - assert (E1 : y / 2 ^ Z.of_nat w = 1) by lia.
      rewrite E1 in Hd |- *; cbn [Z.testbit Z.b2z Z.odd]; lia. }
  apply Hex; lia.
Qed.

(** The [w]-bit list is determined by its value. *)
Lemma bits_of_eq : forall w x l,
  length l = w -> val_of l = x mod 2 ^ Z.of_nat w -> bits_of w x = l.
Proof.
  intros w x l Hl Hv; rewrite <- bits_of_mod, <- Hv, <- Hl; apply bits_of_val_of.
Qed.

Lemma bits_of_concat : forall a b x y,
  0 <= y < 2 ^ Z.of_nat b ->
  bits_of (a + b) (x * 2 ^ Z.of_nat b + y) = bits_of a x ++ bits_of b y.
Proof.
  intros a b x y Hy; apply bits_of_eq.
  - rewrite length_app, !length_bits_of; reflexivity.
  - rewrite val_of_app, !val_of_bits_of, length_bits_of, Nat2Z.inj_add, Z.pow_add_r by lia.
    rewrite (Z.mod_small y) by lia.
    rewrite (Z.mul_comm (2 ^ Z.of_nat a)), Z.rem_mul_r by lia.
    rewrite (Z.add_comm (x * 2 ^ Z.of_nat b) y), Z.mod_add, Z.div_add by lia.
    rewrite (Z.mod_small y), (Z.div_small y) by lia. rewrite Z.add_0_l; ring.
Qed.

Lemma bits_of_concatZ : forall a b x y,
  0 <= a -> 0 <= b -> 0 <= y < 2 ^ b ->
  bits_of (Z.to_nat (a + b)) (x * 2 ^ b + y) = bits_of (Z.to_nat a) x ++ bits_of (Z.to_nat b) y.
Proof.
  intros a b x y Ha Hb Hy.
  rewrite Z2Nat.inj_add by lia.
  pose proof (bits_of_concat (Z.to_nat a) (Z.to_nat b) x y) as H.
  rewrite Z2Nat.id in H by lia. apply H; exact Hy.
Qed.

Lemma lor_disjoint : forall x y k,
  0 <= k -> 0 <= y < 2 ^ k -> Z.lor (x * 2 ^ k) y = x * 2 ^ k + y.
Proof.
  intros x y k Hk Hy.
  assert (Hl : Z.land (x * 2 ^ k) y = 0).
  { apply Z.bits_inj'; intros i Hi; rewrite Z.land_spec, Z.bits_0.
    destruct (Z.lt_ge_cases i k).
    - rewrite Z.mul_pow2_bits_low by lia; reflexivity.
    - rewrite <- (Z.mod_small y (2 ^ k)) by lia.
      rewrite Z.mod_pow2_bits_high by lia; apply andb_false_r. }
  rewrite <- Z.lxor_lor, <- Z.add_nocarry_lxor by exact Hl; reflexivity.
Qed.

(** [!(0xFFFFFFFF << k)] on [u32] is the mask of the [k] low bits. *)
Lemma u32_mask : forall k, 0 <= k <= 32 ->
  u32_not (wrap32 (Z.shiftl 4294967295 k)) = Z.ones k.
Proof.
  intros k Hk.
  rewrite <- (Z2Nat.id k) by lia.
  assert (Hm : (Z.to_nat k <= 32)%nat) by lia.
  revert Hm; generalize (Z.to_nat k); clear k Hk; intros m Hm.
  do 33 (destruct m as [|m]; [vm_compute; reflexivity|]). lia.
Qed.

Lemma bytes_bits_cons : forall b l, bytes_bits (b :: l) = bits_of 8 b ++ bytes_bits l.
Proof. reflexivity. Qed.

Lemma bytes_bits_app : forall l1 l2, bytes_bits (l1 ++ l2) = bytes_bits l1 ++ bytes_bits l2.
Proof. intros; unfold bytes_bits; apply flat_map_app. Qed.

Lemma pow2_pos : forall a, 0 <= a -> 0 < 2 ^ a.
Proof. intros; apply Z.pow_pos_nonneg; lia. Qed.

Lemma drain_bytes_spec : forall fuel n x,
  0 <= n <= 32 -> 0 <= x < 2 ^ n -> (Z.to_nat n < 8 * fuel)%nat ->
  let '(out, (n', x')) := drain_bytes fuel n x in
  bytes_bits out ++ bits_of (Z.to_nat n') x' = bits_of (Z.to_nat n) x
  /\ 0 <= n' < 8 /\ 0 <= x' < 2 ^ n' /\ Forall is_byte out
  /\ 8 * Z.of_nat (length out) + n' = n.
Proof.
  induction fuel as [|fuel IH]; intros n x Hn Hx Hf; [lia|].
  cbn [drain_bytes].
  destruct (8 <=? n) eqn:E; [apply Z.leb_le in E | apply Z.leb_gt in E].
  - set (n0 := n - 8).
    rewrite u32_mask by lia. rewrite Z.land_ones by lia.
    rewrite Z.shiftr_div_pow2 by lia.
    assert (Hp : 2 ^ n = 2 ^ 8 * 2 ^ n0) by (rewrite <- Z.pow_add_r by lia; f_equal; lia).
    assert (Hq : 0 <= x / 2 ^ n0 < 256).
    { split; [apply Z.div_pos; [lia | apply pow2_pos; lia]|].
      apply Z.div_lt_upper_bound; [apply pow2_pos; lia | lia]. }
    rewrite (Z.mod_small (x / 2 ^ n0)) by lia.
    pose proof (Z.mod_pos_bound x (2 ^ n0) (pow2_pos n0 ltac:(lia))) as Hr.
    specialize (IH n0 (x mod 2 ^ n0) ltac:(lia) Hr ltac:(lia)).
    destruct (drain_bytes fuel n0 (x mod 2 ^ n0)) as [out [n' x']].
    destruct IH as (Hb & Hn' & Hx' & Hby & Hlen).
    repeat split; try lia.
    + rewrite bytes_bits_cons, <- app_assoc, Hb.
      pose proof (bits_of_concatZ 8 n0 (x / 2 ^ n0) (x mod 2 ^ n0) ltac:(lia) ltac:(lia) Hr) as Hc.
      replace (8 + n0) with n in Hc by lia.
      rewrite (Z.mul_comm (x / 2 ^ n0)), <- Z.div_mod in Hc by (pose proof (pow2_pos n0); lia).
      rewrite Hc; reflexivity.
    + constructor; [unfold is_byte; lia | exact Hby].
    + cbn [length]; lia.
  - repeat split; try lia. constructor.
Qed.

Lemma shift_in : forall rem rb k v,
  0 <= rb -> 0 <= k -> rb + k <= 32 -> 0 <= rem < 2 ^ rb -> 0 <= v < 2 ^ k ->
  Z.lor (wrap32 (Z.shiftl rem k)) v = rem * 2 ^ k + v
  /\ 0 <= rem * 2 ^ k + v < 2 ^ (rb + k).
Proof.
  intros rem rb k v Hrb Hk Hs Hrem Hv.
  assert (Hp : 2 ^ (rb + k) = 2 ^ rb * 2 ^ k) by (apply Z.pow_add_r; lia).
  assert (H32 : 2 ^ (rb + k) <= 2 ^ 32) by (apply Z.pow_le_mono_r; lia).
  pose proof (pow2_pos k Hk).
  assert (Hb : 0 <= rem * 2 ^ k + v < 2 ^ (rb + k)) by nia.
  split; [|exact Hb].
  unfold wrap32. rewrite Z.shiftl_mul_pow2 by lia.
  rewrite Z.mod_small by nia. apply lor_disjoint; lia.
Qed.

Lemma encode_run_spec : forall vb lb rem rb r,
  1 <= vb <= 16 -> 0 <= lb <= 16 -> 0 <= rb < 8 -> 0 <= rem < 2 ^ rb ->
  0 <= fst r < 2 ^ vb -> 0 <= snd r < 2 ^ lb ->
  let '(out, (rem', rb')) := encode_run vb lb (rem, rb) r in
  bytes_bits out ++ bits_of (Z.to_nat rb') rem'
    = bits_of (Z.to_nat rb) rem ++ run_bits (Z.to_nat vb) (Z.to_nat lb) r
  /\ 0 <= rb' < 8 /\ 0 <= rem' < 2 ^ rb' /\ Forall is_byte out
  /\ 8 * Z.of_nat (length out) + rb' = rb + vb + lb.
Proof.
  intros vb lb rem rb [v l] Hvb Hlb Hrb Hrem Hv Hl. cbn [fst snd] in *.
  unfold encode_run.
  destruct (shift_in rem rb vb v ltac:(lia) ltac:(lia) ltac:(lia) Hrem Hv) as [E1 B1].
  rewrite E1.
  pose proof (drain_bytes_spec 32 (rb + vb) (rem * 2 ^ vb + v) ltac:(lia) B1 ltac:(lia)) as D1.
  destruct (drain_bytes 32 (rb + vb) (rem * 2 ^ vb + v)) as [out1 [n1 x1]].
  destruct D1 as (Hb1 & Hn1 & Hx1 & Hby1 & Hlen1).
  destruct (shift_in x1 n1 lb l ltac:(lia) ltac:(lia) ltac:(lia) Hx1 Hl) as [E2 B2].
  rewrite E2.
  pose proof (drain_bytes_spec 32 (n1 + lb) (x1 * 2 ^ lb + l) ltac:(lia) B2 ltac:(lia)) as D2.
  destruct (drain_bytes 32 (n1 + lb) (x1 * 2 ^ lb + l)) as [out2 [n2 x2]].
  destruct D2 as (Hb2 & Hn2 & Hx2 & Hby2 & Hlen2).
  repeat split; try lia.
  - rewrite bytes_bits_app, <- app_assoc, Hb2.
    rewrite bits_of_concatZ by lia. rewrite app_assoc, Hb1.
    rewrite bits_of_concatZ by lia. unfold run_bits; cbn [fst snd].
    rewrite app_assoc; reflexivity.
  - apply Forall_app; split; assumption.
  - rewrite length_app; lia.
Qed.

Lemma encode_runs_spec : forall vb lb rle rem rb,
  1 <= vb <= 16 -> 0 <= lb <= 16 -> 0 <= rb < 8 -> 0 <= rem < 2 ^ rb ->
  runs_fit vb lb rle ->
  let '(out, (rem', rb')) := encode_runs vb lb (rem, rb) rle in
  bytes_bits out ++ bits_of (Z.to_nat rb') rem'
    = bits_of (Z.to_nat rb) rem ++ concat (map (run_bits (Z.to_nat vb) (Z.to_nat lb)) rle)
  /\ 0 <= rb' < 8 /\ 0 <= rem' < 2 ^ rb' /\ Forall is_byte out
  /\ 8 * Z.of_nat (length out) + rb' = rb + Z.of_nat (length rle) * (vb + lb).
Proof.
  intros vb lb rle; induction rle as [|r rle IH]; intros rem rb Hvb Hlb Hrb Hrem Hfit.
  - cbn. rewrite app_nil_r. repeat split; try lia. constructor.
  - inversion Hfit as [|? ? [Hv Hl] Hfit']; subst.
    cbn [encode_runs].
    pose proof (encode_run_spec vb lb rem rb r Hvb Hlb Hrb Hrem Hv Hl) as R.
    destruct (encode_run vb lb (rem, rb) r) as [out1 [rem1 rb1]].
    destruct R as (Hb1 & Hrb1 & Hrem1 & Hby1 & Hlen1).
    specialize (IH rem1 rb1 Hvb Hlb Hrb1 Hrem1 Hfit').
    destruct (encode_runs vb lb (rem1, rb1) rle) as [out2 [rem2 rb2]].
    destruct IH as (Hb2 & Hrb2 & Hrem2 & Hby2 & Hlen2).
    repeat split; try lia.
    + rewrite bytes_bits_app, <- app_assoc, Hb2, app_assoc, Hb1.
      cbn [map concat]. rewrite app_assoc; reflexivity.
    + apply Forall_app; split; assumption.
    + rewrite length_app. cbn [length]. lia.
Qed.

Lemma bits_of_zero : forall w, bits_of w 0 = repeat false w.
Proof. induction w; cbn [bits_of repeat]; [reflexivity|]. rewrite Z.testbit_0_l, IHw; reflexivity. Qed.

Lemma final_byte_spec : forall rem rb,
  0 <= rb < 8 -> 0 <= rem < 2 ^ rb ->
  bytes_bits (final_byte (rem, rb))
    = bits_of (Z.to_nat rb) rem ++ repeat false (if 0 <? rb then Z.to_nat (8 - rb) else 0)
  /\ Forall is_byte (final_byte (rem, rb))
  /\ length (final_byte (rem, rb)) = (if 0 <? rb then 1%nat else 0%nat).
Proof.
  intros rem rb Hrb Hrem. unfold final_byte.
  destruct (0 <? rb) eqn:E; [apply Z.ltb_lt in E | apply Z.ltb_ge in E].
  - rewrite Z.shiftl_mul_pow2 by lia.
    assert (Hp : 2 ^ 8 = 2 ^ rb * 2 ^ (8 - rb)) by (rewrite <- Z.pow_add_r by lia; f_equal; lia).
    pose proof (pow2_pos (8 - rb) ltac:(lia)).
    rewrite Z.mod_small by nia.
    pose proof (bits_of_concatZ rb (8 - rb) rem 0 ltac:(lia) ltac:(lia) ltac:(lia)) as Hc.
    replace (rb + (8 - rb)) with 8 in Hc by lia. rewrite Z.add_0_r in Hc.
    change (Z.to_nat 8) with 8%nat in Hc.
    repeat split.
    + unfold bytes_bits; cbn [flat_map]; rewrite app_nil_r, Hc, bits_of_zero; reflexivity.
    + constructor; [unfold is_byte; nia | constructor].
  - replace rb with 0 by lia. cbn. repeat split; constructor.
Qed.

Lemma take_bits : forall q k,
  1 <= k <= 16 -> k <= Z.of_nat (length q) <= 32 ->
  Z.shiftr (val_of q * 2 ^ (32 - Z.of_nat (length q))) (32 - k) mod 2 ^ 16
    = val_of (firstn (Z.to_nat k) q)
  /\ wrap32 (Z.shiftl (val_of q * 2 ^ (32 - Z.of_nat (length q))) k)
    = val_of (skipn (Z.to_nat k) q) * 2 ^ (32 - Z.of_nat (length (skipn (Z.to_nat k) q))).
Proof.
  intros q k Hk Hq.
  set (q1 := firstn (Z.to_nat k) q). set (q2 := skipn (Z.to_nat k) q).
  assert (Eq : q = q1 ++ q2) by (symmetry; apply firstn_skipn).
  assert (L1 : Z.of_nat (length q1) = k) by (unfold q1; rewrite firstn_length_le; lia).
  assert (L : Z.of_nat (length q) = k + Z.of_nat (length q2))
    by (rewrite Eq, length_app; lia).
  rewrite L. rewrite Eq. rewrite val_of_app.
  pose proof (val_of_bound q1) as B1. pose proof (val_of_bound q2) as B2.
  rewrite L1 in B1.
  set (m := Z.of_nat (length q2)) in *.
  set (a := val_of q1) in *. set (b := val_of q2) in *.
  assert (Hm : 0 <= m) by lia.
  pose proof (pow2_pos (32 - k - m) ltac:(lia)) as P1.
  pose proof (pow2_pos m Hm) as P2. pose proof (pow2_pos k ltac:(lia)) as P3.
  assert (E1 : 2 ^ (32 - (k + m)) = 2 ^ (32 - k - m)) by (f_equal; lia).
  assert (E2 : 2 ^ (32 - k) = 2 ^ m * 2 ^ (32 - k - m))
    by (rewrite <- Z.pow_add_r by lia; f_equal; lia).
  assert (E3 : 2 ^ 32 = 2 ^ k * 2 ^ (32 - k)) by (rewrite <- Z.pow_add_r by lia; f_equal; lia).
  assert (E4 : 2 ^ (32 - m) = 2 ^ k * 2 ^ (32 - k - m))
    by (rewrite <- Z.pow_add_r by lia; f_equal; lia).
  assert (H16 : 2 ^ k <= 2 ^ 16) by (apply Z.pow_le_mono_r; lia).
  rewrite E1.
  assert (Hbuf : (a * 2 ^ m + b) * 2 ^ (32 - k - m) = a * 2 ^ (32 - k) + b * 2 ^ (32 - k - m))
    by (rewrite E2; ring).
  rewrite Hbuf. split.
  - rewrite Z.shiftr_div_pow2 by lia.
    rewrite Z.div_add_l by lia.
    rewrite (Z.div_small (b * 2 ^ (32 - k - m))) by nia.
    rewrite Z.add_0_r, Z.mod_small by lia. reflexivity.
  - unfold wrap32. rewrite Z.shiftl_mul_pow2 by lia.
    replace ((a * 2 ^ (32 - k) + b * 2 ^ (32 - k - m)) * 2 ^ k)
      with (b * 2 ^ (32 - m) + a * 2 ^ 32) by (rewrite E3, E4; ring).
    rewrite Z.mod_add by lia. apply Z.mod_small. rewrite E4. nia.
Qed.

Lemma add_byte : forall q b,
  0 <= b < 256 -> Z.of_nat (length q) <= 24 ->
  Z.lor (val_of q * 2 ^ (32 - Z.of_nat (length q))) (Z.shiftr (b * 2 ^ 24) (Z.of_nat (length q)))
    = val_of (q ++ bits_of 8 b) * 2 ^ (32 - Z.of_nat (length (q ++ bits_of 8 b))).
Proof.
  intros q b Hb Hq.
  set (n := Z.of_nat (length q)) in *.
  rewrite length_app, length_bits_of, val_of_app, val_of_bits_of, length_bits_of.
  cbn [Z.of_nat Pos.of_succ_nat Pos.succ].
  rewrite (Z.mod_small b) by lia.
  rewrite Nat2Z.inj_add. fold n. cbn [Z.of_nat Pos.of_succ_nat Pos.succ].
  assert (E1 : 2 ^ 24 = 2 ^ (24 - n) * 2 ^ n) by (rewrite <- Z.pow_add_r by lia; f_equal; lia).
  assert (E2 : 2 ^ (32 - n) = 2 ^ 8 * 2 ^ (24 - n)) by (rewrite <- Z.pow_add_r by lia; f_equal; lia).
  assert (E3 : 2 ^ (32 - (n + 8)) = 2 ^ (24 - n)) by (f_equal; lia).
  pose proof (pow2_pos n ltac:(lia)). pose proof (pow2_pos (24 - n) ltac:(lia)).
  rewrite Z.shiftr_div_pow2 by lia.
  rewrite E1, Z.mul_assoc, Z.div_mul by lia.
  rewrite lor_disjoint by (try lia; rewrite E2; nia).
  rewrite E3, E2. ring.
Qed.

Lemma bits_of_firstn : forall k q, (k <= length q)%nat ->
  bits_of k (val_of (firstn k q)) = firstn k q.
Proof.
  intros k q Hk. rewrite <- (firstn_length_le q Hk) at 1. apply bits_of_val_of.
Qed.

Lemma take_val_repr : forall vb lb C s,
  1 <= vb <= 16 -> dec_repr vb lb C s -> val_set s = false -> vb <= n_bits_in_buff s ->
  dec_repr vb lb C (pure_take_val vb s) /\ val_set (pure_take_val vb s) = true
  /\ n_bits_in_buff (pure_take_val vb s) = n_bits_in_buff s - vb.
Proof.
  intros vb lb C s Hvb (done & q & Hls & Hn & Hq & Hbuf & Hout & Hfit & Hval & HC) Hvs Hle.
  unfold pure_take_val. rewrite Hvs.
  replace (vb <=? n_bits_in_buff s) with true by (symmetry; apply Z.leb_le; lia).
  cbn [andb negb buffer n_bits_in_buff val val_set len len_set output_rle].
  destruct (take_bits q vb Hvb ltac:(lia)) as [Tv Tb].
  rewrite Hbuf, Hn.
  split; [|split; reflexivity].
  exists done, (skipn (Z.to_nat vb) q).
  cbn [buffer n_bits_in_buff val val_set len len_set output_rle].
  rewrite length_skipn.
  repeat split; try assumption; try lia.
  - rewrite Tb, length_skipn; reflexivity.
  - rewrite Tv. pose proof (val_of_bound (firstn (Z.to_nat vb) q)) as B.
    rewrite firstn_length_le in B by lia. rewrite Z2Nat.id in B by lia. lia.
  - rewrite Tv. pose proof (val_of_bound (firstn (Z.to_nat vb) q)) as B.
    rewrite firstn_length_le in B by lia. rewrite Z2Nat.id in B by lia. lia.
  - rewrite HC. unfold pend; rewrite Hvs; cbn [val_set val].
    rewrite Tv, bits_of_firstn by lia. rewrite app_nil_l, firstn_skipn. reflexivity.
Qed.

Lemma take_len_push_repr : forall vb lb C s,
  1 <= vb <= 16 -> 1 <= lb <= 16 ->
  dec_repr vb lb C s -> val_set s = true -> lb <= n_bits_in_buff s ->
  dec_repr vb lb C (push_pair (pure_take_len lb s))
  /\ val_set (push_pair (pure_take_len lb s)) = false
  /\ n_bits_in_buff (push_pair (pure_take_len lb s)) = n_bits_in_buff s - lb.
Proof.
  intros vb lb C s Hvb Hlb (done & q & Hls & Hn & Hq & Hbuf & Hout & Hfit & Hval & HC) Hvs Hle.
  specialize (Hval Hvs).
  unfold pure_take_len. rewrite Hvs, Hls.
  replace (lb <=? n_bits_in_buff s) with true by (symmetry; apply Z.leb_le; lia).
  cbn [andb negb]. unfold push_pair.
  cbn [buffer n_bits_in_buff val val_set len len_set output_rle andb].
  destruct (take_bits q lb Hlb ltac:(lia)) as [Tv Tb].
  rewrite Hbuf, Hn.
  split; [|split; reflexivity].
  set (l := val_of (firstn (Z.to_nat lb) q)) in *.
  pose proof (val_of_bound (firstn (Z.to_nat lb) q)) as B.
  rewrite firstn_length_le in B by lia. rewrite Z2Nat.id in B by lia. fold l in B.
  exists (done ++ [(val s, l)]), (skipn (Z.to_nat lb) q).
  cbn [buffer n_bits_in_buff val val_set len len_set output_rle].
  rewrite length_skipn.
  repeat split; try lia.
  - rewrite Tb, length_skipn; reflexivity.
  - rewrite Tv. fold l. rewrite filter_app, Hout. cbn [filter snd].
    destruct (0 <? l); rewrite ?app_nil_r; reflexivity.
  - unfold runs_fit; apply Forall_app; split; [exact Hfit|].
    constructor; [cbn [fst snd]; lia | constructor].
  - rewrite HC. unfold pend; rewrite Hvs; cbn [val_set].
    rewrite map_app, concat_app. cbn [map concat].
    change (run_bits (Z.to_nat vb) (Z.to_nat lb) (val s, l))
      with (bits_of (Z.to_nat vb) (val s) ++ bits_of (Z.to_nat lb) l).
    unfold l. rewrite bits_of_firstn by lia.
    rewrite !app_nil_r, app_nil_l, <- !app_assoc, firstn_skipn. reflexivity.
Qed.

Lemma take_val_noop : forall vb s,
  val_set s = true \/ n_bits_in_buff s < vb -> pure_take_val vb s = s.
Proof.
  intros vb s H; unfold pure_take_val.
  destruct H as [H|H]; [rewrite H; rewrite andb_false_r; reflexivity|].
  replace (vb <=? n_bits_in_buff s) with false by (symmetry; apply Z.leb_gt; lia).
  reflexivity.
Qed.

Lemma take_len_noop : forall lb s,
  val_set s = false \/ n_bits_in_buff s < lb -> pure_take_len lb s = s.
Proof.
  intros lb s H; unfold pure_take_len.
  destruct H as [H|H]; [rewrite H, andb_false_r; reflexivity|].
  replace (lb <=? n_bits_in_buff s) with false by (symmetry; apply Z.leb_gt; lia).
  reflexivity.
Qed.

Lemma push_pair_noop : forall s, len_set s = false -> push_pair s = s.
Proof. intros s H; unfold push_pair; rewrite H, andb_false_r; reflexivity. Qed.

Lemma dec_repr_len_set : forall vb lb C s, dec_repr vb lb C s -> len_set s = false.
Proof. intros vb lb C s (? & ? & H & _); exact H. Qed.

Lemma dec_repr_n : forall vb lb C s, dec_repr vb lb C s -> 0 <= n_bits_in_buff s <= 32.
Proof. intros vb lb C s (? & ? & _ & H & H' & _); lia. Qed.

Lemma take_val_len_set : forall vb s, len_set (pure_take_val vb s) = len_set s.
Proof. intros; unfold pure_take_val; destruct (_ && _); reflexivity. Qed.

Lemma extract_fields_spec : forall vb lb C s,
  1 <= vb <= 16 -> 1 <= lb <= 16 -> dec_repr vb lb C s ->
  let s' := pure_extract_fields vb lb s in
  dec_repr vb lb C s' /\
  (if val_set s then
     (if lb <=? n_bits_in_buff s
      then val_set s' = false /\ n_bits_in_buff s' = n_bits_in_buff s - lb
      else s' = s)
   else if n_bits_in_buff s <? vb then s' = s
   else if n_bits_in_buff s <? vb + lb
   then val_set s' = true /\ n_bits_in_buff s' = n_bits_in_buff s - vb
   else val_set s' = false /\ n_bits_in_buff s' = n_bits_in_buff s - vb - lb).
Proof.
  intros vb lb C s Hvb Hlb H. cbv zeta. unfold pure_extract_fields.
  pose proof (dec_repr_len_set _ _ _ _ H) as Hls.
  destruct (val_set s) eqn:Hvs.
  - rewrite (take_val_noop vb s) by auto.
    destruct (lb <=? n_bits_in_buff s) eqn:E; [apply Z.leb_le in E | apply Z.leb_gt in E].
    + apply take_len_push_repr; auto.
    + rewrite take_len_noop, push_pair_noop by auto. auto.
  - destruct (n_bits_in_buff s <? vb) eqn:E1; [apply Z.ltb_lt in E1 | apply Z.ltb_ge in E1].
    + rewrite take_val_noop, take_len_noop, push_pair_noop by auto. auto.
    + destruct (take_val_repr vb lb C s Hvb H Hvs E1) as (H1 & Hv1 & Hn1).
      destruct (n_bits_in_buff s <? vb + lb) eqn:E2; [apply Z.ltb_lt in E2 | apply Z.ltb_ge in E2].
      * rewrite take_len_noop by lia.
        rewrite push_pair_noop by (rewrite take_val_len_set; exact Hls). auto.
      * destruct (take_len_push_repr vb lb C (pure_take_val vb s) Hvb Hlb H1 Hv1 ltac:(lia))
          as (H2 & Hv2 & Hn2).
        repeat split; auto; lia.
Qed.

Lemma drain_pairs_spec : forall fuel vb lb C s,
  1 <= vb <= 16 -> 1 <= lb <= 16 -> dec_repr vb lb C s ->
  (val_set s = true -> n_bits_in_buff s < lb) ->
  (Z.to_nat (n_bits_in_buff s) < fuel)%nat ->
  let s' := pure_drain_pairs fuel vb lb s in
  dec_repr vb lb C s' /\ val_set s' = val_set s
  /\ n_bits_in_buff s' <= n_bits_in_buff s /\ n_bits_in_buff s' < vb + lb.
Proof.
  induction fuel as [|fuel IH]; intros vb lb C s Hvb Hlb H Hv Hf; [lia|].
  cbv zeta. cbn [pure_drain_pairs].
  pose proof (dec_repr_n _ _ _ _ H) as Hn.
  destruct (vb + lb <=? n_bits_in_buff s) eqn:E; [apply Z.leb_le in E | apply Z.leb_gt in E].
  - destruct (val_set s) eqn:Hvs; [specialize (Hv eq_refl); lia|].
    pose proof (extract_fields_spec vb lb C s Hvb Hlb H) as X. cbv zeta in X.
    rewrite Hvs in X.
    replace (n_bits_in_buff s <? vb) with false in X by (symmetry; apply Z.ltb_ge; lia).
    replace (n_bits_in_buff s <? vb + lb) with false in X by (symmetry; apply Z.ltb_ge; lia).
    destruct X as (H1 & Hv1 & Hn1).
    destruct (IH vb lb C (pure_extract_fields vb lb s) Hvb Hlb H1 ltac:(congruence) ltac:(lia))
      as (H2 & Hv2 & Hn2 & Hb2).
    repeat split; auto; try congruence; lia.
  - repeat split; auto; lia.
Qed.

Lemma add_byte_repr : forall vb lb C s b,
  dec_repr vb lb C s -> n_bits_in_buff s <= 24 -> is_byte b ->
  dec_repr vb lb (C ++ bits_of 8 b)
    {| buffer := Z.lor (buffer s) (Z.shiftr (b * 2 ^ 24) (n_bits_in_buff s));
       n_bits_in_buff := n_bits_in_buff s + 8;
       val := val s; val_set := val_set s; len := len s; len_set := len_set s;
       output_rle := output_rle s |}.
Proof.
  intros vb lb C s b (done & q & Hls & Hn & Hq & Hbuf & Hout & Hfit & Hval & HC) H24 Hb.
  exists done, (q ++ bits_of 8 b).
  cbn [buffer n_bits_in_buff val val_set len len_set output_rle].
  refine (conj Hls (conj _ (conj _ (conj _ (conj Hout (conj Hfit (conj Hval _))))))).
  - rewrite length_app, length_bits_of; lia.
  - rewrite length_app, length_bits_of; lia.
  - rewrite Hbuf, Hn. rewrite add_byte by (unfold is_byte in Hb; lia). reflexivity.
  - rewrite HC. unfold pend; cbn [val_set val]. rewrite <- !app_assoc; reflexivity.
Qed.

Lemma decode_byte_spec : forall vb lb C s b,
  1 <= vb <= 16 -> 1 <= lb <= 16 -> dec_repr vb lb C s -> dec_bound vb lb s -> is_byte b ->
  dec_repr vb lb (C ++ bits_of 8 b) (pure_decode_byte vb lb s b)
  /\ dec_bound vb lb (pure_decode_byte vb lb s b).
Proof.
  intros vb lb C s b Hvb Hlb H (K16 & Kv & Kn) Hb.
  pose proof (dec_repr_n _ _ _ _ H) as Hn.
  unfold pure_decode_byte.
  pose proof (add_byte_repr vb lb C s b H ltac:(lia) Hb) as H1.
  set (s1 := {| buffer := _ |}) in *.
  pose proof (extract_fields_spec vb lb _ s1 Hvb Hlb H1) as X. cbv zeta in X.
  destruct X as [H2 X].
  set (s2 := pure_extract_fields vb lb s1) in *.
  assert (Hs1v : val_set s1 = val_set s) by reflexivity.
  assert (Hs1n : n_bits_in_buff s1 = n_bits_in_buff s + 8) by reflexivity.
  rewrite Hs1v, Hs1n in X.
  pose proof (dec_repr_n _ _ _ _ H2) as Hn2.
  assert (K2 : val_set s2 = true -> n_bits_in_buff s2 < lb).
  { destruct (val_set s) eqn:Hvs.
    - destruct (lb <=? n_bits_in_buff s + 8) eqn:E.
      + destruct X as [X _]. congruence.
      + apply Z.leb_gt in E. rewrite X, Hs1n. lia.
    - destruct (n_bits_in_buff s + 8 <? vb) eqn:E1.
      + rewrite X, Hs1v. congruence.
      + destruct (n_bits_in_buff s + 8 <? vb + lb) eqn:E2.
        * apply Z.ltb_lt in E2. destruct X as [_ X]. lia.
        * destruct X as [X _]. congruence. }
  destruct (drain_pairs_spec (S (Z.to_nat (n_bits_in_buff s2))) vb lb _ s2 Hvb Hlb H2 K2
              ltac:(lia)) as (H3 & Hv3 & Hn3 & Hb3).
  split; [exact H3|].
  unfold dec_bound. rewrite Hv3.
  split; [| split; intros Hv; [specialize (K2 Hv); lia | lia]].
  destruct (val_set s) eqn:Hvs.
  - specialize (Kv eq_refl).
    destruct (lb <=? n_bits_in_buff s + 8) eqn:E; [apply Z.leb_le in E | apply Z.leb_gt in E].
    + destruct X as [_ X]. lia.
    + assert (N2 : n_bits_in_buff s2 = n_bits_in_buff s + 8) by (rewrite X; reflexivity). lia.
  - specialize (Kn eq_refl).
    destruct (n_bits_in_buff s + 8 <? vb) eqn:E1; [apply Z.ltb_lt in E1 | apply Z.ltb_ge in E1].
    + assert (N2 : n_bits_in_buff s2 = n_bits_in_buff s + 8) by (rewrite X; reflexivity). lia.
    + destruct (n_bits_in_buff s + 8 <? vb + lb) eqn:E2;
        [apply Z.ltb_lt in E2 | apply Z.ltb_ge in E2]; destruct X as [_ X]; lia.
Qed.

Lemma dec_init_repr : forall vb lb, 1 <= vb -> 1 <= lb ->
  dec_repr vb lb [] dec_init /\ dec_bound vb lb dec_init.
Proof.
  intros vb lb Hvb Hlb. split.
  - exists [], []. cbn. repeat split; try lia; try discriminate. constructor.
  - unfold dec_bound; cbn. repeat split; intros; try discriminate; lia.
Qed.

Lemma decode_fold_spec : forall vb lb bytes C s,
  1 <= vb <= 16 -> 1 <= lb <= 16 -> dec_repr vb lb C s -> dec_bound vb lb s ->
  Forall is_byte bytes ->
  dec_repr vb lb (C ++ bytes_bits bytes) (fold_left (pure_decode_byte vb lb) bytes s)
  /\ dec_bound vb lb (fold_left (pure_decode_byte vb lb) bytes s).
Proof.
  intros vb lb bytes; induction bytes as [|b bytes IH]; intros C s Hvb Hlb H K Hby.
  - cbn. rewrite app_nil_r. auto.
  - inversion Hby as [|? ? Hb Hby']; subst. cbn [fold_left].
    destruct (decode_byte_spec vb lb C s b Hvb Hlb H K Hb) as [H1 K1].
    rewrite bytes_bits_cons, app_assoc. apply IH; auto.
Qed.

Lemma decode_payload_spec : forall vb lb bytes,
  1 <= vb <= 16 -> 1 <= lb <= 16 -> Forall is_byte bytes ->
  exists done rest,
    bytes_bits bytes = concat (map (run_bits (Z.to_nat vb) (Z.to_nat lb)) done) ++ rest
    /\ Z.of_nat (length rest) < vb + lb /\ runs_fit vb lb done
    /\ pure_decode_payload vb lb bytes = filter (fun r => 0 <? snd r) done.
Proof.
  intros vb lb bytes Hvb Hlb Hby.
  destruct (dec_init_repr vb lb ltac:(lia) ltac:(lia)) as [H0 K0].
  destruct (decode_fold_spec vb lb bytes [] dec_init Hvb Hlb H0 K0 Hby) as [H K].
  set (s := fold_left (pure_decode_byte vb lb) bytes dec_init) in *.
  destruct H as (done & q & Hls & Hn & Hq & Hbuf & Hout & Hfit & Hval & HC).
  destruct K as (K16 & Kv & Kn).
  exists done, (pend vb s ++ q).
  refine (conj HC (conj _ (conj Hfit Hout))).
  rewrite length_app. unfold pend.
  destruct (val_set s).
  - rewrite length_bits_of. specialize (Kv eq_refl). lia.
  - cbn [length]. specialize (Kn eq_refl). lia.
Qed.

Lemma app_eq_len : forall {A} (a b c d : list A),
  length a = length c -> a ++ b = c ++ d -> a = c /\ b = d.
Proof.
  intros A a; induction a as [|x a IH]; intros b c d Hl He; destruct c as [|y c];
    cbn in *; try discriminate; auto.
  injection He as -> He. injection Hl as Hl. destruct (IH b c d Hl He) as [-> ->]; auto.
Qed.

Lemma length_run_bits : forall vb lb r, length (run_bits vb lb r) = (vb + lb)%nat.
Proof. intros; unfold run_bits; rewrite length_app, !length_bits_of; reflexivity. Qed.

Lemma bits_of_inj : forall w x y,
  0 <= x < 2 ^ Z.of_nat w -> 0 <= y < 2 ^ Z.of_nat w -> bits_of w x = bits_of w y -> x = y.
Proof.
  intros w x y Hx Hy E.
  rewrite <- (Z.mod_small x (2 ^ Z.of_nat w)), <- (Z.mod_small y (2 ^ Z.of_nat w)) by lia.
  rewrite <- !val_of_bits_of, E; reflexivity.
Qed.

Lemma all_false_repeat : forall l, (forall x, In x l -> x = false) -> l = repeat false (length l).
Proof.
  induction l as [|b l IH]; intros H; [reflexivity|].
  cbn. rewrite (H b (or_introl eq_refl)), <- IH; [reflexivity|].
  intros x Hx; apply H; right; exact Hx.
Qed.

Lemma zero_runs_dropped : forall vb lb done,
  0 <= lb -> runs_fit vb lb done ->
  (forall x, In x (concat (map (run_bits (Z.to_nat vb) (Z.to_nat lb)) done)) -> x = false) ->
  filter (fun r => 0 <? snd r) done = [].
Proof.
  intros vb lb done Hlb; induction done as [|[v l] done IH]; intros Hfit H; [reflexivity|].
  inversion Hfit as [|? ? [Hv Hl] Hfit']; subst. cbn [fst snd] in *.
  cbn [map concat] in H. unfold run_bits at 1 in H. cbn [fst snd] in H.
  assert (Z0 : bits_of (Z.to_nat lb) l = bits_of (Z.to_nat lb) 0).
  { rewrite bits_of_zero, (all_false_repeat (bits_of (Z.to_nat lb) l)), length_bits_of;
      [reflexivity|].
    intros x Hx; apply H; apply in_or_app; left; apply in_or_app; right; exact Hx. }
  apply bits_of_inj in Z0; [| rewrite Z2Nat.id; lia | rewrite Z2Nat.id by lia; split; [lia | apply pow2_pos; lia]].
  subst l. cbn [filter snd Z.ltb Z.compare]. apply IH; [exact Hfit'|].
  intros x Hx; apply H; apply in_or_app; right; exact Hx.
Qed.

Lemma runs_bits_unique : forall vb lb rle done rest p,
  1 <= vb -> 0 <= lb -> runs_fit vb lb rle -> runs_fit vb lb done ->
  Forall (fun r => 0 < snd r) rle ->
  concat (map (run_bits (Z.to_nat vb) (Z.to_nat lb)) rle) ++ repeat false p
    = concat (map (run_bits (Z.to_nat vb) (Z.to_nat lb)) done) ++ rest ->
  Z.of_nat (length rest) < vb + lb ->
  filter (fun r => 0 <? snd r) done = rle.
Proof.
  intros vb lb rle; induction rle as [|r rle IH]; intros done rest p Hvb Hlb Fr Fd Pos E Hr.
  - cbn [map concat app] in E. apply zero_runs_dropped with (vb := vb) (lb := lb); auto.
    intros x Hx. assert (Hx' : In x (repeat false p)) by (rewrite E; apply in_or_app; left; exact Hx).
    apply repeat_spec in Hx'; exact Hx'.
  - inversion Fr as [|? ? [Hv Hl] Fr']; subst. inversion Pos as [|? ? Hp Pos']; subst.
    destruct done as [|d done].
    + exfalso. apply (f_equal (@length bool)) in E.
      cbn [map concat] in E. rewrite <- app_assoc, !length_app, length_run_bits in E. cbn [length] in E. lia.
    + inversion Fd as [|? ? [Hdv Hdl] Fd']; subst.
      cbn [map concat] in E. rewrite <- !app_assoc in E.
      apply app_eq_len in E; [| rewrite !length_run_bits; reflexivity].
      destruct E as [Ed E].
      destruct r as [v l], d as [v' l']. unfold run_bits in Ed. cbn [fst snd] in *.
      apply app_eq_len in Ed; [| rewrite !length_bits_of; reflexivity].
      destruct Ed as [Ev El].
      apply bits_of_inj in Ev; [| rewrite Z2Nat.id; lia..].
      apply bits_of_inj in El; [| rewrite Z2Nat.id; lia..].
      subst v' l'. cbn [filter snd].
      replace (0 <? l) with true by (symmetry; apply Z.ltb_lt; exact Hp).
      f_equal. apply (IH done rest p); auto.
Qed.

Lemma fold_max_spec : forall (f : run -> Z) l m,
  m <= fold_left (fun m x => Z.max m (f x)) l m
  /\ (forall r, In r l -> f r <= fold_left (fun m x => Z.max m (f x)) l m)
  /\ (forall B, m <= B -> (forall r, In r l -> f r <= B) ->
        fold_left (fun m x => Z.max m (f x)) l m <= B).
Proof.
  intros f l; induction l as [|x l IH]; intros m; cbn [fold_left].
  - repeat split; intros; try contradiction; lia.
  - destruct (IH (Z.max m (f x))) as (H1 & H2 & H3).
    repeat split.
    + lia.
    + intros r [<- | Hr]; [lia | auto].
    + intros B HB Hl. apply H3; [| intros; apply Hl; right; auto].
      specialize (Hl x (or_introl eq_refl)). lia.
Qed.

Lemma bit_length_spec : forall x, 1 <= x < 2 ^ 16 ->
  1 <= bit_length x <= 16 /\ x < 2 ^ bit_length x.
Proof.
  intros x Hx. unfold bit_length.
  replace (x =? 0) with false by (symmetry; apply Z.eqb_neq; lia).
  pose proof (Z.log2_spec x ltac:(lia)) as [_ H2].
  pose proof (Z.log2_nonneg x).
  assert (Z.log2 x < 16) by (apply Z.log2_lt_pow2; lia).
  rewrite Z.pow_succ_r in H2 by lia. rewrite Z.add_1_r, Z.pow_succ_r by lia. lia.
Qed.

Lemma width_spec : forall M, 0 <= M < 2 ^ 16 ->
  Z.max (16 - leading_zeros16 M) 1 = Z.max (bit_length M) 1
  /\ 1 <= Z.max (bit_length M) 1 <= 16 /\ M < 2 ^ Z.max (bit_length M) 1.
Proof.
  intros M HM. unfold leading_zeros16.
  replace (16 - (16 - bit_length M)) with (bit_length M) by ring.
  split; [reflexivity|].
  destruct (Z.eq_dec M 0) as [->|Hne].
  - cbn. lia.
  - destruct (bit_length_spec M ltac:(lia)) as [H1 H2].
    rewrite Z.max_l by lia. lia.
Qed.

Lemma u32_mul_small : forall p a b, 0 <= a * b < 2 ^ 32 -> u32_mul p a b = Some (a * b).
Proof.
  intros p a b H; unfold u32_mul.
  replace (a * b <? 2 ^ 32) with true by (symmetry; apply Z.ltb_lt; lia). reflexivity.
Qed.

Lemma n_bytes_spec : forall k r, 0 <= k -> 0 <= r < 8 ->
  (if (8 * k + r) mod 8 =? 0 then (8 * k + r) / 8 else (8 * k + r) / 8 + 1)
  = k + (if 0 <? r then 1 else 0).
Proof.
  intros k r Hk Hr.
  replace (8 * k + r) with (r + k * 8) by ring.
  rewrite Z.mod_add, Z.div_add, Z.mod_small, Z.div_small by lia.
  destruct (Z.eqb_spec r 0) as [->|Hne]; cbn; [lia|].
  replace (0 <? r) with true by (symmetry; apply Z.ltb_lt; lia). lia.
Qed.

Lemma encode_line_spec : forall p rle,
  rle <> [] -> u16_runs rle -> Z.of_nat (length rle) < 2 ^ 27 ->
  exists vb lb body,
    encode_ben_vec_from_rle p rle
      = Some ([vb; lb] ++ u32_to_be_bytes (Z.of_nat (length body)) ++ body)
    /\ 1 <= vb <= 16 /\ 1 <= lb <= 16 /\ Forall is_byte body
    /\ Z.of_nat (length body) < 2 ^ 32
    /\ pure_decode_payload vb lb body = rle.
Proof.
  intros p rle Hne Hu Hlen.
  destruct rle as [|r0 rest] eqn:Er; [congruence|]. rewrite <- Er in *.
  unfold encode_ben_vec_from_rle.
  assert (Hm : max_fst rle = Some (fold_left (fun m x => Z.max m (fst x)) rest (fst r0)))
    by (rewrite Er; reflexivity).
  assert (Hl : max_snd rle = Some (fold_left (fun m x => Z.max m (snd x)) rest (snd r0)))
    by (rewrite Er; reflexivity).
  rewrite Hm, Hl.
  set (M := fold_left (fun m x => Z.max m (fst x)) rest (fst r0)).
  set (L := fold_left (fun m x => Z.max m (snd x)) rest (snd r0)).
  unfold u16_runs in Hu. rewrite Forall_forall in Hu.
  assert (Hin : forall r, In r rle -> r = r0 \/ In r rest) by (rewrite Er; intros r [H|H]; auto).
  destruct (fold_max_spec fst rest (fst r0)) as (M1 & M2 & M3).
  change (fold_left (fun (m : Z) (x : run) => Z.max m (fst x)) rest (fst r0)) with M in M1, M2, M3.
  destruct (fold_max_spec snd rest (snd r0)) as (L1 & L2 & L3).
  change (fold_left (fun (m : Z) (x : run) => Z.max m (snd x)) rest (snd r0)) with L in L1, L2, L3.
  assert (Hr0 : In r0 rle) by (rewrite Er; left; reflexivity).
  assert (HM : 0 <= M < 2 ^ 16).
  { split; [specialize (Hu r0 Hr0); lia|].
    assert (M <= 2 ^ 16 - 1); [|lia].
    apply M3; [specialize (Hu r0 Hr0); lia|].
    intros r Hr. assert (In r rle) by (rewrite Er; right; auto). specialize (Hu r H); lia. }
  assert (HL : 1 <= L < 2 ^ 16).
  { split; [specialize (Hu r0 Hr0); lia|].
    assert (L <= 2 ^ 16 - 1); [|lia].
    apply L3; [specialize (Hu r0 Hr0); lia|].
    intros r Hr. assert (In r rle) by (rewrite Er; right; auto). specialize (Hu r H); lia. }
  destruct (width_spec M HM) as (WM1 & WM2 & WM3).
  destruct (bit_length_spec L HL) as (WL1 & WL2).
  assert (WL0 : 16 - leading_zeros16 L = bit_length L) by (unfold leading_zeros16; ring).
  rewrite WM1, WL0.
  set (vb := Z.max (bit_length M) 1) in *.
  set (lb := bit_length L) in *.
  assert (Hfit : runs_fit vb lb rle).
  { unfold runs_fit; rewrite Forall_forall. intros r Hr.
    pose proof (Hu r Hr).
    assert (fst r <= M /\ snd r <= L) by (destruct (Hin r Hr) as [->|H']; auto).
    lia. }
  assert (Hpos : Forall (fun r => 0 < snd r) rle)
    by (rewrite Forall_forall; intros r Hr; specialize (Hu r Hr); lia).
  assert (Htot : 0 <= Z.of_nat (length rle) * (vb + lb) < 2 ^ 32) by nia.
  rewrite Zmod_small by lia.
  rewrite u32_mul_small by nia.
  pose proof (encode_runs_spec vb lb rle 0 0 ltac:(lia) ltac:(lia) ltac:(lia) ltac:(cbn; lia) Hfit)
    as R.
  destruct (encode_runs vb lb (0, 0) rle) as [out [rem' rb']].
  destruct R as (Rb & Rrb & Rrem & Rby & Rlen).
  destruct (final_byte_spec rem' rb' Rrb Rrem) as (Fb & Fby & Flen).
  exists vb, lb, (out ++ final_byte (rem', rb')).
  rewrite length_app, Flen.
  replace ((vb + lb) * Z.of_nat (length rle)) with (8 * Z.of_nat (length out) + rb') by lia.
  rewrite n_bytes_spec by lia.
  replace (Z.of_nat (length out) + (if 0 <? rb' then 1 else 0))
    with (Z.of_nat (length out + (if 0 <? rb' then 1%nat else 0%nat)))
    by (destruct (0 <? rb'); lia).
  repeat split; try lia.
  - apply Forall_app; auto.
  - destruct (0 <? rb'); lia.
  - destruct (decode_payload_spec vb lb (out ++ final_byte (rem', rb')) ltac:(lia) ltac:(lia)
                (proj2 (Forall_app _ _ _) (conj Rby Fby)))
      as (done & rest' & Db & Dlen & Dfit & Dout).
    rewrite Dout.
    rewrite bytes_bits_app, Fb, app_assoc, Rb in Db. cbn [Z.to_nat bits_of app] in Db.
    apply (runs_bits_unique vb lb rle done rest' _ ltac:(lia) ltac:(lia) Hfit Dfit Hpos Db Dlen).
Qed.

Lemma atr_from_spec : forall rest x k,
  1 <= k <= 65535 -> valid_value x -> Forall valid_value rest ->
  rle_to_vec (assign_to_rle_from (x, k) rest) = repeat x (Z.to_nat k) ++ rest
  /\ u16_runs (assign_to_rle_from (x, k) rest)
  /\ (length (assign_to_rle_from (x, k) rest) <= S (length rest))%nat.
Proof.
  unfold valid_value, u16_runs.
  induction rest as [|y rest IH]; intros x k Hk Hx Hr.
  - cbn [assign_to_rle_from]. rewrite rle_to_vec_cons. cbn [rle_to_vec flat_map].
    repeat split; cbn; try lia. repeat constructor; cbn; lia.
  - inversion Hr as [|? ? Hy Hr']; subst.
    cbn [assign_to_rle_from fst snd].
    destruct ((y =? x) && (k <? 2 ^ 16 - 1)) eqn:E.
    + apply andb_true_iff in E as [E1 E2]. apply Z.eqb_eq in E1. apply Z.ltb_lt in E2. subst y.
      destruct (IH x (k + 1) ltac:(lia) Hx Hr') as (H1 & H2 & H3).
      repeat split; [| exact H2 | cbn [length]; lia].
      rewrite H1, Z2Nat.inj_add, repeat_app by lia. rewrite <- app_assoc. reflexivity.
    + destruct (IH y 1 ltac:(lia) Hy Hr') as (H1 & H2 & H3).
      repeat split.
      * rewrite rle_to_vec_cons, H1. reflexivity.
      * constructor; [cbn; lia | exact H2].
      * cbn [length]; lia.
Qed.

Lemma atr_spec : forall v, valid_assignment v -> v <> [] ->
  assign_to_rle v <> [] /\ u16_runs (assign_to_rle v)
  /\ rle_to_vec (assign_to_rle v) = v /\ (length (assign_to_rle v) <= length v)%nat.
Proof.
  intros [|x rest] Hv Hne; [congruence|].
  inversion Hv as [|? ? Hx Hr]; subst.
  destruct (atr_from_spec rest x 1 ltac:(lia) Hx Hr) as (H1 & H2 & H3).
  cbn [assign_to_rle]. repeat split; auto.
  intro E. rewrite E in H1. cbn in H1. discriminate.
Qed.

Lemma u32_be_roundtrip : forall n rest, 0 <= n < 2 ^ 32 ->
  read_u32_be (u32_to_be_bytes n ++ rest) = Some (n, rest).
Proof.
  intros n rest Hn. unfold u32_to_be_bytes, read_u32_be, u32_from_be_bytes. cbn [app].
  do 2 f_equal.
  rewrite !Z.shiftr_div_pow2 by lia.
  set (a := n / 2 ^ 8).
  assert (Ea : n / 2 ^ 16 = a / 256) by (unfold a; rewrite Z.div_div by lia; reflexivity).
  assert (Eb : n / 2 ^ 24 = a / 256 / 256)
    by (unfold a; rewrite !Z.div_div by lia; reflexivity).
  rewrite Ea, Eb.
  pose proof (Z.div_mod n 256 ltac:(lia)) as D1. change (2 ^ 8) with 256 in a.
  pose proof (Z.div_mod a 256 ltac:(lia)) as D2.
  pose proof (Z.div_mod (a / 256) 256 ltac:(lia)) as D3.
  assert (Hc : 0 <= a / 256 / 256 < 256).
  { unfold a. rewrite !Z.div_div by lia. split; [apply Z.div_pos; lia|].
    apply Z.div_lt_upper_bound; lia. }
  rewrite (Z.mod_small (a / 256 / 256)) by lia.
  fold a in D1. lia.
Qed.

Lemma read_exact_app : forall (l r : list Z), read_exact (length l) (l ++ r) = Some (l, r).
Proof.
  intros l r. unfold read_exact. rewrite length_app.
  replace (length l <=? length l + length r)%nat with true by (symmetry; apply Nat.leb_le; lia).
  rewrite firstn_app, skipn_app, firstn_all, skipn_all, Nat.sub_diag, firstn_O, skipn_O, app_nil_r.
  reflexivity.
Qed.

(** *** The checked unpacker agrees with the pure loop for widths in [1..16] *)

Lemma u8_sub_32 : forall p w, 0 <= w <= 32 -> u8_sub p 32 w = Some (32 - w).
Proof. intros p w H; unfold u8_sub; replace (w <=? 32) with true by (symmetry; apply Z.leb_le; lia); reflexivity. Qed.

Lemma u32_shr_small : forall p x k, k < 32 -> u32_shr p x k = Some (Z.shiftr x k).
Proof. intros p x k H; unfold u32_shr; replace (k <? 32) with true by (symmetry; apply Z.ltb_lt; lia); reflexivity. Qed.

Lemma u32_shl_small : forall p x k, k < 32 -> u32_shl p x k = Some (wrap32 (Z.shiftl x k)).
Proof. intros p x k H; unfold u32_shl; replace (k <? 32) with true by (symmetry; apply Z.ltb_lt; lia); reflexivity. Qed.

Lemma take_val_pure : forall p vb s, 1 <= vb <= 31 -> take_val p vb s = Some (pure_take_val vb s).
Proof.
  intros p vb s H; unfold take_val, pure_take_val.
  destruct (_ && _); [|reflexivity].
  rewrite u8_sub_32 by lia. rewrite u32_shr_small by lia. rewrite u32_shl_small by lia.
  reflexivity.
Qed.

Lemma take_len_pure : forall p lb s, 1 <= lb <= 31 -> take_len p lb s = Some (pure_take_len lb s).
Proof.
  intros p lb s H; unfold take_len, pure_take_len.
  destruct (_ && _); [|reflexivity].
  rewrite u8_sub_32 by lia. rewrite u32_shr_small by lia. rewrite u32_shl_small by lia.
  reflexivity.
Qed.

Lemma extract_fields_pure : forall p vb lb s, 1 <= vb <= 31 -> 1 <= lb <= 31 ->
  extract_fields p vb lb s = Some (pure_extract_fields vb lb s).
Proof.
  intros p vb lb s Hv Hl; unfold extract_fields, pure_extract_fields.
  rewrite take_val_pure by exact Hv. rewrite take_len_pure by exact Hl. reflexivity.
Qed.

Lemma drain_pairs_pure : forall p fuel vb lb s, 1 <= vb <= 31 -> 1 <= lb <= 31 ->
  drain_pairs p fuel vb lb s = Some (pure_drain_pairs fuel vb lb s).
Proof.
  intros p fuel; induction fuel as [|fuel IH]; intros vb lb s Hv Hl; [reflexivity|].
  cbn [drain_pairs pure_drain_pairs].
  destruct (_ <=? _); [|reflexivity].
  rewrite extract_fields_pure by assumption. apply IH; assumption.
Qed.

Lemma decode_byte_pure : forall p vb lb s b, 1 <= vb <= 31 -> 1 <= lb <= 31 ->
  n_bits_in_buff s <= 16 ->
  decode_byte p vb lb s b = Some (pure_decode_byte vb lb s b).
Proof.
  intros p vb lb s b Hv Hl Hn; unfold decode_byte, pure_decode_byte.
  rewrite u32_shr_small by lia.
  unfold u16_add. replace (n_bits_in_buff s + 8 <? 2 ^ 16) with true
    by (symmetry; apply Z.ltb_lt; lia).
  cbv beta iota.
  rewrite extract_fields_pure by assumption.
  apply drain_pairs_pure; assumption.
Qed.

Lemma decode_bytes_pure : forall p vb lb bytes C s,
  1 <= vb <= 16 -> 1 <= lb <= 16 -> dec_repr vb lb C s -> dec_bound vb lb s ->
  Forall is_byte bytes ->
  decode_bytes p vb lb s bytes = Some (fold_left (pure_decode_byte vb lb) bytes s).
Proof.
  intros p vb lb bytes; induction bytes as [|b bytes IH]; intros C s Hvb Hlb H K Hby;
    [reflexivity|].
  inversion Hby as [|? ? Hb Hby']; subst. cbn [decode_bytes fold_left].
  rewrite decode_byte_pure by (try lia; destruct K; lia).
  destruct (decode_byte_spec vb lb C s b Hvb Hlb H K Hb) as [H1 K1].
  exact (IH _ _ Hvb Hlb H1 K1 Hby').
Qed.

(** For the widths every encoded header holds, the unpacker never panics
    and computes the pure loop, in either build. *)
Lemma decode_payload_pure : forall p vb lb bytes,
  1 <= vb <= 16 -> 1 <= lb <= 16 -> Forall is_byte bytes ->
  decode_payload p vb lb bytes = Some (pure_decode_payload vb lb bytes).
Proof.
  intros p vb lb bytes Hvb Hlb Hby.
  destruct (dec_init_repr vb lb ltac:(lia) ltac:(lia)) as [H0 K0].
  unfold decode_payload, pure_decode_payload.
  rewrite (decode_bytes_pure p vb lb bytes [] dec_init Hvb Hlb H0 K0 Hby).
  reflexivity.
Qed.

Lemma decode_ben_line_pure : forall p vb lb body more,
  1 <= vb <= 16 -> 1 <= lb <= 16 -> Forall is_byte body -> Z.of_nat (length body) < 2 ^ 32 ->
  decode_ben_line p (body ++ more) vb lb (Z.of_nat (length body))
  = Some (Ok (pure_decode_payload vb lb body), more).
Proof.
  intros p vb lb body more Hvb Hlb Hby Hlen.
  unfold decode_ben_line. rewrite Nat2Z.id, read_exact_app.
  unfold u8_add. replace (vb + lb <? 2 ^ 8) with true by (symmetry; apply Z.ltb_lt; lia).
  cbv beta iota.
  unfold n_assignments. replace (vb + lb =? 0) with false by (symmetry; apply Z.eqb_neq; lia).
  assert (Hd : 8 * Z.of_nat (length body) / (vb + lb) <= 8 * Z.of_nat (length body))
    by (apply Z.div_le_upper_bound; nia).
  assert (Hd0 : 0 <= 8 * Z.of_nat (length body) / (vb + lb)) by (apply Z.div_pos; lia).
  replace (2 ^ 63 - 1 <? 4 * (8 * Z.of_nat (length body) / (vb + lb))) with false
    by (symmetry; apply Z.ltb_ge; lia).
  rewrite decode_payload_pure by assumption.
  reflexivity.
Qed.

Lemma decode_line_next : forall q v line more, std_line v line ->
  ben_decoder_next q Standard (line ++ more) = (Yield (v, 1), more)
  /\ old_ben_decoder_next q (line ++ more) = (Yield v, more)
  /\ (6 <= length line)%nat.
Proof.
  intros q v line more (vb & lb & body & -> & Hb & Hv & Hvb & Hlb & Hby).
  assert (R : read_u32_be (u32_to_be_bytes (Z.of_nat (length body)) ++ body ++ more)
              = Some (Z.of_nat (length body), body ++ more))
    by (apply u32_be_roundtrip; lia).
  assert (D : decode_ben_line q (body ++ more) vb lb (Z.of_nat (length body))
              = Some (Ok (pure_decode_payload vb lb body), more))
    by (apply decode_ben_line_pure; assumption).
  split; [|split].
  - unfold ben_decoder_next. cbn [app read_u8].
    rewrite <- app_assoc, R, D, Hv. reflexivity.
  - unfold old_ben_decoder_next. cbn [app read_u8].
    rewrite <- app_assoc, R, D, Hv. reflexivity.
  - cbn [app length]. unfold u32_to_be_bytes. cbn [app length]. lia.
Qed.

Lemma encode_sample_spec : forall p v, roundtrip_ok v ->
  exists line, encode_ben_vec_from_rle p (assign_to_rle v) = Some line /\ std_line v line.
Proof.
  intros p v (Hv & Hne & Hlen).
  destruct (atr_spec v Hv Hne) as (A1 & A2 & A3 & A4).
  destruct (encode_line_spec p (assign_to_rle v) A1 A2 ltac:(lia))
    as (vb & lb & body & E & Hvb & Hlb & Hby & Hb & D).
  exists ([vb; lb] ++ u32_to_be_bytes (Z.of_nat (length body)) ++ body).
  split; [exact E|]. exists vb, lb, body. rewrite D, A3. auto 7.
Qed.

Lemma extract_line : forall q v line more fuel r n, std_line v line ->
  extract_loop q (S fuel) r n (line ++ more)
  = if (r =? n)%nat then Some (inl v) else extract_loop q fuel (S r) n more.
Proof.
  intros q v line more fuel r n Hl.
  pose proof (decode_line_next q v line [] Hl) as (_ & Old & Len).
  rewrite app_nil_r in Old.
  destruct Hl as (vb & lb & body & Eline & Hb & Hv & _).
  rewrite Eline at 1.
  cbn [extract_loop app read_u8].
  rewrite <- app_assoc, u32_be_roundtrip by lia.
  rewrite Nat2Z.id, read_exact_app.
  destruct (r =? n)%nat; [|reflexivity].
  replace (STANDARD_BANNER ++ vb :: lb :: u32_to_be_bytes (Z.of_nat (length body)) ++ body)
    with (STANDARD_BANNER ++ line) by (rewrite Eline; reflexivity).
  unfold old_jsonl_decode_ben.
  change 17%nat with (length STANDARD_BANNER). rewrite read_exact_app.
  replace (list_Z_eqb STANDARD_BANNER STANDARD_BANNER) with true by reflexivity.
  clear Eline.
  cbn [old_write_all_jsonl]. rewrite Old.
  destruct (length line) as [|k] eqn:Ek; [lia|].
  reflexivity.
Qed.

Lemma write_all_standard : forall p vs w ps c, Forall roundtrip_ok vs ->
  exists bytes,
    write_all p (mkBenEncoder w ps c Standard) vs = Some (mkBenEncoder (w ++ bytes) ps c Standard)
    /\ (length vs <= length bytes)%nat
    /\ (forall q fuel, (length vs < fuel)%nat ->
          ben_decoder_collect q fuel Standard bytes = (map (fun v => (v, 1)) vs, Finished))
    /\ (forall q fuel r n, (r <= n < r + length vs)%nat -> (n - r < fuel)%nat ->
          extract_loop q fuel r n bytes = Some (inl (nth (n - r) vs []))).
Proof.
  intros p vs; induction vs as [|v vs IH]; intros w ps c Hok.
  - exists []. rewrite app_nil_r. repeat split.
    + cbn [length]; lia.
    + intros q [|fuel] Hf; [lia|]. reflexivity.
    + intros; cbn [length] in *; lia.
  - inversion Hok as [|? ? Hv Hvs]; subst.
    destruct (encode_sample_spec p v Hv) as (line & E & Hl).
    destruct (IH (w ++ line) ps c Hvs) as (bytes & W & Len & Col & Ext).
    exists (line ++ bytes).
    pose proof (decode_line_next Debug v line bytes Hl) as (_ & _ & L6).
    repeat split.
    + cbn [write_all]. unfold write_assignment, write_rle. cbn [enc_variant writer previous_sample count].
      rewrite E, W, app_assoc. reflexivity.
    + rewrite length_app; cbn [length]; lia.
    + intros q [|fuel] Hf; [lia|]. cbn [ben_decoder_collect].
      rewrite (proj1 (decode_line_next q v line bytes Hl)).
      rewrite Col by (cbn [length] in Hf; lia). reflexivity.
    + intros q [|fuel] r n Hr Hf; [lia|].
      rewrite (extract_line q v line bytes fuel r n Hl).
      destruct (Nat.eqb_spec r n) as [->|Hne].
      * rewrite Nat.sub_diag. reflexivity.
      * cbn [length] in Hr. rewrite Ext by lia.
        replace (n - r)%nat with (S (n - S r)) by lia. reflexivity.
Qed.

(** Standard streams of samples with fewer than [2^27] entries round-trip,
    through the stream reader and through random access. *)
Lemma standard_stream_roundtrip : forall p vs, Forall roundtrip_ok vs ->
  exists s, encode_ben_stream p Standard vs = Some s
  /\ (forall q, ben_decode_stream q s = inl (map (fun v => (v, 1)) vs, Finished))
  /\ expand (map (fun v => (v, 1)) vs) = vs
  /\ (forall q n, (1 <= n <= length vs)%nat ->
        extract_assignment_ben q s n = Some (inl (nth (n - 1) vs []))).
Proof.
  intros p vs Hok.
  destruct (write_all_standard p vs STANDARD_BANNER [] 0 Hok) as (bytes & W & Len & Col & Ext).
  exists (STANDARD_BANNER ++ bytes).
  assert (Hb : read_exact 17 (STANDARD_BANNER ++ bytes) = Some (STANDARD_BANNER, bytes))
    by (change 17%nat with (length STANDARD_BANNER); apply read_exact_app).
  repeat split.
  - unfold encode_ben_stream.
    change (BenEncoder_new Standard) with (mkBenEncoder STANDARD_BANNER [] 0 Standard).
    rewrite W. reflexivity.
  - intros q. unfold ben_decode_stream, BenDecoder_new. rewrite Hb.
    replace (list_Z_eqb STANDARD_BANNER STANDARD_BANNER) with true by reflexivity.
    rewrite Col by lia. reflexivity.
  - clear. induction vs as [|v vs IH]; [reflexivity|].
    unfold expand in *. cbn [map flat_map fst snd]. rewrite IH. reflexivity.
  - intros q n Hn. unfold extract_assignment_ben.
    replace (n =? 0)%nat with false by (symmetry; apply Nat.eqb_neq; lia).
    rewrite Hb. replace (list_Z_eqb STANDARD_BANNER STANDARD_BANNER) with true by reflexivity.
    cbn [negb]. apply Ext; lia.
Qed.

Lemma list_Z_eqb_spec : forall l1 l2, list_Z_eqb l1 l2 = true <-> l1 = l2.
Proof.
  unfold list_Z_eqb.
  induction l1 as [|x l1 IH]; intros [|y l2]; cbn [length combine forallb fst snd];
    split; intros H; try discriminate; auto.
  - apply andb_true_iff in H as [H1 H2]. apply andb_true_iff in H2 as [H2 H3].
    apply Z.eqb_eq in H2. f_equal; [exact H2|]. apply IH, andb_true_iff; split; auto.
  - injection H as -> ->. apply andb_true_iff; split; [apply Nat.eqb_refl|].
    rewrite Z.eqb_refl. cbn [andb].
    pose proof (proj2 (IH l2) eq_refl) as H. apply andb_true_iff in H as [_ H2]. exact H2.
Qed.

Lemma std_line_fun : forall v w line, std_line v line -> std_line w line -> v = w.
Proof.
  intros v w line Hv Hw.
  destruct (decode_line_next Debug v line [] Hv) as (E1 & _).
  destruct (decode_line_next Debug w line [] Hw) as (E2 & _).
  rewrite E1 in E2. congruence.
Qed.

Lemma u16_be_roundtrip : forall c rest, 0 <= c < 2 ^ 16 ->
  read_u16_be (u16_to_be_bytes c ++ rest) = Some (c, rest).
Proof.
  intros c rest Hc. unfold u16_to_be_bytes, read_u16_be, u16_from_be_bytes. cbn [app].
  do 2 f_equal. rewrite Z.shiftr_div_pow2 by lia.
  pose proof (Z.div_mod c 256 ltac:(lia)).
  assert (0 <= c / 2 ^ 8 < 256) by (split; [apply Z.div_pos | apply Z.div_lt_upper_bound]; lia).
  rewrite Z.mod_small by lia. change (2 ^ 8) with 256 in *. lia.
Qed.

Lemma decode_line_next_mkv : forall q v line c more, std_line v line -> 0 <= c < 2 ^ 16 ->
  ben_decoder_next q MkvChain (line ++ u16_to_be_bytes c ++ more) = (Yield (v, c), more).
Proof.
  intros q v line c more (vb & lb & body & -> & Hb & Hv & Hvb & Hlb & Hby) Hc.
  assert (R : read_u32_be (u32_to_be_bytes (Z.of_nat (length body)) ++ body ++ u16_to_be_bytes c ++ more)
              = Some (Z.of_nat (length body), body ++ u16_to_be_bytes c ++ more))
    by (apply u32_be_roundtrip; lia).
  assert (D : decode_ben_line q (body ++ u16_to_be_bytes c ++ more) vb lb (Z.of_nat (length body))
              = Some (Ok (pure_decode_payload vb lb body), u16_to_be_bytes c ++ more))
    by (apply decode_ben_line_pure; assumption).
  unfold ben_decoder_next. cbn [app read_u8].
  rewrite <- app_assoc, R, D, Hv, u16_be_roundtrip by exact Hc. reflexivity.
Qed.

Lemma write_repeat_mkv : forall p v line m w c,
  encode_ben_vec_from_rle p (assign_to_rle v) = Some line ->
  0 <= c -> c + Z.of_nat m < 2 ^ 16 ->
  write_all p (mkBenEncoder w line c MkvChain) (repeat v m)
  = Some (mkBenEncoder w line (c + Z.of_nat m) MkvChain).
Proof.
  intros p v line m; induction m as [|m IH]; intros w c E Hc Hm.
  - rewrite Z.add_0_r; reflexivity.
  - cbn [repeat write_all]. unfold write_assignment, write_rle.
    cbn [enc_variant writer previous_sample count]. rewrite E.
    replace (list_Z_eqb line line) with true by (symmetry; apply list_Z_eqb_spec; reflexivity).
    unfold u16_add. replace (c + 1 <? 2 ^ 16) with true by (symmetry; apply Z.ltb_lt; lia).
    rewrite IH by (try exact E; lia). do 2 f_equal. lia.
Qed.

Lemma mkv_decodes_cons : forall q v line c bytes recs,
  std_line v line -> 0 <= c < 2 ^ 16 -> mkv_decodes q bytes recs ->
  mkv_decodes q (line ++ u16_to_be_bytes c ++ bytes) ((v, c) :: recs).
Proof.
  intros q v line c bytes recs Hl Hc (Len & Col).
  pose proof (decode_line_next q v line [] Hl) as (_ & _ & L6).
  split.
  - rewrite !length_app. cbn [length]. lia.
  - intros [|fuel] Hf; [lia|]. cbn [ben_decoder_collect].
    rewrite (decode_line_next_mkv q v line c bytes Hl Hc).
    rewrite Col by (cbn [length] in Hf; lia). reflexivity.
Qed.

Lemma mkv_decodes_nil : forall q, mkv_decodes q [] [].
Proof. intros q; split; [cbn; lia|]. intros [|fuel] Hf; [lia | reflexivity]. Qed.

Lemma write_groups_mkv : forall p groups w pl c prevv,
  mkv_groups_ok prevv groups ->
  match prevv with
  | None => pl = [] /\ c = 0
  | Some u => std_line u pl /\ 1 <= c < 2 ^ 16
  end ->
  exists e bytes,
    write_all p (mkBenEncoder w pl c MkvChain) (expand_groups groups) = Some e
    /\ drop_encoder e = w ++ bytes
    /\ forall q, mkv_decodes q bytes
         (match prevv with None => [] | Some u => [(u, c)] end ++ group_records groups).
Proof.
  intros p groups; induction groups as [|[v k] gs IH]; intros w pl c prevv Hg Hp.
  - exists (mkBenEncoder w pl c MkvChain).
    destruct prevv as [u|].
    + destruct Hp as [Hl Hc].
      exists (pl ++ u16_to_be_bytes c ++ []). split; [reflexivity|]. split.
      * unfold drop_encoder; cbn [enc_variant writer previous_sample count].
        replace (0 <? c) with true by (symmetry; apply Z.ltb_lt; lia).
        rewrite app_nil_r; reflexivity.
      * intros q; apply (mkv_decodes_cons q u pl c [] []); auto; [lia | exact (mkv_decodes_nil q)].
    + destruct Hp as [-> ->]. exists []. split; [reflexivity|]. split.
      * rewrite app_nil_r; reflexivity.
      * exact mkv_decodes_nil.
  - destruct Hg as (Hv & Hk & Hne & Hgs).
    destruct (encode_sample_spec p v Hv) as (line & E & Hl).
    destruct k as [|k']; [lia|].
    set (w' := match prevv with None => w | Some _ => w ++ pl ++ u16_to_be_bytes c end).
    assert (W1 : write_assignment p (mkBenEncoder w pl c MkvChain) v
                 = Some (mkBenEncoder w' line 1 MkvChain)).
    { unfold write_assignment, write_rle. cbn [enc_variant writer previous_sample count].
      rewrite E.
      replace (list_Z_eqb line pl) with false.
      - unfold w'. destruct prevv as [u|].
        + replace (0 <? c) with true by (symmetry; apply Z.ltb_lt; lia). reflexivity.
        + destruct Hp as [-> ->]. reflexivity.
      - symmetry. apply not_true_iff_false. rewrite list_Z_eqb_spec. intros ->.
        destruct prevv as [u|].
        + apply Hne. f_equal. apply (std_line_fun u v pl); tauto.
        + destruct Hp as [-> _]. pose proof (decode_line_next Debug v [] [] Hl) as (_ & _ & L6).
          cbn in L6. lia. }
    destruct (IH w' line (1 + Z.of_nat k') (Some v) Hgs ltac:(split; [exact Hl | lia]))
      as (e & bytes & We & De & Dec).
    exists e.
    exists (match prevv with None => [] | Some _ => pl ++ u16_to_be_bytes c end ++ bytes).
    split; [|split].
    + unfold expand_groups. cbn [flat_map fst snd repeat]. fold (expand_groups gs).
      cbn [app write_all]. rewrite W1, write_all_app.
      rewrite write_repeat_mkv with (line := line) by (auto; lia). exact We.
    + rewrite De. unfold w'. destruct prevv; cbn [app]; rewrite ?app_assoc; reflexivity.
    + intros q. specialize (Dec q).
      unfold group_records in *. cbn [map fst snd].
      replace (1 + Z.of_nat k') with (Z.of_nat (S k')) in Dec by lia.
      destruct prevv as [u|].
      * destruct Hp as [Hu Hc]. cbn [app] in *. rewrite <- app_assoc.
        apply mkv_decodes_cons; auto; lia.
      * exact Dec.
Qed.

(** MkvChain streams round-trip when no sample repeats [2^16] times in a row. *)
Lemma mkv_stream_roundtrip : forall p groups, mkv_groups_ok None groups ->
  exists s, encode_ben_stream p MkvChain (expand_groups groups) = Some s
  /\ (forall q, ben_decode_stream q s = inl (group_records groups, Finished))
  /\ expand (group_records groups) = expand_groups groups.
Proof.
  intros p groups Hg.
  destruct (write_groups_mkv p groups MKVCHAIN_BANNER [] 0 None Hg (conj eq_refl eq_refl))
    as (e & bytes & W & D & Dec).
  exists (MKVCHAIN_BANNER ++ bytes). split; [|split].
  - unfold encode_ben_stream.
    change (BenEncoder_new MkvChain) with (mkBenEncoder MKVCHAIN_BANNER [] 0 MkvChain).
    rewrite W, D. reflexivity.
  - intros q. destruct (Dec q) as (Len & Col).
    unfold ben_decode_stream, BenDecoder_new.
    change 17%nat with (length MKVCHAIN_BANNER). rewrite read_exact_app.
    replace (list_Z_eqb MKVCHAIN_BANNER STANDARD_BANNER) with false by reflexivity.
    replace (list_Z_eqb MKVCHAIN_BANNER MKVCHAIN_BANNER) with true by reflexivity.
    cbn [app] in Len, Col. rewrite Col by (apply Nat.lt_succ_r; exact Len). reflexivity.
  - clear. induction groups as [|[v k] gs IH]; [reflexivity|].
    unfold expand, group_records, expand_groups in *. cbn [map flat_map fst snd].
    rewrite Nat2Z.id, IH. reflexivity.
Qed.

(** * Further properties of the encoders and decoders *)

Lemma ben32_word_value : forall v c, 0 <= v < 2 ^ 16 -> 0 <= c < 2 ^ 16 ->
  Z.lor (wrap32 (Z.shiftl v 16)) c = v * 2 ^ 16 + c.
Proof.
  intros v c Hv Hc. unfold wrap32. rewrite Z.shiftl_mul_pow2 by lia.
  rewrite Z.mod_small by lia. apply lor_disjoint; lia.
Qed.

Lemma ben32_word_bytes : forall v c, 0 <= v < 2 ^ 16 -> 0 <= c < 2 ^ 16 ->
  ben32_word v c = [v / 256; v mod 256; c / 256; c mod 256].
Proof.
  intros v c Hv Hc. unfold ben32_word. rewrite ben32_word_value by lia.
  unfold u32_to_be_bytes. rewrite !Z.shiftr_div_pow2 by lia.
  change (2 ^ 16) with (256 * 256) in *. change (2 ^ 24) with (256 * 256 * 256).
  change (2 ^ 8) with 256.
  assert (E1 : (v * (256 * 256) + c) / (256 * 256 * 256) = v / 256).
  { rewrite <- Z.div_div by lia. rewrite Z.div_add_l by lia.
    rewrite (Z.div_small c) by lia. rewrite Z.add_0_r. reflexivity. }
  assert (E2 : (v * (256 * 256) + c) / (256 * 256) = v)
    by (rewrite Z.div_add_l by lia; rewrite Z.div_small by lia; lia).
  assert (E3 : (v * (256 * 256) + c) / 256 = v * 256 + c / 256)
    by (replace (v * (256 * 256)) with ((v * 256) * 256) by ring; rewrite Z.div_add_l by lia; reflexivity).
  rewrite E1, E2, E3.
  assert (0 <= v / 256 < 256) by (split; [apply Z.div_pos | apply Z.div_lt_upper_bound]; lia).
  assert (0 <= c / 256 < 256) by (split; [apply Z.div_pos | apply Z.div_lt_upper_bound]; lia).
  rewrite (Z.mod_small (v / 256)) by lia.
  assert (E4 : (v * 256 + c / 256) mod 256 = c / 256)
    by (rewrite Z.add_comm, Z.mod_add by lia; apply Z.mod_small; lia).
  assert (E5 : (v * (256 * 256) + c) mod 256 = c mod 256)
    by (replace (v * (256 * 256) + c) with (c + (v * 256) * 256) by ring; apply Z.mod_add; lia).
  rewrite E4, E5. reflexivity.
Qed.

Lemma ben32_word_read : forall v c rest, 0 <= v < 2 ^ 16 -> 0 <= c < 2 ^ 16 ->
  read_u32_be (ben32_word v c ++ rest) = Some (v * 2 ^ 16 + c, rest).
Proof.
  intros v c rest Hv Hc. unfold ben32_word. rewrite ben32_word_value by lia.
  apply u32_be_roundtrip; lia.
Qed.

(** [assignment.as_u64()] is [Some] on a number in [0, 2^64 - 1]. *)
Lemma u64_in_range : forall x, 0 <= x < 2 ^ 64 -> (0 <=? x) && (x <? 2 ^ 64) = true.
Proof. intros x H; apply andb_true_iff; split; [apply Z.leb_le | apply Z.ltb_lt]; lia. Qed.

(** A run continues while the [u16] counter does not overflow. *)
Lemma ben32_loop_same : forall p m v c rest,
  0 <= v < 2 ^ 16 -> 0 <= c -> c + Z.of_nat m < 2 ^ 16 ->
  ben32_loop p false v c (repeat v m ++ rest) = ben32_loop p false v (c + Z.of_nat m) rest.
Proof.
  intros p m; induction m as [|m IH]; intros v c rest Hv Hc Hm.
  - rewrite Z.add_0_r. reflexivity.
  - cbn [repeat app ben32_loop]. rewrite u64_in_range by lia; cbn [negb].
    rewrite Z.mod_small by lia. rewrite Z.eqb_refl.
    unfold u16_add. replace (c + 1 <? 2 ^ 16) with true by (symmetry; apply Z.ltb_lt; lia).
    rewrite IH by lia. f_equal. lia.
Qed.

Lemma ben32_loop_runs : forall p R v c,
  canonical_rle (Some v) R -> Forall (fun r => 0 <= fst r < 2 ^ 16) R ->
  0 <= v < 2 ^ 16 -> 1 <= c < 2 ^ 16 ->
  exists out pv cnt,
    ben32_loop p false v c (rle_to_vec R) = Some (out, (pv, cnt))
    /\ out ++ (if 0 <? cnt then ben32_word pv cnt else [])
       = flat_map (fun r => ben32_word (fst r) (snd r)) ((v, c) :: R).
Proof.
  intros p R; induction R as [|[v1 l1] R IH]; intros v c Hc HR Hv Hcnt.
  - exists [], v, c. split; [reflexivity|].
    replace (0 <? c) with true by (symmetry; apply Z.ltb_lt; lia).
    cbn [flat_map fst snd app]. rewrite ?app_nil_r. reflexivity.
  - destruct Hc as (Hl1 & Hne & Hc'). inversion HR as [|? ? Hv1 HR']; subst. cbn [fst] in Hv1.
    rewrite rle_to_vec_cons.
    destruct (Z.to_nat l1) as [|k] eqn:Ek; [lia|].
    cbn [repeat app ben32_loop]. rewrite u64_in_range by lia; cbn [negb].
    rewrite (Z.mod_small v1) by lia.
    replace (v1 =? v) with false by (symmetry; apply Z.eqb_neq; congruence).
    rewrite ben32_loop_same by lia.
    replace (1 + Z.of_nat k) with l1 by lia.
    destruct (IH v1 l1 Hc' HR' Hv1 ltac:(lia)) as (out & pv & cnt & E & F).
    rewrite E. exists (ben32_word v c ++ out), pv, cnt. split; [reflexivity|].
    rewrite <- app_assoc, F. reflexivity.
Qed.

Lemma encode_ben32_line_runs : forall p R,
  canonical_rle None R -> Forall (fun r => 0 <= fst r < 2 ^ 16) R ->
  encode_ben32_line p (rle_to_vec R)
  = Some (flat_map (fun r => ben32_word (fst r) (snd r)) R ++ [0; 0; 0; 0]).
Proof.
  intros p [|[v1 l1] R] Hc HR.
  - reflexivity.
  - destruct Hc as (Hl1 & _ & Hc'). inversion HR as [|? ? Hv1 HR']; subst. cbn [fst] in Hv1.
    unfold encode_ben32_line. rewrite rle_to_vec_cons.
    destruct (Z.to_nat l1) as [|k] eqn:Ek; [lia|].
    cbn [repeat app ben32_loop]. rewrite u64_in_range by lia; cbn [negb].
    rewrite (Z.mod_small v1) by lia.
    rewrite ben32_loop_same by lia. replace (1 + Z.of_nat k) with l1 by lia.
    destruct (ben32_loop_runs p R v1 l1 Hc' HR' Hv1 ltac:(lia)) as (out & pv & cnt & E & F).
    rewrite E, app_assoc, F. reflexivity.
Qed.

Lemma ben32_words_runs : forall R rest fuel,
  Forall (fun r => 0 <= fst r < 2 ^ 16 /\ 1 <= snd r < 2 ^ 16) R -> (length R < fuel)%nat ->
  ben32_words fuel (flat_map (fun r => ben32_word (fst r) (snd r)) R ++ [0; 0; 0; 0] ++ rest)
  = (Ok (rle_to_vec R), rest).
Proof.
  induction R as [|[v c] R IH]; intros rest fuel HR Hf; destruct fuel as [|fuel]; try (cbn in Hf; lia).
  - reflexivity.
  - inversion HR as [|? ? [Hv Hc] HR']; subst. cbn [fst snd] in Hv, Hc.
    cbn [flat_map fst snd ben32_words]. rewrite <- app_assoc, ben32_word_read by lia.
    replace (v * 2 ^ 16 + c =? 0) with false by (symmetry; apply Z.eqb_neq; lia).
    rewrite IH by (auto; cbn [length] in Hf; lia).
    assert (E1 : Z.shiftr (v * 2 ^ 16 + c) 16 mod 2 ^ 16 = v).
    { rewrite Z.shiftr_div_pow2 by lia. rewrite Z.div_add_l by lia.
      rewrite Z.div_small by lia. rewrite Z.add_0_r, Z.mod_small by lia. reflexivity. }
    assert (E2 : Z.land (v * 2 ^ 16 + c) 65535 = c).
    { change 65535 with (Z.ones 16). rewrite Z.land_ones by lia.
      rewrite Z.add_comm, Z.mod_add by lia. rewrite Z.mod_small by lia. reflexivity. }
    rewrite E1, E2, rle_to_vec_cons. reflexivity.
Qed.

Lemma canonical_runs_u16 : forall R prev,
  canonical_rle prev R -> Forall (fun r => 0 <= fst r < 2 ^ 16) R ->
  Forall (fun r => 0 <= fst r < 2 ^ 16 /\ 1 <= snd r < 2 ^ 16) R.
Proof.
  induction R as [|[v l] R IH]; intros prev Hc HR; [constructor|].
  destruct Hc as (Hl & _ & Hc). inversion HR; subst.
  constructor; [cbn in *; lia | eapply IH; eauto].
Qed.

Lemma length_flat_map_word : forall R,
  Forall (fun r => 0 <= fst r < 2 ^ 16 /\ 1 <= snd r < 2 ^ 16) R ->
  length (flat_map (fun r => ben32_word (fst r) (snd r)) R) = (4 * length R)%nat.
Proof.
  induction R as [|r R IH]; intros HR; [reflexivity|].
  inversion HR; subst. cbn [flat_map length]. rewrite length_app, IH by auto.
  unfold ben32_word, u32_to_be_bytes. cbn [length]. lia.
Qed.

Lemma decode_ben32_runs : forall R rest,
  Forall (fun r => 0 <= fst r < 2 ^ 16 /\ 1 <= snd r < 2 ^ 16) R ->
  decode_ben32_line (flat_map (fun r => ben32_word (fst r) (snd r)) R ++ [0; 0; 0; 0] ++ rest) Standard
  = Some (Ok (rle_to_vec R, 1))
  /\ forall c more, rest = u16_to_be_bytes c ++ more -> 0 <= c < 2 ^ 16 ->
     decode_ben32_line (flat_map (fun r => ben32_word (fst r) (snd r)) R ++ [0; 0; 0; 0] ++ rest) MkvChain
     = Some (Ok (rle_to_vec R, c)).
Proof.
  intros R rest HR.
  unfold decode_ben32_line.
  rewrite ben32_words_runs by (auto; rewrite !length_app, length_flat_map_word by auto; lia).
  split; [reflexivity|]. intros c more -> Hc. rewrite u16_be_roundtrip by lia. reflexivity.
Qed.

Lemma ben32_loop_release : forall m x v c, 0 <= x < 2 ^ 64 -> x mod 2 ^ 16 = v -> 0 <= c < 2 ^ 16 ->
  ben32_loop Release false v c (repeat x m) = Some ([], (v, (c + Z.of_nat m) mod 2 ^ 16)).
Proof.
  induction m as [|m IH]; intros x v c Hr Hx Hc.
  - cbn. rewrite Z.add_0_r, Z.mod_small by lia. reflexivity.
  - cbn [repeat ben32_loop]. rewrite u64_in_range by lia; cbn [negb]. rewrite Hx, Z.eqb_refl.
    assert (U : u16_add Release c 1 = Some ((c + 1) mod 2 ^ 16)).
    { unfold u16_add. destruct (c + 1 <? 2 ^ 16) eqn:E; [|reflexivity].
      apply Z.ltb_lt in E. rewrite Z.mod_small by lia. reflexivity. }
    rewrite U, IH by (auto; apply Z.mod_pos_bound; lia).
    replace ((c + Z.of_nat (S m)) mod 2 ^ 16) with (((c + 1) mod 2 ^ 16 + Z.of_nat m) mod 2 ^ 16);
      [reflexivity|].
    rewrite Zplus_mod_idemp_l. f_equal. lia.
Qed.

Lemma ben32_loop_debug_overflow : forall m x v c, 0 <= x < 2 ^ 64 -> x mod 2 ^ 16 = v ->
  0 <= c < 2 ^ 16 ->
  2 ^ 16 <= c + Z.of_nat m -> ben32_loop Debug false v c (repeat x m) = None.
Proof.
  induction m as [|m IH]; intros x v c Hr Hx Hc Hm; [lia|].
  cbn [repeat ben32_loop]. rewrite u64_in_range by lia; cbn [negb].
  rewrite Hx, Z.eqb_refl. unfold u16_add.
  destruct (c + 1 <? 2 ^ 16) eqn:E; [|reflexivity].
  apply Z.ltb_lt in E. apply IH; auto; lia.
Qed.

Lemma ben32_loop_debug_ok : forall m x v c, 0 <= x < 2 ^ 64 -> x mod 2 ^ 16 = v -> 0 <= c ->
  c + Z.of_nat m < 2 ^ 16 ->
  ben32_loop Debug false v c (repeat x m) = Some ([], (v, c + Z.of_nat m)).
Proof.
  induction m as [|m IH]; intros x v c Hr Hx Hc Hm.
  - rewrite Z.add_0_r. reflexivity.
  - cbn [repeat ben32_loop]. rewrite u64_in_range by lia; cbn [negb].
    rewrite Hx, Z.eqb_refl. unfold u16_add.
    replace (c + 1 <? 2 ^ 16) with true by (symmetry; apply Z.ltb_lt; lia).
    rewrite IH by (auto; lia). replace (c + Z.of_nat (S m)) with (c + 1 + Z.of_nat m) by lia.
    reflexivity.
Qed.

(** ** Frame scanning *)

Lemma nth_prefix : forall (ov rest big : list Z) k d, ov ++ rest = big -> (k < length ov)%nat ->
  nth k big d = nth k ov d.
Proof. intros ov rest big k d <- Hk. apply app_nth1; exact Hk. Qed.

Lemma zero_word_at_prefix : forall ov rest big i, ov ++ rest = big -> (i < length ov)%nat ->
  zero_word_at ov i = zero_word_at big i.
Proof.
  intros ov rest big i E Hi. unfold zero_word_at. cbn [forallb].
  rewrite !(nth_prefix ov rest big) by (auto; lia). reflexivity.
Qed.

Lemma zero_word_at_shift : forall pre rest i, (3 <= i)%nat ->
  zero_word_at (pre ++ rest) (length pre + i) = zero_word_at rest i.
Proof.
  intros pre rest i Hi. unfold zero_word_at. cbn [forallb].
  rewrite !app_nth2 by lia.
  replace (length pre + i - 3 - length pre)%nat with (i - 3)%nat by lia.
  replace (length pre + i - 2 - length pre)%nat with (i - 2)%nat by lia.
  replace (length pre + i - 1 - length pre)%nat with (i - 1)%nat by lia.
  replace (length pre + i - length pre)%nat with i by lia.
  reflexivity.
Qed.

Lemma scan_first : forall n fuel i stop step ov,
  (forall k, (k < n)%nat -> zero_word_at ov (i + k * step) = false) ->
  zero_word_at ov (i + n * step) = true -> (i + n * step < stop)%nat -> (n < fuel)%nat ->
  scan_zero_word fuel i stop step ov = Some (i + n * step)%nat.
Proof.
  induction n as [|n IH]; intros fuel i stop step ov Hk Hz Hs Hf; destruct fuel as [|fuel]; try lia.
  - cbn [scan_zero_word]. rewrite Nat.add_0_r in *.
    replace (i <? stop)%nat with true by (symmetry; apply Nat.ltb_lt; lia). rewrite Hz. reflexivity.
  - cbn [scan_zero_word].
    replace (i <? stop)%nat with true by (symmetry; apply Nat.ltb_lt; nia).
    pose proof (Hk 0%nat ltac:(lia)) as H0. rewrite Nat.add_0_r in H0. rewrite H0.
    replace (i + S n * step)%nat with (i + step + n * step)%nat by nia.
    apply IH.
    + intros k Hkn. replace (i + step + k * step)%nat with (i + S k * step)%nat by nia.
      apply Hk; lia.
    + replace (i + step + n * step)%nat with (i + S n * step)%nat by nia. exact Hz.
    + nia.
    + lia.
Qed.

Lemma scan_none : forall fuel i stop step ov,
  (forall k, (i + k * step < stop)%nat -> zero_word_at ov (i + k * step) = false) ->
  scan_zero_word fuel i stop step ov = None.
Proof.
  induction fuel as [|fuel IH]; intros i stop step ov Hk; [reflexivity|].
  cbn [scan_zero_word]. destruct (i <? stop)%nat eqn:E; [|reflexivity].
  apply Nat.ltb_lt in E.
  pose proof (Hk 0%nat) as H0. rewrite Nat.add_0_r in H0. rewrite H0 by lia.
  apply IH. intros k Hs. replace (i + step + k * step)%nat with (i + S k * step)%nat by nia.
  apply Hk. nia.
Qed.


Lemma words_nonzero : forall R tail j, Forall u16run R -> (j < length R)%nat ->
  zero_word_at (flat_map (fun r => ben32_word (fst r) (snd r)) R ++ tail) (4 * j + 3) = false
  /\ zero_word_at (flat_map (fun r => ben32_word (fst r) (snd r)) R ++ tail) (4 * j + 5) = false.
Proof.
  induction R as [|[v c] R IH]; intros tail j HR Hj; [cbn in Hj; lia|].
  inversion HR as [|? ? [Hv Hc] HR']; subst. cbn [fst snd] in Hv, Hc.
  cbn [flat_map fst snd]. rewrite <- app_assoc.
  assert (L4 : length (ben32_word v c) = 4%nat) by (rewrite ben32_word_bytes by lia; reflexivity).
  destruct j as [|j].
  - rewrite ben32_word_bytes by lia.
    assert (Hcz : (c / 256 =? 0) && (c mod 256 =? 0) = false).
    { destruct (c / 256 =? 0) eqn:E1; destruct (c mod 256 =? 0) eqn:E2; auto.
      apply Z.eqb_eq in E1, E2. pose proof (Z.div_mod c 256). lia. }
    unfold zero_word_at. cbn [forallb Nat.add Nat.mul Nat.sub nth app].
    split.
    + rewrite andb_true_r, Hcz, !andb_false_r. reflexivity.
    + rewrite andb_assoc, Hcz. reflexivity.
  - replace (4 * S j + 3)%nat with (length (ben32_word v c) + (4 * j + 3))%nat by lia.
    replace (4 * S j + 5)%nat with (length (ben32_word v c) + (4 * j + 5))%nat by lia.
    rewrite !zero_word_at_shift by lia. apply IH; auto. cbn in Hj; lia.
Qed.

Lemma words_terminator : forall R tail, Forall u16run R ->
  zero_word_at (flat_map (fun r => ben32_word (fst r) (snd r)) R ++ [0; 0; 0; 0] ++ tail)
    (4 * length R + 3) = true.
Proof.
  intros R tail HR.
  replace (4 * length R + 3)%nat
    with (length (flat_map (fun r => ben32_word (fst r) (snd r)) R) + 3)%nat
    by (rewrite length_flat_map_word by exact HR; reflexivity).
  rewrite zero_word_at_shift by lia. reflexivity.
Qed.

Lemma firstn_app_len : forall (F m : list Z) n, n = length F -> firstn n (F ++ m) = F.
Proof. intros F m n ->. rewrite firstn_app, firstn_all, Nat.sub_diag, firstn_O, app_nil_r. reflexivity. Qed.

Lemma xben_frame_std : forall R, Forall u16run R ->
  xben_frame Standard (flat_map (fun r => ben32_word (fst r) (snd r)) R ++ [0; 0; 0; 0])
    (rle_to_vec R, 1).
Proof.
  intros R HR.
  set (W := flat_map (fun r => ben32_word (fst r) (snd r)) R).
  assert (LW : length W = (4 * length R)%nat) by (apply length_flat_map_word; exact HR).
  assert (LF : length (W ++ [0; 0; 0; 0]) = (4 * length R + 4)%nat)
    by (rewrite length_app, LW; reflexivity).
  refine (conj _ (conj _ (conj _ _))).
  - rewrite LF. lia.
  - intros m. unfold pop_frame_from_overflow.
    rewrite length_app, LF.
    replace (4 * length R + 4 + length m <? 4)%nat with false by (symmetry; apply Nat.ltb_ge; lia).
    rewrite (scan_first (length R)).
    + replace (3 + length R * 4 + 1)%nat with (4 * length R + 4)%nat by lia.
      rewrite firstn_app_len by (rewrite LF; lia). reflexivity.
    + intros k Hk. rewrite <- !app_assoc.
      replace (3 + k * 4)%nat with (4 * k + 3)%nat by lia.
      apply words_nonzero; auto.
    + rewrite <- !app_assoc. replace (3 + length R * 4)%nat with (4 * length R + 3)%nat by lia.
      apply words_terminator; auto.
    + lia.
    + lia.
  - intros ov rest more Hl E. unfold pop_frame_from_overflow.
    destruct (length ov <? 4)%nat eqn:E4; [reflexivity|]. apply Nat.ltb_ge in E4.
    rewrite scan_none; [reflexivity|].
    intros k Hk.
    rewrite (zero_word_at_prefix ov rest (W ++ [0; 0; 0; 0] ++ more)) by (first [rewrite E, <- app_assoc; reflexivity | lia]).
    replace (3 + k * 4)%nat with (4 * k + 3)%nat by lia.
    apply words_nonzero; auto. rewrite LF in Hl. lia.
  - exists 1. cbn [fst]. rewrite <- (app_nil_r (W ++ [0; 0; 0; 0])), <- app_assoc.
    apply decode_ben32_runs. exact HR.
Qed.

Lemma mkv_positions : forall R tail k, Forall u16run R -> (k < 2 * length R)%nat ->
  zero_word_at (flat_map (fun r => ben32_word (fst r) (snd r)) R ++ tail) (3 + k * 2) = false.
Proof.
  intros R tail k HR Hk.
  destruct (Nat.Even_or_Odd k) as [[j ->]|[j ->]].
  - replace (3 + 2 * j * 2)%nat with (4 * j + 3)%nat by lia.
    apply words_nonzero; auto; lia.
  - replace (3 + (2 * j + 1) * 2)%nat with (4 * j + 5)%nat by lia.
    apply words_nonzero; auto; lia.
Qed.

Lemma u16_from_to : forall c, 0 <= c < 2 ^ 16 ->
  u16_from_be_bytes (Z.shiftr c 8 mod 256) (c mod 256) = c.
Proof.
  intros c Hc. pose proof (u16_be_roundtrip c [] Hc) as H.
  unfold u16_to_be_bytes, read_u16_be in H. cbn [app] in H. congruence.
Qed.

Lemma xben_frame_mkv : forall R c, Forall u16run R -> 0 <= c < 2 ^ 16 ->
  xben_frame MkvChain
    (flat_map (fun r => ben32_word (fst r) (snd r)) R ++ [0; 0; 0; 0] ++ u16_to_be_bytes c)
    (rle_to_vec R, c).
Proof.
  intros R c HR Hc.
  set (W := flat_map (fun r => ben32_word (fst r) (snd r)) R).
  assert (LW : length W = (4 * length R)%nat) by (apply length_flat_map_word; exact HR).
  assert (LF : length (W ++ [0; 0; 0; 0] ++ u16_to_be_bytes c) = (4 * length R + 6)%nat)
    by (rewrite !length_app, LW; reflexivity).
  refine (conj _ (conj _ (conj _ _))).
  - rewrite LF. lia.
  - intros m. unfold pop_frame_from_overflow.
    rewrite length_app, LF.
    replace (4 * length R + 6 + length m <? 6)%nat with false by (symmetry; apply Nat.ltb_ge; lia).
    rewrite (scan_first (2 * length R)).
    + replace (3 + 2 * length R * 2 + 3)%nat with (4 * length R + 6)%nat by lia.
      rewrite firstn_app_len by (rewrite LF; lia).
      rewrite <- !app_assoc.
      rewrite (app_nth2 W _ 0 (n := (3 + 2 * length R * 2 + 1)%nat)) by (rewrite LW; lia).
      rewrite (app_nth2 W _ 0 (n := (3 + 2 * length R * 2 + 2)%nat)) by (rewrite LW; lia).
      rewrite LW.
      replace (3 + 2 * length R * 2 + 1 - 4 * length R)%nat with 4%nat by lia.
      replace (3 + 2 * length R * 2 + 2 - 4 * length R)%nat with 5%nat by lia.
      unfold u16_to_be_bytes. cbn [app nth]. rewrite u16_from_to by exact Hc. reflexivity.
    + intros k Hk. rewrite <- !app_assoc. apply mkv_positions; auto.
    + rewrite <- !app_assoc. replace (3 + 2 * length R * 2)%nat with (4 * length R + 3)%nat by lia.
      apply words_terminator; auto.
    + lia.
    + lia.
  - intros ov rest more Hl E. unfold pop_frame_from_overflow.
    destruct (length ov <? 6)%nat eqn:E6; [reflexivity|]. apply Nat.ltb_ge in E6.
    rewrite scan_none; [reflexivity|].
    intros k Hk.
    rewrite (zero_word_at_prefix ov rest (W ++ ([0; 0; 0; 0] ++ u16_to_be_bytes c) ++ more))
      by (first [rewrite E, <- !app_assoc; reflexivity | lia]).
    apply mkv_positions; auto. rewrite LF in Hl. lia.
  - exists c. cbn [fst].
    rewrite <- (app_nil_r (u16_to_be_bytes c)).
    apply (proj2 (decode_ben32_runs R (u16_to_be_bytes c ++ []) HR) c []); auto.
Qed.

Lemma xben_next_frame : forall variant F rec more, xben_frame variant F rec ->
  forall cs ov fuel, Forall (fun c => c <> []) cs -> ov ++ concat cs = F ++ more ->
  (length cs < fuel)%nat ->
  exists ov' cs',
    xben_next_loop fuel {| xvariant := variant; overflow := ov; chunks := cs |}
      = (Yield rec, {| xvariant := variant; overflow := ov'; chunks := cs' |})
    /\ ov' ++ concat cs' = more /\ Forall (fun c => c <> []) cs' /\ (length cs' <= length cs)%nat.
Proof.
  intros variant F rec more (H1 & H2 & H3 & c0 & H4).
  induction cs as [|c cs IH]; intros ov fuel Hne E Hf; destruct fuel as [|fuel]; try (cbn in Hf; lia).
  - cbn [concat] in E. rewrite app_nil_r in E. subst ov.
    cbn [xben_next_loop xvariant overflow chunks]. rewrite H2, H4.
    exists more, []. destruct rec as [a n]. cbn [fst snd].
    rewrite skipn_app, skipn_all, Nat.sub_diag, skipn_O. cbn [app].
    repeat split; auto. apply app_nil_r.
  - inversion Hne as [|? ? Hc Hcs]; subst.
    destruct (Nat.lt_ge_cases (length ov) (length F)) as [Hl|Hl].
    + cbn [xben_next_loop xvariant overflow chunks].
      rewrite (H3 ov (concat (c :: cs)) more Hl E).
      destruct c as [|b c']; [congruence|].
      destruct (IH (ov ++ b :: c') fuel Hcs ltac:(rewrite <- app_assoc; exact E) ltac:(cbn in Hf; lia))
        as (ov' & cs' & N & R1 & R2 & R3).
      exists ov', cs'. rewrite N. repeat split; auto. cbn [length]; lia.
    + assert (Eov : ov = F ++ skipn (length F) ov).
      { assert (Hfx : firstn (length F) ov = F).
        { pose proof (f_equal (firstn (length F)) E) as E'.
          rewrite (firstn_app_len F more (length F) eq_refl), firstn_app in E'.
          replace (length F - length ov)%nat with 0%nat in E' by lia.
          rewrite firstn_O, app_nil_r in E'. exact E'. }
        transitivity (firstn (length F) ov ++ skipn (length F) ov).
        - symmetry. apply firstn_skipn.
        - rewrite Hfx. reflexivity. }
      set (m := skipn (length F) ov) in *.
      cbn [xben_next_loop xvariant overflow chunks].
      rewrite Eov, H2, H4.
      rewrite skipn_app, skipn_all, Nat.sub_diag, skipn_O. cbn [app].
      exists m, (c :: cs). destruct rec as [a n]. cbn [fst snd]. repeat split; auto.
      rewrite Eov, <- app_assoc in E. apply app_inv_head in E. exact E.
Qed.

Lemma concat_nonempty_nil : forall cs : list (list Z),
  Forall (fun c => c <> []) cs -> concat cs = [] -> cs = [].
Proof.
  intros [|c cs] H E; [reflexivity|]. inversion H; subst.
  cbn in E. apply app_eq_nil in E as [-> _]. congruence.
Qed.

Lemma xben_collect_frames : forall variant frames,
  Forall (fun fr => xben_frame variant (fst fr) (snd fr)) frames ->
  forall cs ov fuel, Forall (fun c => c <> []) cs -> ov ++ concat cs = concat (map fst frames) ->
  (length frames < fuel)%nat ->
  xben_collect fuel {| xvariant := variant; overflow := ov; chunks := cs |}
  = (map snd frames, Finished).
Proof.
  intros variant frames; induction frames as [|[F rec] frames IH]; intros Hfr cs ov fuel Hne E Hf;
    destruct fuel as [|fuel]; try (cbn in Hf; lia).
  - cbn [map concat] in E. apply app_eq_nil in E as [-> E].
    rewrite (concat_nonempty_nil cs Hne E).
    cbn [xben_collect]. unfold xben_next. cbn [xben_next_loop xvariant overflow chunks length].
    destruct variant; reflexivity.
  - inversion Hfr as [|? ? HF Hfrs]; subst. cbn [fst snd] in HF.
    cbn [xben_collect]. unfold xben_next. cbn [chunks].
    destruct (xben_next_frame variant F rec (concat (map fst frames)) HF cs ov (S (S (length cs)))
                Hne E ltac:(lia)) as (ov' & cs' & N & R1 & R2 & R3).
    rewrite N. rewrite IH by (auto; cbn in Hf; lia). reflexivity.
Qed.

Lemma frames_length : forall variant frames,
  Forall (fun fr => xben_frame variant (fst fr) (snd fr)) frames ->
  (length frames <= length (concat (map fst frames)))%nat.
Proof.
  intros variant frames; induction frames as [|[F rec] frames IH]; intros H; [cbn; lia|].
  inversion H as [|? ? (H1 & _) Hs]; subst. cbn [map concat length]. rewrite length_app. cbn [fst].
  specialize (IH Hs). cbn [fst] in H1. lia.
Qed.

Lemma xben_decode_frames : forall variant frames cs,
  Forall (fun fr => xben_frame variant (fst fr) (snd fr)) frames ->
  Forall (fun c => c <> []) cs -> concat cs = concat (map fst frames) ->
  xben_decode_all variant cs = (map snd frames, Finished).
Proof.
  intros variant frames cs Hfr Hne E. unfold xben_decode_all.
  apply xben_collect_frames; auto.
  rewrite E. pose proof (frames_length variant frames Hfr). lia.
Qed.

Lemma ben32_line_spec : forall p v, ben32_ok v ->
  exists line, encode_ben32_line p v = Some line
  /\ xben_frame Standard line (v, 1)
  /\ (forall c, 0 <= c < 2 ^ 16 -> xben_frame MkvChain (line ++ u16_to_be_bytes c) (v, c))
  /\ (4 <= length line)%nat.
Proof.
  intros p v (R & Hc & Hv & <-).
  pose proof (canonical_runs_u16 R None Hc Hv) as HR.
  exists (flat_map (fun r => ben32_word (fst r) (snd r)) R ++ [0; 0; 0; 0]).
  split; [|split; [|split]].
  - apply encode_ben32_line_runs; auto.
  - apply xben_frame_std; auto.
  - intros c Hc16. rewrite <- app_assoc. apply xben_frame_mkv; auto.
  - rewrite length_app. cbn [length]. lia.
Qed.

Lemma ben32_line_inj : forall p v u line, ben32_ok v -> ben32_ok u ->
  encode_ben32_line p v = Some line -> encode_ben32_line p u = Some line -> v = u.
Proof.
  intros p v u line Hv Hu Ev Eu.
  destruct (ben32_line_spec p v Hv) as (lv & Ev' & (_ & _ & _ & cv & Dv) & _).
  destruct (ben32_line_spec p u Hu) as (lu & Eu' & (_ & _ & _ & cu & Du) & _).
  rewrite Ev in Ev'. rewrite Eu in Eu'. injection Ev' as <-. injection Eu' as <-.
  rewrite Dv in Du. cbn [fst] in Du. congruence.
Qed.

Lemma ben32_frame_xben : forall variant F rec,
  ben32_frame variant F rec -> xben_frame variant F rec.
Proof.
  intros [|] F rec (R & HR & H).
  - destruct H as [-> ->]. apply xben_frame_std; exact HR.
  - destruct H as (c & Hc & -> & ->). apply xben_frame_mkv; auto; lia.
Qed.

Lemma ben32_line_frame : forall p v line, ben32_ok v -> encode_ben32_line p v = Some line ->
  ben32_frame Standard line (v, 1)
  /\ forall c, 1 <= c < 2 ^ 16 -> ben32_frame MkvChain (line ++ u16_to_be_bytes c) (v, c).
Proof.
  intros p v line (R & Hc & Hv & <-) E.
  pose proof (canonical_runs_u16 R None Hc Hv) as HR.
  rewrite encode_ben32_line_runs in E by auto. injection E as <-.
  split.
  - exists R. split; [exact HR | split; reflexivity].
  - intros c Hc16. exists R. split; [exact HR|].
    exists c. split; [exact Hc16 | split; [rewrite <- app_assoc; reflexivity | reflexivity]].
Qed.

Lemma ben32_frame_length : forall variant F rec, ben32_frame variant F rec -> (4 <= length F)%nat.
Proof.
  intros [|] F rec (R & HR & H).
  - destruct H as [-> _]. rewrite length_app. cbn [length]. lia.
  - destruct H as (c & _ & -> & _). rewrite !length_app. cbn [length]. lia.
Qed.

Lemma xwrite_all_app : forall p e l1 l2,
  xwrite_all p e (l1 ++ l2) = match xwrite_all p e l1 with
                              | Some e' => xwrite_all p e' l2
                              | None => None
                              end.
Proof.
  intros p e l1; revert e; induction l1 as [|v l1 IH]; intros e l2; [reflexivity|].
  cbn [app xwrite_all]. destruct (write_json_value p e v); [apply IH | reflexivity].
Qed.

Lemma xwrite_standard : forall p vs w ps c, Forall ben32_ok vs ->
  exists frames,
    xwrite_all p (mkXBenEncoder w ps c Standard) vs
      = Some (mkXBenEncoder (w ++ concat (map fst frames)) ps c Standard)
    /\ Forall (fun fr => ben32_frame Standard (fst fr) (snd fr)) frames
    /\ map snd frames = map (fun v => (v, 1)) vs.
Proof.
  intros p vs; induction vs as [|v vs IH]; intros w ps c Hok.
  - exists []. rewrite app_nil_r. split; [reflexivity | split; [constructor | reflexivity]].
  - inversion Hok as [|? ? Hv Hvs]; subst.
    destruct (ben32_line_spec p v Hv) as (line & E & _).
    pose proof (proj1 (ben32_line_frame p v line Hv E)) as Hf.
    destruct (IH (w ++ line) ps c Hvs) as (frames & W & Hfs & Hs).
    exists ((line, (v, 1)) :: frames). split; [|split].
    + cbn [xwrite_all]. unfold write_json_value. rewrite E. cbn [xenc_variant encoder
        xprevious_sample xcount]. rewrite W. cbn [map concat fst]. rewrite app_assoc. reflexivity.
    + constructor; auto.
    + cbn [map snd]. rewrite Hs. reflexivity.
Qed.

Lemma xwrite_repeat_mkv : forall p v line w c m,
  encode_ben32_line p v = Some line -> 1 <= c -> c + Z.of_nat m < 2 ^ 16 ->
  xwrite_all p (mkXBenEncoder w line c MkvChain) (repeat v m)
  = Some (mkXBenEncoder w line (c + Z.of_nat m) MkvChain).
Proof.
  intros p v line w c m E; revert c; induction m as [|m IH]; intros c H1 H2.
  - rewrite Z.add_0_r. reflexivity.
  - cbn [repeat xwrite_all]. unfold write_json_value. rewrite E.
    cbn [xenc_variant encoder xprevious_sample xcount].
    replace (list_Z_eqb line line) with true by (symmetry; apply list_Z_eqb_spec; reflexivity).
    unfold u16_add. replace (c + 1 <? 2 ^ 16) with true by (symmetry; apply Z.ltb_lt; lia).
    rewrite IH by lia. do 2 f_equal. lia.
Qed.

Lemma xwrite_groups_mkv : forall p groups w pl c prevv,
  xgroups_ok prevv groups ->
  match prevv with
  | None => pl = [] /\ c = 0
  | Some u => ben32_ok u /\ encode_ben32_line p u = Some pl /\ 1 <= c < 2 ^ 16
  end ->
  exists e frames,
    xwrite_all p (mkXBenEncoder w pl c MkvChain) (expand_groups groups) = Some e
    /\ drop_xencoder e = w ++ concat (map fst frames)
    /\ Forall (fun fr => ben32_frame MkvChain (fst fr) (snd fr)) frames
    /\ map snd frames
       = (match prevv with None => [] | Some u => [(u, c)] end) ++ group_records groups.
Proof.
  intros p groups; induction groups as [|[v k] gs IH]; intros w pl c prevv Hg Hp.
  - exists (mkXBenEncoder w pl c MkvChain).
    destruct prevv as [u|].
    + destruct Hp as (Hu & Hl & Hc).
      pose proof (proj2 (ben32_line_frame p u pl Hu Hl)) as Hm.
      exists [(pl ++ u16_to_be_bytes c, (u, c))].
      split; [reflexivity | split; [|split; [|reflexivity]]].
      * unfold drop_xencoder; cbn [xenc_variant encoder xprevious_sample xcount].
        replace (0 <? c) with true by (symmetry; apply Z.ltb_lt; lia).
        cbn [map concat fst]. rewrite !app_nil_r, app_assoc. reflexivity.
      * constructor; [apply Hm; lia | constructor].
    + destruct Hp as [-> ->]. exists [].
      split; [reflexivity | split; [|split; [constructor | reflexivity]]].
      cbn. rewrite app_nil_r; reflexivity.
  - destruct Hg as (Hv & Hk & Hne & Hgs).
    destruct (ben32_line_spec p v Hv) as (line & E & _ & _ & Hl).
    destruct k as [|k']; [lia|].
    set (w' := match prevv with None => w | Some _ => w ++ pl ++ u16_to_be_bytes c end).
    assert (W1 : write_json_value p (mkXBenEncoder w pl c MkvChain) v
                 = Some (mkXBenEncoder w' line 1 MkvChain)).
    { unfold write_json_value. rewrite E. cbn [xenc_variant encoder xprevious_sample xcount].
      replace (list_Z_eqb line pl) with false.
      - unfold w'. destruct prevv as [u|].
        + replace (0 <? c) with true by (symmetry; apply Z.ltb_lt; lia). reflexivity.
        + destruct Hp as [-> ->]. reflexivity.
      - symmetry. apply not_true_iff_false. rewrite list_Z_eqb_spec. intros ->.
        destruct prevv as [u|].
        + destruct Hp as (Hu & Hpl & _). apply Hne. f_equal.
          apply (ben32_line_inj p u v pl); auto.
        + destruct Hp as [-> _]. cbn in Hl. lia. }
    destruct (IH w' line (1 + Z.of_nat k') (Some v) Hgs ltac:(repeat split; auto; lia))
      as (e & frames & We & De & Hfs & Hs).
    exists e.
    exists ((match prevv with None => [] | Some u => [(pl ++ u16_to_be_bytes c, (u, c))] end)
            ++ frames).
    split; [|split; [|split]].
    + unfold expand_groups. cbn [flat_map fst snd repeat]. fold (expand_groups gs).
      cbn [app xwrite_all]. rewrite W1, xwrite_all_app.
      rewrite xwrite_repeat_mkv with (line := line) by (auto; lia). exact We.
    + rewrite De. unfold w'. destruct prevv; cbn [app map concat fst]; rewrite ?app_nil_r, ?app_assoc;
        reflexivity.
    + apply Forall_app; split; [|exact Hfs].
      destruct prevv as [u|]; [|constructor].
      destruct Hp as (Hu & Hpl & Hc).
      pose proof (proj2 (ben32_line_frame p u pl Hu Hpl)) as Hm.
      constructor; [apply Hm; lia | constructor].
    + rewrite map_app. unfold MkvRecord in *. rewrite Hs. unfold group_records. cbn [map fst snd].
      replace (1 + Z.of_nat k') with (Z.of_nat (S k')) by lia.
      destruct prevv; reflexivity.
Qed.

Theorem xben_standard_roundtrip : forall p vs, Forall ben32_ok vs ->
  exists s body, jsonl_encode_xben p Standard vs = Some s
  /\ XBenDecoder_new s = inl (Standard, body)
  /\ forall cs, Forall (fun c => c <> []) cs -> concat cs = body ->
       xben_decode_all Standard cs = (map (fun v => (v, 1)) vs, Finished).
Proof.
  intros p vs Hok.
  destruct (xwrite_standard p vs STANDARD_BANNER [] 0 Hok) as (frames & W & Hfs & Hs).
  exists (STANDARD_BANNER ++ concat (map fst frames)), (concat (map fst frames)).
  split; [|split].
  - unfold jsonl_encode_xben. change (XBenEncoder_new Standard) with
      (mkXBenEncoder STANDARD_BANNER [] 0 Standard).
    rewrite W. reflexivity.
  - unfold XBenDecoder_new. change 17%nat with (length STANDARD_BANNER).
    rewrite read_exact_app. reflexivity.
  - intros cs Hne E. rewrite <- Hs.
    assert (Hx : Forall (fun fr => xben_frame Standard (fst fr) (snd fr)) frames)
      by (eapply Forall_impl; [|exact Hfs]; intros fr; apply ben32_frame_xben).
    apply xben_decode_frames; auto.
Qed.

Lemma xben_standard_roundtrip_witness :
  Forall ben32_ok [[3; 3; 5]; [5]]
  /\ exists s body, jsonl_encode_xben Release Standard [[3; 3; 5]; [5]] = Some s
  /\ XBenDecoder_new s = inl (Standard, body)
  /\ forall cs, Forall (fun c => c <> []) cs -> concat cs = body ->
       xben_decode_all Standard cs = ([([3; 3; 5], 1); ([5], 1)], Finished).
Proof.
  assert (H : Forall ben32_ok [[3; 3; 5]; [5]]).
  { constructor; [exists [(3, 2); (5, 1)] | constructor; [exists [(5, 1)] | constructor]];
      (split; [cbn; repeat split; (lia || discriminate) |
               split; [repeat constructor; cbn; lia | reflexivity]]). }
  exact (conj H (xben_standard_roundtrip Release _ H)).
Defined.

Theorem xben_mkv_roundtrip : forall p groups, xgroups_ok None groups ->
  exists s body, jsonl_encode_xben p MkvChain (expand_groups groups) = Some s
  /\ XBenDecoder_new s = inl (MkvChain, body)
  /\ forall cs, Forall (fun c => c <> []) cs -> concat cs = body ->
       xben_decode_all MkvChain cs = (group_records groups, Finished).
Proof.
  intros p groups Hg.
  destruct (xwrite_groups_mkv p groups MKVCHAIN_BANNER [] 0 None Hg (conj eq_refl eq_refl))
    as (e & frames & W & D & Hfs & Hs).
  exists (MKVCHAIN_BANNER ++ concat (map fst frames)), (concat (map fst frames)).
  split; [|split].
  - unfold jsonl_encode_xben. change (XBenEncoder_new MkvChain) with
      (mkXBenEncoder MKVCHAIN_BANNER [] 0 MkvChain).
    rewrite W, D. reflexivity.
  - unfold XBenDecoder_new. change 17%nat with (length MKVCHAIN_BANNER).
    rewrite read_exact_app. reflexivity.
  - intros cs Hne E. unfold MkvRecord in *. cbn [app] in Hs. rewrite <- Hs.
    assert (Hx : Forall (fun fr => xben_frame MkvChain (fst fr) (snd fr)) frames)
      by (eapply Forall_impl; [|exact Hfs]; intros fr; apply ben32_frame_xben).
    apply xben_decode_frames; auto.
Qed.

Lemma xben_mkv_roundtrip_witness :
  xgroups_ok None [([3; 3; 5], 2%nat); ([5], 1%nat)]
  /\ exists s body,
    jsonl_encode_xben Debug MkvChain (expand_groups [([3; 3; 5], 2%nat); ([5], 1%nat)]) = Some s
  /\ XBenDecoder_new s = inl (MkvChain, body)
  /\ forall cs, Forall (fun c => c <> []) cs -> concat cs = body ->
       xben_decode_all MkvChain cs = ([([3; 3; 5], 2); ([5], 1)], Finished).
Proof.
  assert (H : xgroups_ok None [([3; 3; 5], 2%nat); ([5], 1%nat)]).
  { cbn [xgroups_ok]. refine (conj _ (conj _ (conj _ (conj _ (conj _ (conj _ I)))))).
    - exists [(3, 2); (5, 1)].
      split; [cbn; repeat split; (lia || discriminate) |
              split; [repeat constructor; cbn; lia | reflexivity]].
    - cbn; lia.
    - discriminate.
    - exists [(5, 1)].
      split; [cbn; repeat split; (lia || discriminate) |
              split; [repeat constructor; cbn; lia | reflexivity]].
    - cbn; lia.
    - discriminate. }
  exact (conj H (xben_mkv_roundtrip Debug _ H)).
Defined.

(** ** The bit-unpacker keeps its runs in range *)









(** ** JSONL numbering *)

Lemma numbered_cons : forall v vs n, numbered (v :: vs) n = (v, S n) :: numbered vs (S n).
Proof. reflexivity. Qed.

Lemma numbered_app : forall l1 l2 n,
  numbered (l1 ++ l2) n = numbered l1 n ++ numbered l2 (n + length l1).
Proof.
  induction l1 as [|v l1 IH]; intros l2 n.
  - cbn. rewrite Nat.add_0_r. reflexivity.
  - cbn [app length]. rewrite !numbered_cons, IH. cbn [app].
    rewrite Nat.add_succ_r. reflexivity.
Qed.

Lemma numbered_repeat : forall a k n, numbered (repeat a k) n = jsonl_lines a k n.
Proof.
  induction k as [|k IH]; intros n; [reflexivity|].
  cbn [repeat jsonl_lines]. rewrite numbered_cons, IH. reflexivity.
Qed.

(** A run list encoded as one BEN line by [encode_ben_vec_from_rle] is read
    back by [decode_ben_line], called with the header's widths and byte count,
    as the same runs, leaving the bytes after the line unread. *)
Theorem ben_line_roundtrip : forall p rle rest,
  rle <> [] -> u16_runs rle -> Z.of_nat (length rle) < 2 ^ 27 ->
  exists vb lb n payload,
    encode_ben_vec_from_rle p rle = Some ([vb; lb] ++ u32_to_be_bytes n ++ payload)
    /\ forall q : Profile, decode_ben_line q (payload ++ rest) vb lb n = Some (Ok rle, rest).
Proof.
  intros p rle rest Hne Hu Hlen.
  destruct (encode_line_spec p rle Hne Hu Hlen) as (vb & lb & body & E & Hvb & Hlb & Hby & Hb & D).
  exists vb, lb, (Z.of_nat (length body)), body. split; [exact E|].
  intros q. rewrite decode_ben_line_pure by assumption. rewrite D. reflexivity.
Qed.

Lemma ben_line_roundtrip_witness :
  [(1, 3); (2, 3)] <> [] /\ u16_runs [(1, 3); (2, 3)] /\ Z.of_nat (length [(1, 3); (2, 3)]) < 2 ^ 27
  /\ exists vb lb n payload,
    encode_ben_vec_from_rle Debug [(1, 3); (2, 3)] = Some ([vb; lb] ++ u32_to_be_bytes n ++ payload)
    /\ forall q : Profile, decode_ben_line q (payload ++ [9]) vb lb n = Some (Ok [(1, 3); (2, 3)], [9]).
Proof.
  assert (H1 : [(1, 3); (2, 3)] <> @nil run) by discriminate.
  assert (H2 : u16_runs [(1, 3); (2, 3)]) by (repeat constructor; cbn; lia).
  assert (H3 : Z.of_nat (length [(1, 3); (2, 3)]) < 2 ^ 27) by (cbn; lia).
  exact (conj H1 (conj H2 (conj H3 (ben_line_roundtrip Debug _ [9] H1 H2 H3)))).
Defined.



Lemma jsonl_collect_eq : forall q fuel variant sample_count inp,
  write_all_jsonl q fuel variant sample_count inp
  = (numbered (expand (fst (ben_decoder_collect q fuel variant inp))) sample_count,
     outcome_result (snd (ben_decoder_collect q fuel variant inp))).
Proof.
  intros q; induction fuel as [|fuel IH]; intros variant n inp; [reflexivity|].
  cbn [write_all_jsonl ben_decoder_collect].
  destruct (ben_decoder_next q variant inp) as [[[a c]|e| |] rest]; try reflexivity.
  rewrite IH. destruct (ben_decoder_collect q fuel variant rest) as [rs o].
  cbn [fst snd]. unfold expand. cbn [flat_map fst snd]. fold (expand rs).
  rewrite numbered_app, numbered_repeat, repeat_length. reflexivity.
Qed.

(** [decode_ben_to_jsonl] on a Standard BEN stream written by [BenEncoder]
    writes each sample once, numbered from 1, and succeeds. *)
Theorem ben_to_jsonl_standard : forall p vs, Forall roundtrip_ok vs ->
  exists s, encode_ben_stream p Standard vs = Some s
  /\ forall q : Profile, decode_ben_to_jsonl q s = (numbered vs 0, Some (Ok tt)).
Proof.
  intros p vs Hok.
  destruct (standard_stream_roundtrip p vs Hok) as (s & E & D & X & _).
  exists s. split; [exact E|].
  intros q. specialize (D q).
  unfold ben_decode_stream in D. unfold decode_ben_to_jsonl.
  destruct (BenDecoder_new s) as [[variant rest]|err]; [|discriminate].
  rewrite jsonl_collect_eq.
  set (col := ben_decoder_collect q (S (length rest)) variant rest) in *.
  injection D as D. rewrite D. cbn [fst snd]. rewrite X. reflexivity.
Qed.

Lemma ben_to_jsonl_standard_witness :
  Forall roundtrip_ok [[1; 1; 2]; [3]]
  /\ exists s, encode_ben_stream Release Standard [[1; 1; 2]; [3]] = Some s
  /\ forall q : Profile, decode_ben_to_jsonl q s = ([([1; 1; 2], 1%nat); ([3], 2%nat)], Some (Ok tt)).
Proof.
  assert (H : Forall roundtrip_ok [[1; 1; 2]; [3]]).
  { repeat constructor; unfold valid_value; cbn; (lia || discriminate). }
  exact (conj H (ben_to_jsonl_standard Release _ H)).
Defined.

(** [decode_ben_to_jsonl] on a MkvChain BEN stream writes every repeated
    sample, numbered from 1, and succeeds. *)
Theorem ben_to_jsonl_mkv : forall p groups, mkv_groups_ok None groups ->
  exists s, encode_ben_stream p MkvChain (expand_groups groups) = Some s
  /\ forall q : Profile, decode_ben_to_jsonl q s = (numbered (expand_groups groups) 0, Some (Ok tt)).
Proof.
  intros p groups Hg.
  destruct (mkv_stream_roundtrip p groups Hg) as (s & E & D & X).
  exists s. split; [exact E|].
  intros q. specialize (D q).
  unfold ben_decode_stream in D. unfold decode_ben_to_jsonl.
  destruct (BenDecoder_new s) as [[variant rest]|err]; [|discriminate].
  rewrite jsonl_collect_eq.
  set (col := ben_decoder_collect q (S (length rest)) variant rest) in *.
  injection D as D. rewrite D. cbn [fst snd]. rewrite X. reflexivity.
Qed.

Lemma ben_to_jsonl_mkv_witness :
  mkv_groups_ok None [([1; 1; 2], 2%nat); ([3], 1%nat)]
  /\ exists s, encode_ben_stream Debug MkvChain (expand_groups [([1; 1; 2], 2%nat); ([3], 1%nat)]) = Some s
  /\ forall q : Profile, decode_ben_to_jsonl q s = ([([1; 1; 2], 1%nat); ([1; 1; 2], 2%nat); ([3], 3%nat)], Some (Ok tt)).
Proof.
  assert (H : mkv_groups_ok None [([1; 1; 2], 2%nat); ([3], 1%nat)]).
  { cbn [mkv_groups_ok]. unfold roundtrip_ok, valid_assignment, valid_value.
    repeat split; repeat constructor; cbn; (lia || discriminate). }
  exact (conj H (ben_to_jsonl_mkv Debug _ H)).
Defined.

Lemma words_as_bytes : forall R, Forall u16run R ->
  flat_map (fun r => ben32_word (fst r) (snd r)) R
  = flat_map (fun r => [fst r / 256; fst r mod 256; snd r / 256; snd r mod 256]) R.
Proof.
  induction R as [|r R IH]; intros HR; [reflexivity|].
  inversion HR as [|? ? [Hv Hc] HR']; subst. cbn [flat_map].
  rewrite ben32_word_bytes by lia. rewrite IH by exact HR'. reflexivity.
Qed.

(** [encode_ben32_line] writes, per maximal run, the value's two bytes and
    the length's two bytes (big-endian), then the zero word. *)
Theorem encode_ben32_line_layout : forall p R,
  canonical_rle None R -> Forall (fun r => 0 <= fst r < 2 ^ 16) R ->
  encode_ben32_line p (rle_to_vec R)
  = Some (flat_map (fun r => [fst r / 256; fst r mod 256; snd r / 256; snd r mod 256]) R
          ++ [0; 0; 0; 0]).
Proof.
  intros p R Hc Hv.
  rewrite encode_ben32_line_runs by assumption.
  rewrite words_as_bytes by exact (canonical_runs_u16 R None Hc Hv). reflexivity.
Qed.

Lemma encode_ben32_line_layout_witness :
  canonical_rle None [(1, 3); (258, 2)] /\ Forall (fun r => 0 <= fst r < 2 ^ 16) [(1, 3); (258, 2)]
  /\ encode_ben32_line Debug [1; 1; 1; 258; 258] = Some [0; 1; 0; 3; 1; 2; 0; 2; 0; 0; 0; 0].
Proof.
  assert (H1 : canonical_rle None [(1, 3); (258, 2)]) by (cbn; repeat split; (lia || discriminate)).
  assert (H2 : Forall (fun r => 0 <= fst r < 2 ^ 16) [(1, 3); (258, 2)])
    by (repeat constructor; cbn; lia).
  refine (conj H1 (conj H2 _)).
  exact (encode_ben32_line_layout Debug _ H1 H2).
Defined.

(** A ben32 line decodes to the sample it encodes, with count 1 in Standard
    frames and the two-byte count that follows it in MkvChain frames. *)
Theorem ben32_line_roundtrip : forall p v, ben32_ok v ->
  exists line, encode_ben32_line p v = Some line
  /\ decode_ben32_line line Standard = Some (Ok (v, 1))
  /\ forall c, 0 <= c < 2 ^ 16 ->
       decode_ben32_line (line ++ u16_to_be_bytes c) MkvChain = Some (Ok (v, c)).
Proof.
  intros p v (R & Hc & Hv & <-).
  pose proof (canonical_runs_u16 R None Hc Hv) as HR.
  exists (flat_map (fun r => ben32_word (fst r) (snd r)) R ++ [0; 0; 0; 0]).
  split; [apply encode_ben32_line_runs; auto|]. split.
  - pose proof (proj1 (decode_ben32_runs R [] HR)) as D.
    rewrite app_nil_r in D. exact D.
  - intros c Hc16. rewrite <- app_assoc.
    apply (proj2 (decode_ben32_runs R (u16_to_be_bytes c) HR) c []);
      [rewrite app_nil_r; reflexivity | exact Hc16].
Qed.

Lemma ben32_line_roundtrip_witness :
  ben32_ok [4; 4; 9]
  /\ exists line, encode_ben32_line Release [4; 4; 9] = Some line
  /\ decode_ben32_line line Standard = Some (Ok ([4; 4; 9], 1))
  /\ forall c, 0 <= c < 2 ^ 16 ->
       decode_ben32_line (line ++ u16_to_be_bytes c) MkvChain = Some (Ok ([4; 4; 9], c)).
Proof.
  assert (H : ben32_ok [4; 4; 9]).
  { exists [(4, 2); (9, 1)].
    split; [cbn; repeat split; (lia || discriminate) |
            split; [repeat constructor; cbn; lia | reflexivity]]. }
  exact (conj H (ben32_line_roundtrip Release _ H)).
Defined.

(** In a release build a run of [m] equal values, each an integer in
    [0, 2^64 - 1] that [as_u64] accepts, gets length [m mod 2^16]; a run of
    a multiple of [2^16] values vanishes from the line. *)
Theorem encode_ben32_line_long_run_release : forall x m, 0 <= x < 2 ^ 64 -> (1 <= m)%nat ->
  encode_ben32_line Release (repeat x m)
  = Some ((if 0 <? Z.of_nat m mod 2 ^ 16
           then ben32_word (x mod 2 ^ 16) (Z.of_nat m mod 2 ^ 16) else [])
          ++ [0; 0; 0; 0]).
Proof.
  intros x [|m] Hx Hm; [lia|].
  unfold encode_ben32_line. cbn [repeat ben32_loop].
  rewrite u64_in_range by lia; cbn [negb].
  rewrite (ben32_loop_release m x (x mod 2 ^ 16) 1) by (auto; lia).
  replace (1 + Z.of_nat m) with (Z.of_nat (S m)) by lia. reflexivity.
Qed.

Lemma encode_ben32_line_long_run_release_witness :
  0 <= 7 < 2 ^ 64 /\ (1 <= Z.to_nat 65536)%nat
  /\ encode_ben32_line Release (repeat 7 (Z.to_nat 65536)) = Some [0; 0; 0; 0].
Proof.
  assert (H0 : 0 <= 7 < 2 ^ 64) by lia.
  assert (H : (1 <= Z.to_nat 65536)%nat) by lia.
  refine (conj H0 (conj H _)).
  rewrite (encode_ben32_line_long_run_release 7 (Z.to_nat 65536) H0 H).
  rewrite Z2Nat.id by lia. reflexivity.
Defined.

(** In a debug build a run of [2^16] or more equal values, each an integer
    in [0, 2^64 - 1] that [as_u64] accepts, panics on [count += 1]. *)
Theorem encode_ben32_line_long_run_debug : forall x m, 0 <= x < 2 ^ 64 -> (1 <= m)%nat ->
  encode_ben32_line Debug (repeat x m)
  = if Z.of_nat m <? 2 ^ 16
    then Some (ben32_word (x mod 2 ^ 16) (Z.of_nat m) ++ [0; 0; 0; 0])
    else None.
Proof.
  intros x [|m] Hx Hm; [lia|].
  unfold encode_ben32_line. cbn [repeat ben32_loop].
  rewrite u64_in_range by lia; cbn [negb].
  destruct (Z.of_nat (S m) <? 2 ^ 16) eqn:E.
  - apply Z.ltb_lt in E.
    rewrite (ben32_loop_debug_ok m x (x mod 2 ^ 16) 1) by (auto; lia).
    replace (1 + Z.of_nat m) with (Z.of_nat (S m)) by lia.
    replace (0 <? Z.of_nat (S m)) with true by (symmetry; apply Z.ltb_lt; lia). reflexivity.
  - apply Z.ltb_ge in E.
    rewrite (ben32_loop_debug_overflow m x (x mod 2 ^ 16) 1) by (auto; lia). reflexivity.
Qed.

Lemma encode_ben32_line_long_run_debug_witness :
  0 <= 7 < 2 ^ 64 /\ (1 <= Z.to_nat 65536)%nat
  /\ encode_ben32_line Debug (repeat 7 (Z.to_nat 65536)) = None.
Proof.
  assert (H0 : 0 <= 7 < 2 ^ 64) by lia.
  assert (H : (1 <= Z.to_nat 65536)%nat) by lia.
  refine (conj H0 (conj H _)).
  rewrite (encode_ben32_line_long_run_debug 7 (Z.to_nat 65536) H0 H).
  rewrite Z2Nat.id by lia. reflexivity.
Defined.

(** [extract_assignment_ben] refuses MkvChain streams with [InvalidData]. *)
Theorem extract_rejects_mkvchain : forall q rest n, (1 <= n)%nat ->
  extract_assignment_ben q (MKVCHAIN_BANNER ++ rest) n = Some (inr (IoError InvalidData)).
Proof.
  intros q rest n Hn. unfold extract_assignment_ben.
  replace (n =? 0)%nat with false by (symmetry; apply Nat.eqb_neq; lia).
  change 17%nat with (length MKVCHAIN_BANNER). rewrite read_exact_app. reflexivity.
Qed.

Lemma extract_rejects_mkvchain_witness :
  (1 <= 2)%nat
  /\ extract_assignment_ben Debug (MKVCHAIN_BANNER ++ [1; 1; 0; 0; 0; 1; 128; 0; 1]) 2
     = Some (inr (IoError InvalidData)).
Proof.
  assert (H : (1 <= 2)%nat) by lia.
  exact (conj H (extract_rejects_mkvchain Debug _ 2 H)).
Defined.

(** Inputs shorter than the 17-byte banner make [BenDecoder::new],
    [XBenDecoder::new] and [extract_assignment_ben] fail with
    [UnexpectedEof]. *)
Theorem readers_short_input : forall inp, (length inp < 17)%nat ->
  BenDecoder_new inp = inr (InitIo UnexpectedEof)
  /\ XBenDecoder_new inp = inr UnexpectedEof
  /\ forall q n, (1 <= n)%nat -> extract_assignment_ben q inp n = Some (inr (IoError UnexpectedEof)).
Proof.
  intros inp Hl.
  assert (R : read_exact 17 inp = None).
  { unfold read_exact. replace (17 <=? length inp)%nat with false
      by (symmetry; apply Nat.leb_gt; exact Hl). reflexivity. }
  unfold BenDecoder_new, XBenDecoder_new, extract_assignment_ben. rewrite R.
  split; [reflexivity | split; [reflexivity|]].
  intros q n Hn. replace (n =? 0)%nat with false by (symmetry; apply Nat.eqb_neq; lia).
  reflexivity.
Qed.

Lemma readers_short_input_witness :
  (length (firstn 16 STANDARD_BANNER) < 17)%nat
  /\ BenDecoder_new (firstn 16 STANDARD_BANNER) = inr (InitIo UnexpectedEof)
  /\ XBenDecoder_new (firstn 16 STANDARD_BANNER) = inr UnexpectedEof
  /\ forall q n, (1 <= n)%nat ->
       extract_assignment_ben q (firstn 16 STANDARD_BANNER) n = Some (inr (IoError UnexpectedEof)).
Proof.
  assert (H : (length (firstn 16 STANDARD_BANNER) < 17)%nat) by (vm_compute; lia).
  exact (conj H (readers_short_input _ H)).
Defined.

Lemma encode_ben32_line_len : forall p v line, encode_ben32_line p v = Some line ->
  (4 <= length line)%nat.
Proof.
  intros p v line E. unfold encode_ben32_line in E.
  destruct (ben32_loop p true 0 0 v) as [[ret [pa c]]|]; [|discriminate].
  injection E as <-. rewrite !length_app. cbn [length]. lia.
Qed.

Lemma xwrite_repeat_release : forall v line w c m,
  encode_ben32_line Release v = Some line -> 0 <= c < 2 ^ 16 ->
  xwrite_all Release (mkXBenEncoder w line c MkvChain) (repeat v m)
  = Some (mkXBenEncoder w line ((c + Z.of_nat m) mod 2 ^ 16) MkvChain).
Proof.
  intros v line w c m E; revert c; induction m as [|m IH]; intros c Hc.
  - rewrite Z.add_0_r, Z.mod_small by lia. reflexivity.
  - cbn [repeat xwrite_all]. unfold write_json_value. rewrite E.
    cbn [xenc_variant encoder xprevious_sample xcount].
    replace (list_Z_eqb line line) with true by (symmetry; apply list_Z_eqb_spec; reflexivity).
    assert (U : u16_add Release c 1 = Some ((c + 1) mod 2 ^ 16)).
    { unfold u16_add. destruct (c + 1 <? 2 ^ 16) eqn:E1; [|reflexivity].
      apply Z.ltb_lt in E1. rewrite Z.mod_small by lia. reflexivity. }
    rewrite U, IH by (apply Z.mod_pos_bound; lia).
    rewrite Zplus_mod_idemp_l. replace (c + 1 + Z.of_nat m) with (c + Z.of_nat (S m)) by lia.
    reflexivity.
Qed.

Lemma xwrite_repeat_debug_overflow : forall v line w c m,
  encode_ben32_line Debug v = Some line -> 0 <= c < 2 ^ 16 -> 2 ^ 16 <= c + Z.of_nat m ->
  xwrite_all Debug (mkXBenEncoder w line c MkvChain) (repeat v m) = None.
Proof.
  intros v line w c m E; revert c; induction m as [|m IH]; intros c Hc Hm; [lia|].
  cbn [repeat xwrite_all]. unfold write_json_value. rewrite E.
  cbn [xenc_variant encoder xprevious_sample xcount].
  replace (list_Z_eqb line line) with true by (symmetry; apply list_Z_eqb_spec; reflexivity).
  unfold u16_add. destruct (c + 1 <? 2 ^ 16) eqn:E1; [|reflexivity].
  apply Z.ltb_lt in E1. apply IH; lia.
Qed.

Lemma xwrite_first_mkv : forall p v line,
  encode_ben32_line p v = Some line ->
  write_json_value p (XBenEncoder_new MkvChain) v
  = Some (mkXBenEncoder MKVCHAIN_BANNER line 1 MkvChain).
Proof.
  intros p v line E. unfold write_json_value. rewrite E. cbn [XBenEncoder_new xenc_variant
    encoder xprevious_sample xcount].
  replace (list_Z_eqb line []) with false.
  - reflexivity.
  - symmetry. apply not_true_iff_false. rewrite list_Z_eqb_spec. intros ->.
    apply encode_ben32_line_len in E. cbn in E. lia.
Qed.

(** In a release build, [2^16] equal samples written to a MkvChain
    [XBenEncoder] wrap its count to 0, and [Drop] writes nothing for them. *)
Theorem xben_mkv_repeat_release : forall v line m,
  encode_ben32_line Release v = Some line ->
  jsonl_encode_xben Release MkvChain (repeat v (S m))
  = Some (MKVCHAIN_BANNER ++
          (if 0 <? Z.of_nat (S m) mod 2 ^ 16
           then line ++ u16_to_be_bytes (Z.of_nat (S m) mod 2 ^ 16) else [])).
Proof.
  intros v line m E. unfold jsonl_encode_xben. cbn [repeat xwrite_all].
  rewrite (xwrite_first_mkv Release v line E).
  rewrite xwrite_repeat_release by (auto; lia).
  unfold drop_xencoder; cbn [xenc_variant encoder xprevious_sample xcount].
  replace (1 + Z.of_nat m) with (Z.of_nat (S m)) by lia.
  destruct (0 <? Z.of_nat (S m) mod 2 ^ 16); [reflexivity|].
  rewrite app_nil_r. reflexivity.
Qed.

Lemma xben_mkv_repeat_release_witness :
  encode_ben32_line Release [5] = Some [0; 5; 0; 1; 0; 0; 0; 0]
  /\ jsonl_encode_xben Release MkvChain (repeat [5] (S (Z.to_nat 65535))) = Some MKVCHAIN_BANNER.
Proof.
  assert (H : encode_ben32_line Release [5] = Some [0; 5; 0; 1; 0; 0; 0; 0]) by reflexivity.
  refine (conj H _).
  rewrite (xben_mkv_repeat_release [5] _ (Z.to_nat 65535) H).
  replace (Z.of_nat (S (Z.to_nat 65535))) with 65536 by lia. rewrite app_nil_r. reflexivity.
Defined.

(** In a debug build, [2^16] equal samples written to a MkvChain
    [XBenEncoder] panic on [count += 1]. *)
Theorem xben_mkv_repeat_debug : forall v line m,
  encode_ben32_line Debug v = Some line ->
  jsonl_encode_xben Debug MkvChain (repeat v (S m))
  = if Z.of_nat (S m) <? 2 ^ 16
    then Some (MKVCHAIN_BANNER ++ line ++ u16_to_be_bytes (Z.of_nat (S m)))
    else None.
Proof.
  intros v line m E. unfold jsonl_encode_xben. cbn [repeat xwrite_all].
  rewrite (xwrite_first_mkv Debug v line E).
  destruct (Z.of_nat (S m) <? 2 ^ 16) eqn:L.
  - apply Z.ltb_lt in L.
    rewrite (xwrite_repeat_mkv Debug v line MKVCHAIN_BANNER 1 m E) by lia.
    unfold drop_xencoder; cbn [xenc_variant encoder xprevious_sample xcount].
    replace (0 <? 1 + Z.of_nat m) with true by (symmetry; apply Z.ltb_lt; lia).
    replace (1 + Z.of_nat m) with (Z.of_nat (S m)) by lia. reflexivity.
  - apply Z.ltb_ge in L.
    rewrite (xwrite_repeat_debug_overflow v line MKVCHAIN_BANNER 1 m E) by lia. reflexivity.
Qed.

Lemma xben_mkv_repeat_debug_witness :
  encode_ben32_line Debug [5] = Some [0; 5; 0; 1; 0; 0; 0; 0]
  /\ jsonl_encode_xben Debug MkvChain (repeat [5] (S (Z.to_nat 65535))) = None.
Proof.
  assert (H : encode_ben32_line Debug [5] = Some [0; 5; 0; 1; 0; 0; 0; 0]) by reflexivity.
  refine (conj H _).
  rewrite (xben_mkv_repeat_debug [5] _ (Z.to_nat 65535) H).
  replace (Z.of_nat (S (Z.to_nat 65535))) with 65536 by lia. reflexivity.
Defined.

(** Standard BEN streams of valid non-empty samples shorter than [2^27]
    entries decode to one record [(v, 1)] per sample, and
    [extract_assignment_ben] finds each sample. *)
Theorem ben_stream_roundtrip_standard : forall p vs, Forall roundtrip_ok vs ->
  exists s, encode_ben_stream p Standard vs = Some s
  /\ (forall q : Profile, ben_decode_stream q s = inl (map (fun v => (v, 1)) vs, Finished))
  /\ (forall (q : Profile) n, (1 <= n <= length vs)%nat ->
        extract_assignment_ben q s n = Some (inl (nth (n - 1) vs []))).
Proof.
  intros p vs Hok.
  destruct (standard_stream_roundtrip p vs Hok) as (s & E & D & _ & X).
  exists s. auto.
Qed.

Lemma ben_stream_roundtrip_standard_witness :
  Forall roundtrip_ok [[1; 1; 2]; [3]]
  /\ exists s, encode_ben_stream Debug Standard [[1; 1; 2]; [3]] = Some s
  /\ (forall q : Profile, ben_decode_stream q s = inl ([([1; 1; 2], 1); ([3], 1)], Finished))
  /\ (forall (q : Profile) n, (1 <= n <= 2)%nat ->
        extract_assignment_ben q s n = Some (inl (nth (n - 1) [[1; 1; 2]; [3]] []))).
Proof.
  assert (H : Forall roundtrip_ok [[1; 1; 2]; [3]]).
  { repeat constructor; unfold valid_value; cbn; (lia || discriminate). }
  exact (conj H (ben_stream_roundtrip_standard Debug _ H)).
Defined.

(** MkvChain BEN streams decode to one record per group of equal samples
    when no group reaches [2^16] repeats. *)
Theorem ben_stream_roundtrip_mkv : forall p groups, mkv_groups_ok None groups ->
  exists s, encode_ben_stream p MkvChain (expand_groups groups) = Some s
  /\ (forall q : Profile, ben_decode_stream q s = inl (group_records groups, Finished))
  /\ expand (group_records groups) = expand_groups groups.
Proof. intros p groups Hg. exact (mkv_stream_roundtrip p groups Hg). Qed.

Lemma ben_stream_roundtrip_mkv_witness :
  mkv_groups_ok None [([1; 1; 2], 2%nat); ([3], 1%nat)]
  /\ exists s, encode_ben_stream Release MkvChain (expand_groups [([1; 1; 2], 2%nat); ([3], 1%nat)]) = Some s
  /\ (forall q : Profile, ben_decode_stream q s = inl ([([1; 1; 2], 2); ([3], 1)], Finished))
  /\ expand [([1; 1; 2], 2); ([3], 1)] = [[1; 1; 2]; [1; 1; 2]; [3]].
Proof.
  assert (H : mkv_groups_ok None [([1; 1; 2], 2%nat); ([3], 1%nat)]).
  { cbn [mkv_groups_ok]. unfold roundtrip_ok, valid_assignment, valid_value.
    repeat split; repeat constructor; cbn; (lia || discriminate). }
  exact (conj H (ben_stream_roundtrip_mkv Release _ H)).
Defined.


(** ** XBEN to JSONL: [jsonl_decode_ben32] and [decode_xben_to_jsonl] *)

Lemma decode_ben32_read_line : forall inp variant,
  fst (decode_ben32_read inp variant) = decode_ben32_line inp variant.
Proof.
  intros inp variant. unfold decode_ben32_read, decode_ben32_line.
  destruct (ben32_words _ _) as [[out|e] rest]; [|reflexivity].
  destruct variant; [reflexivity|]. destruct (read_u16_be rest) as [[c r]|]; reflexivity.
Qed.

Lemma decode_ben32_read_frame : forall variant F rec rest, ben32_frame variant F rec ->
  decode_ben32_read (F ++ rest) variant = (Some (Ok rec), rest).
Proof.
  intros [|] F rec rest (R & HR & H); unfold decode_ben32_read.
  - destruct H as [-> ->]. rewrite <- app_assoc.
    rewrite ben32_words_runs by (auto; rewrite !length_app, length_flat_map_word by auto; lia).
    reflexivity.
  - destruct H as (c & Hc & -> & ->). rewrite <- !app_assoc.
    rewrite ben32_words_runs by (auto; rewrite !length_app, length_flat_map_word by auto; lia).
    rewrite u16_be_roundtrip by lia. reflexivity.
Qed.

Lemma sample_lines_numbered : forall a k n,
  sample_lines a k (S n) = numbered (repeat a k) n.
Proof.
  intros a k n. rewrite numbered_repeat. revert n.
  induction k as [|k IH]; intros n; [reflexivity|].
  cbn [sample_lines jsonl_lines]. rewrite IH. reflexivity.
Qed.

Lemma concat_frames_length : forall variant (fs : list (list Z * MkvRecord)),
  Forall (fun fr => ben32_frame variant (fst fr) (snd fr)) fs ->
  (length fs <= length (concat (map fst fs)))%nat.
Proof.
  intros variant fs; induction fs as [|fr fs IH]; intros H; [cbn; lia|].
  apply Forall_cons_iff in H as [Hf Hfs]. cbn [map concat length]. rewrite length_app.
  pose proof (ben32_frame_length _ _ _ Hf). specialize (IH Hfs). lia.
Qed.

Lemma jsonl_decode_ben32_frames : forall variant fs fuel sn ss,
  Forall (fun fr => ben32_frame variant (fst fr) (snd fr)) fs -> (length fs < fuel)%nat ->
  jsonl_decode_ben32_loop fuel (concat (map fst fs)) (S sn) ss variant
  = (numbered (expand (map snd fs)) (sn + ss), Some (Ok tt)).
Proof.
  intros variant fs; induction fs as [|[F [a c]] fs IH]; intros fuel sn ss H Hf;
    destruct fuel as [|fuel]; try (cbn in Hf; lia).
  - reflexivity.
  - apply Forall_cons_iff in H as [Hfr Hfs]. cbn [fst snd] in Hfr.
    cbn [map concat fst snd jsonl_decode_ben32_loop].
    rewrite (decode_ben32_read_frame variant F (a, c)) by exact Hfr.
    replace (S sn + Z.to_nat c)%nat with (S (sn + Z.to_nat c)) by lia.
    rewrite IH by (auto; cbn in Hf; lia).
    replace (S sn + ss)%nat with (S (sn + ss)) by lia.
    rewrite sample_lines_numbered.
    unfold expand. cbn [flat_map fst snd]. fold (expand (map snd fs)).
    rewrite numbered_app, repeat_length.
    replace (sn + Z.to_nat c + ss)%nat with (sn + ss + Z.to_nat c)%nat by lia.
    reflexivity.
Qed.

Lemma scan_std_past : forall f i ov last lc, (length ov <= i)%nat ->
  scan_std f i ov last lc = (last, lc).
Proof.
  intros [|f] i ov last lc H; [reflexivity|]. cbn [scan_std].
  replace (i <? length ov)%nat with false by (symmetry; apply Nat.ltb_ge; lia). reflexivity.
Qed.

Lemma scan_std_skip : forall n f i ov last lc,
  (forall k, (k < n)%nat -> (i + 4 * k < length ov)%nat -> zero_word_at ov (i + 4 * k) = false) ->
  (length ov < i + 4 * f)%nat ->
  scan_std f i ov last lc = scan_std (f - n) (i + 4 * n) ov last lc.
Proof.
  induction n as [|n IH]; intros f i ov last lc Hk Hf.
  - rewrite Nat.sub_0_r, Nat.add_0_r. reflexivity.
  - destruct f as [|f].
    + rewrite !scan_std_past by lia. reflexivity.
    + cbn [scan_std]. destruct (i <? length ov)%nat eqn:E.
      * apply Nat.ltb_lt in E. pose proof (Hk 0%nat ltac:(lia)) as H0.
        rewrite Nat.add_0_r in H0. rewrite H0 by lia.
        rewrite IH.
        -- replace (i + 4 + 4 * n)%nat with (i + 4 * S n)%nat by lia. reflexivity.
        -- intros k Hkn Hl. replace (i + 4 + 4 * k)%nat with (i + 4 * S k)%nat by lia.
           apply Hk; lia.
        -- lia.
      * apply Nat.ltb_ge in E. rewrite scan_std_past by lia. reflexivity.
Qed.

Lemma scan_std_hit : forall f i ov last lc,
  (i < length ov)%nat -> zero_word_at ov i = true ->
  scan_std f i ov last lc = scan_std (f - 1) (i + 4) ov (i + 1) (lc + 1)
  \/ (f = 0)%nat.
Proof.
  intros [|f] i ov last lc Hi Hz; [right; reflexivity|left].
  cbn [scan_std]. replace (i <? length ov)%nat with true by (symmetry; apply Nat.ltb_lt; lia).
  rewrite Hz, Nat.sub_1_r. reflexivity.
Qed.

(** No zero word is found inside a strict prefix of a frame. *)
Lemma partial_std_nonzero : forall Y k, partial_frame Standard Y -> (3 + 4 * k < length Y)%nat ->
  zero_word_at Y (3 + 4 * k) = false.
Proof.
  intros Y k (G & rec & rest & (R & HR & HG & _) & E & HL) Hk.
  rewrite (zero_word_at_prefix Y rest G) by auto. rewrite HG.
  replace (3 + 4 * k)%nat with (4 * k + 3)%nat by lia.
  apply words_nonzero; auto.
  rewrite HG, length_app, length_flat_map_word in HL by exact HR. cbn [length] in HL. unfold run in *. lia.
Qed.

Lemma partial_mkv_nonzero : forall Y k, partial_frame MkvChain Y ->
  (3 + 2 * k < length Y - 2)%nat -> zero_word_at Y (3 + 2 * k) = false.
Proof.
  intros Y k (G & rec & rest & (R & HR & c & _ & HG & _) & E & HL) Hk.
  rewrite (zero_word_at_prefix Y rest G) by (auto; lia). rewrite HG.
  replace (3 + 2 * k)%nat with (3 + k * 2)%nat by lia.
  apply mkv_positions; auto.
  rewrite HG, !length_app, length_flat_map_word in HL by exact HR. unfold u16_to_be_bytes in HL; cbn [length] in HL. unfold run in *. lia.
Qed.

Lemma scan_std_frames : forall fs P Y f last lc,
  Forall (fun fr => ben32_frame Standard (fst fr) (snd fr)) fs ->
  (Y = [] \/ partial_frame Standard Y) ->
  (length (P ++ concat (map fst fs) ++ Y) < length P + 3 + 4 * f)%nat ->
  scan_std f (length P + 3) (P ++ concat (map fst fs) ++ Y) last lc
  = (match fs with [] => last | _ => (length P + length (concat (map fst fs)))%nat end,
     (lc + length fs)%nat).
Proof.
  induction fs as [|[F rec] fs IH]; intros P Y f last lc Hfs HY Hf.
  - cbn [map concat app] in *. rewrite Nat.add_0_r.
    destruct HY as [->|HY].
    + rewrite app_nil_r, scan_std_past by lia. reflexivity.
    + rewrite (scan_std_skip (length Y) f).
      * rewrite scan_std_past by (rewrite length_app; lia). reflexivity.
      * intros k _ Hl. rewrite <- Nat.add_assoc, zero_word_at_shift by lia.
        rewrite length_app in Hl. apply partial_std_nonzero; auto; lia.
      * exact Hf.
  - apply Forall_cons_iff in Hfs as [(R & HR & HF & Hrec) Hfs]. cbn [fst snd] in HF, Hrec.
    subst F rec.
    set (W := flat_map (fun r => ben32_word (fst r) (snd r)) R) in *.
    assert (LW : length W = (4 * length R)%nat) by (apply length_flat_map_word; exact HR).
    cbn [map concat fst length] in *. rewrite <- !app_assoc in *.
    rewrite (scan_std_skip (length R) f).
    2:{ intros k Hk _. rewrite <- Nat.add_assoc, zero_word_at_shift by lia.
        replace (3 + 4 * k)%nat with (4 * k + 3)%nat by lia.
        apply words_nonzero; auto. }
    2:{ exact Hf. }
    destruct (scan_std_hit (f - length R) (length P + 3 + 4 * length R)
                (P ++ W ++ [0; 0; 0; 0] ++ concat (map fst fs) ++ Y) last lc) as [Hh|Hh].
    + rewrite !length_app, LW. cbn [length]. lia.
    + rewrite <- Nat.add_assoc, zero_word_at_shift by lia.
      replace (3 + 4 * length R)%nat with (4 * length R + 3)%nat by lia.
      apply words_terminator; auto.
    + rewrite Hh.
      replace (length P + 3 + 4 * length R + 4)%nat with (Nat.add (length (P ++ W ++ [0; 0; 0; 0])) 3)
        by (rewrite !length_app, LW; cbn [length]; lia).
      replace (P ++ W ++ [0; 0; 0; 0] ++ concat (map fst fs) ++ Y)
        with ((P ++ W ++ [0; 0; 0; 0]) ++ concat (map fst fs) ++ Y)
        by (rewrite !app_assoc; reflexivity).
      rewrite IH.
      * rewrite !length_app, LW. cbn [length].
        f_equal; [|lia].
        destruct fs; cbn [map concat length]; lia.
      * exact Hfs.
      * exact HY.
      * rewrite !length_app in *. rewrite LW in *. cbn [length] in *. lia.
    + exfalso. rewrite !length_app, LW in Hf. cbn [length] in Hf. lia.
Qed.

Lemma scan_mkv_past : forall f i stop ov last lc, (stop <= i)%nat ->
  scan_mkv f i stop ov last lc = (last, lc).
Proof.
  intros [|f] i stop ov last lc H; [reflexivity|]. cbn [scan_mkv].
  replace (i <? stop)%nat with false by (symmetry; apply Nat.ltb_ge; lia). reflexivity.
Qed.

Lemma scan_mkv_skip : forall n f i stop ov last lc,
  (forall k, (k < n)%nat -> (i + 2 * k < stop)%nat -> zero_word_at ov (i + 2 * k) = false) ->
  (stop < i + 2 * f)%nat ->
  scan_mkv f i stop ov last lc = scan_mkv (f - n) (i + 2 * n) stop ov last lc.
Proof.
  induction n as [|n IH]; intros f i stop ov last lc Hk Hf.
  - rewrite Nat.sub_0_r, Nat.add_0_r. reflexivity.
  - destruct f as [|f].
    + rewrite !scan_mkv_past by lia. reflexivity.
    + cbn [scan_mkv]. destruct (i <? stop)%nat eqn:E.
      * apply Nat.ltb_lt in E. pose proof (Hk 0%nat ltac:(lia)) as H0.
        rewrite Nat.add_0_r in H0. rewrite H0 by lia.
        rewrite IH.
        -- replace (i + 2 + 2 * n)%nat with (i + 2 * S n)%nat by lia. reflexivity.
        -- intros k Hkn Hl. replace (i + 2 + 2 * k)%nat with (i + 2 * S k)%nat by lia.
           apply Hk; lia.
        -- lia.
      * apply Nat.ltb_ge in E. rewrite scan_mkv_past by lia. reflexivity.
Qed.

Lemma scan_mkv_hit : forall f i stop ov last lc,
  (i < stop)%nat -> zero_word_at ov i = true ->
  scan_mkv f i stop ov last lc
  = scan_mkv (f - 1) (i + 2) stop ov (i + 3)
      (lc + Z.to_nat (u16_from_be_bytes (nth (i + 1) ov 0) (nth (i + 2) ov 0)))
  \/ (f = 0)%nat.
Proof.
  intros [|f] i stop ov last lc Hi Hz; [right; reflexivity|left].
  cbn [scan_mkv]. replace (i <? stop)%nat with true by (symmetry; apply Nat.ltb_lt; lia).
  rewrite Hz, Nat.sub_1_r. reflexivity.
Qed.

(** The two scan positions that straddle a frame's count are not zero words. *)
Lemma count_straddle : forall c rest, 1 <= c < 2 ^ 16 ->
  zero_word_at ([0; 0; 0; 0] ++ u16_to_be_bytes c ++ rest) 5 = false
  /\ zero_word_at ([0; 0; 0; 0] ++ u16_to_be_bytes c ++ rest) 7 = false.
Proof.
  intros c rest Hc.
  assert (Hz : (Z.shiftr c 8 mod 256 =? 0) && (c mod 256 =? 0) = false).
  { destruct (Z.shiftr c 8 mod 256 =? 0) eqn:E1; destruct (c mod 256 =? 0) eqn:E2; auto.
    apply Z.eqb_eq in E1, E2. pose proof (u16_from_to c ltac:(lia)) as U.
    unfold u16_from_be_bytes in U. rewrite E1, E2 in U. lia. }
  unfold zero_word_at, u16_to_be_bytes. cbn [forallb Nat.sub nth app]. split.
  - rewrite andb_true_r. cbn [Z.eqb]. exact Hz.
  - rewrite andb_assoc, Hz. reflexivity.
Qed.

Lemma scan_mkv_frames : forall fs P Y f last lc,
  Forall (fun fr => ben32_frame MkvChain (fst fr) (snd fr)) fs ->
  (Y = [] \/ partial_frame MkvChain Y) ->
  (length (P ++ concat (map fst fs) ++ Y) - 2 < length P + 3 + 2 * f)%nat ->
  scan_mkv f (length P + 3) (length (P ++ concat (map fst fs) ++ Y) - 2)
    (P ++ concat (map fst fs) ++ Y) last lc
  = (match fs with [] => last | _ => (length P + length (concat (map fst fs)))%nat end,
     (lc + length (expand (map snd fs)))%nat).
Proof.
  induction fs as [|[F rec] fs IH]; intros P Y f last lc Hfs HY Hf.
  - cbn [map concat app expand flat_map length] in *. rewrite Nat.add_0_r.
    destruct HY as [->|HY].
    + rewrite app_nil_r, scan_mkv_past by (rewrite app_nil_r in Hf; lia). reflexivity.
    + rewrite (scan_mkv_skip (length Y) f).
      * rewrite scan_mkv_past by (rewrite length_app; lia). reflexivity.
      * intros k _ Hl. rewrite <- Nat.add_assoc, zero_word_at_shift by lia.
        rewrite length_app in Hl. apply partial_mkv_nonzero; auto; lia.
      * exact Hf.
  - apply Forall_cons_iff in Hfs as [(R & HR & c & Hc & HF & Hrec) Hfs]. cbn [fst snd] in HF, Hrec.
    subst F rec.
    set (W := flat_map (fun r => ben32_word (fst r) (snd r)) R) in *.
    assert (LW : length W = (4 * length R)%nat) by (apply length_flat_map_word; exact HR).
    cbn [map concat fst length] in *. rewrite <- !app_assoc in *.
    set (rest := concat (map fst fs) ++ Y) in *.
    assert (Lov : length (P ++ W ++ [0; 0; 0; 0] ++ u16_to_be_bytes c ++ rest)
                  = (length P + 4 * length R + 6 + length rest)%nat)
      by (rewrite !length_app, LW; cbn [length]; unfold u16_to_be_bytes; cbn [length]; lia).
    rewrite Lov in *.
    rewrite (scan_mkv_skip (2 * length R) f).
    2:{ intros k Hk _. rewrite <- Nat.add_assoc, zero_word_at_shift by lia.
        replace (3 + 2 * k)%nat with (3 + k * 2)%nat by lia.
        apply mkv_positions; auto. }
    2:{ exact Hf. }
    set (i0 := (length P + 3 + 2 * (2 * length R))%nat).
    destruct (scan_mkv_hit (f - 2 * length R) i0 (length P + 4 * length R + 6 + length rest - 2)
                (P ++ W ++ [0; 0; 0; 0] ++ u16_to_be_bytes c ++ rest) last lc) as [Hh|Hh].
    + unfold i0. lia.
    + unfold i0. replace (length P + 3 + 2 * (2 * length R))%nat with (length P + (4 * length R + 3))%nat
        by lia.
      rewrite zero_word_at_shift by lia. apply words_terminator; auto.
    + rewrite Hh.
      assert (N1 : nth (i0 + 1) (P ++ W ++ [0; 0; 0; 0] ++ u16_to_be_bytes c ++ rest) 0
                   = Z.shiftr c 8 mod 256).
      { unfold i0. replace (length P + 3 + 2 * (2 * length R) + 1)%nat
          with (length P + (length W + 4))%nat by lia.
        rewrite app_nth2_plus, app_nth2_plus. reflexivity. }
      assert (N2 : nth (i0 + 2) (P ++ W ++ [0; 0; 0; 0] ++ u16_to_be_bytes c ++ rest) 0
                   = c mod 256).
      { unfold i0. replace (length P + 3 + 2 * (2 * length R) + 2)%nat
          with (length P + (length W + 5))%nat by lia.
        rewrite app_nth2_plus, app_nth2_plus. reflexivity. }
      rewrite N1, N2, u16_from_to by lia.
      rewrite (scan_mkv_skip 2 (f - 2 * length R - 1)).
      2:{ intros k Hk _. unfold i0.
          destruct (count_straddle c rest Hc) as [S5 S7].
          destruct k as [|[|k]]; [| |lia].
          - replace (length P + 3 + 2 * (2 * length R) + 2 + 2 * 0)%nat
              with (length P + (length W + 5))%nat by lia.
            rewrite zero_word_at_shift, zero_word_at_shift by lia. exact S5.
          - replace (length P + 3 + 2 * (2 * length R) + 2 + 2 * 1)%nat
              with (length P + (length W + 7))%nat by lia.
            rewrite zero_word_at_shift, zero_word_at_shift by lia. exact S7. }
      2:{ unfold i0. lia. }
      assert (Lpf : length (P ++ W ++ [0; 0; 0; 0] ++ u16_to_be_bytes c)
                    = (length P + 4 * length R + 6)%nat)
        by (rewrite !length_app, LW; cbn [length]; unfold u16_to_be_bytes; cbn [length]; lia).
      replace (i0 + 2 + 2 * 2)%nat with (Nat.add (length (P ++ W ++ [0; 0; 0; 0] ++ u16_to_be_bytes c)) 3)
        by (rewrite Lpf; unfold i0; lia).
      replace (length P + 4 * length R + 6 + length rest - 2)%nat
        with (Nat.sub (length ((P ++ W ++ [0; 0; 0; 0] ++ u16_to_be_bytes c) ++ concat (map fst fs) ++ Y)) 2)
        by (rewrite length_app, Lpf; unfold rest; reflexivity).
      replace (P ++ W ++ [0; 0; 0; 0] ++ u16_to_be_bytes c ++ rest)
        with ((P ++ W ++ [0; 0; 0; 0] ++ u16_to_be_bytes c) ++ concat (map fst fs) ++ Y)
        by (unfold rest; rewrite !app_assoc; reflexivity).
      rewrite IH.
      * rewrite Lpf. unfold rest in *.
        rewrite !length_app, LW. cbn [length].
        unfold expand. cbn [map flat_map fst snd]. rewrite length_app, repeat_length.
        fold (expand (map snd fs)).
        f_equal; [|unfold i0; lia].
        unfold u16_to_be_bytes; destruct fs; cbn [map concat length]; unfold i0; lia.
      * exact Hfs.
      * exact HY.
      * rewrite length_app, Lpf. unfold rest in *. rewrite length_app in *. unfold i0 in *. lia.
    + exfalso. unfold i0 in *. lia.
Qed.

Lemma scan_overflow_frames : forall variant gs Y lc,
  Forall (fun fr => ben32_frame variant (fst fr) (snd fr)) gs ->
  (Y = [] \/ partial_frame variant Y) ->
  scan_overflow variant (concat (map fst gs) ++ Y) lc
  = (length (concat (map fst gs)), (lc + length (expand (map snd gs)))%nat).
Proof.
  intros [|] gs Y lc Hgs HY; unfold scan_overflow.
  - pose proof (scan_std_frames gs [] Y (length (concat (map fst gs) ++ Y)) 0 lc Hgs HY) as H.
    cbn [app length Nat.add] in H. rewrite H by lia. f_equal.
    + destruct gs; reflexivity.
    + f_equal. clear H HY. induction gs as [|[F [a c]] gs IH]; [reflexivity|].
      apply Forall_cons_iff in Hgs as [(R & _ & _ & Hrec) Hgs]. cbn [snd] in Hrec.
      injection Hrec as _ ->. unfold expand in *. cbn [map flat_map fst snd length].
      rewrite length_app, <- IH by exact Hgs. reflexivity.
  - pose proof (scan_mkv_frames gs [] Y (length (concat (map fst gs) ++ Y)) 0 lc Hgs HY) as H.
    cbn [app length Nat.add] in H. rewrite H by lia. f_equal.
    destruct gs; reflexivity.
Qed.

Lemma partial_prefix : forall variant T Y rest, (T = [] \/ partial_frame variant T) ->
  Y ++ rest = T -> Y = [] \/ partial_frame variant Y.
Proof.
  intros variant T Y rest [->|(G & rec & r & HG & E & HL)] EY.
  - left. apply app_eq_nil in EY. apply EY.
  - right. exists G, rec, (rest ++ r). split; [exact HG|split].
    + rewrite app_assoc, EY. exact E.
    + subst T. rewrite length_app in HL. lia.
Qed.

Lemma frame_prefix_partial : forall variant F rec Y rest, ben32_frame variant F rec ->
  (length Y < length F)%nat -> (exists M, Y ++ rest = F ++ M) -> partial_frame variant Y.
Proof.
  intros variant F rec Y rest HF HL [M E].
  exists F, rec, (skipn (length Y) F). split; [exact HF|split; [|exact HL]].
  assert (Hf : firstn (length Y) F = Y).
  { apply (f_equal (firstn (length Y))) in E.
    rewrite firstn_app, Nat.sub_diag, firstn_O, app_nil_r, firstn_all in E.
    rewrite firstn_app in E. replace (length Y - length F)%nat with 0%nat in E by lia.
    rewrite firstn_O, app_nil_r in E. symmetry. exact E. }
  rewrite <- Hf at 1. apply firstn_skipn.
Qed.

Lemma split_frames : forall variant fs T ov rest,
  Forall (fun fr => ben32_frame variant (fst fr) (snd fr)) fs ->
  (T = [] \/ partial_frame variant T) ->
  ov ++ rest = concat (map fst fs) ++ T ->
  exists k Y, ov = concat (map fst (firstn k fs)) ++ Y
    /\ Y ++ rest = concat (map fst (skipn k fs)) ++ T
    /\ (Y = [] \/ partial_frame variant Y)
    /\ match skipn k fs with [] => True | F :: _ => (length Y < length (fst F))%nat end.
Proof.
  intros variant fs; induction fs as [|[F rec] fs IH]; intros T ov rest Hfs HT E.
  - exists 0%nat, ov. cbn [firstn skipn map concat app] in *.
    split; [reflexivity | split; [exact E | split; [|exact I]]].
    exact (partial_prefix variant T ov rest HT E).
  - apply Forall_cons_iff in Hfs as [HF Hfs]. cbn [fst snd] in HF.
    cbn [map concat fst] in E. rewrite <- app_assoc in E.
    destruct (Nat.lt_ge_cases (length ov) (length F)) as [Hlt|Hge].
    + exists 0%nat, ov. cbn [firstn skipn map concat app fst].
      split; [reflexivity | split; [rewrite E, app_assoc; reflexivity | split; [|exact Hlt]]].
      right. apply (frame_prefix_partial variant F rec ov rest HF Hlt).
      eexists. exact E.
    + destruct (app_eq_app _ _ _ _ E) as [l [[E1 E2]|[E1 E2]]].
      * subst ov. symmetry in E2.
        destruct (IH T l rest Hfs HT E2) as (k & Y & H1 & H2 & H3 & H4).
        exists (S k), Y. cbn [firstn skipn map concat fst].
        split; [rewrite H1, app_assoc; reflexivity | split; [exact H2 | split; [exact H3 | exact H4]]].
      * assert (l = []) as -> by (destruct l; [reflexivity|]; subst F; rewrite length_app in Hge;
                                  cbn [length] in Hge; lia).
        rewrite app_nil_r in E1. subst F. cbn [app] in E2. subst rest.
        destruct (IH T [] (concat (map fst fs) ++ T) Hfs HT eq_refl) as (k & Y & H1 & H2 & H3 & H4).
        exists (S k), Y. cbn [firstn skipn map concat fst].
        split; [rewrite <- app_assoc, <- H1, app_nil_r; reflexivity | split; [exact H2 | split; [exact H3 | exact H4]]].
Qed.

Lemma frames_nil : forall variant (gs : list (list Z * MkvRecord)),
  Forall (fun fr => ben32_frame variant (fst fr) (snd fr)) gs ->
  length (concat (map fst gs)) = 0%nat -> gs = [].
Proof.
  intros variant gs H L. pose proof (concat_frames_length variant gs H) as HL.
  destruct gs; [reflexivity|]. cbn [length] in HL. lia.
Qed.

Lemma expand_firstn_skipn : forall k (fs : list (list Z * MkvRecord)),
  expand (map snd fs) = expand (map snd (firstn k fs)) ++ expand (map snd (skipn k fs)).
Proof.
  intros k fs. rewrite <- (firstn_skipn k fs) at 1.
  unfold expand. rewrite map_app, flat_map_app. reflexivity.
Qed.

Lemma xben_jsonl_loop_frames : forall variant reads fs T ov n,
  Forall (fun fr => ben32_frame variant (fst fr) (snd fr)) fs ->
  (T = [] \/ partial_frame variant T) ->
  Forall (fun c => c <> []) reads ->
  ov ++ concat reads = concat (map fst fs) ++ T ->
  (ov = [] \/ partial_frame variant ov) ->
  match fs with [] => True | F :: _ => (length ov < length (fst F))%nat end ->
  xben_jsonl_loop variant reads ov n n = (numbered (expand (map snd fs)) n, Some (Ok tt)).
Proof.
  intros variant reads; induction reads as [|c reads IH]; intros fs T ov n Hfs HT Hne E Hov Hlen.
  - cbn [xben_jsonl_loop]. destruct fs as [|[F rec] fs].
    + reflexivity.
    + exfalso. cbn [concat map fst] in E. rewrite app_nil_r in E. cbn [fst] in Hlen.
      apply (f_equal (@length Z)) in E. rewrite !length_app in E. lia.
  - apply Forall_cons_iff in Hne as [Hc Hne].
    destruct c as [|b c]; [contradiction|].
    cbn [concat] in E. rewrite app_assoc in E.
    destruct (split_frames variant fs T (ov ++ b :: c) (concat reads) Hfs HT E)
      as (k & Y & H1 & H2 & H3 & H4).
    pose proof Hfs as Hfs'. rewrite <- (firstn_skipn k fs) in Hfs'.
    apply Forall_app in Hfs' as [Hfirst Hskip].
    cbn [xben_jsonl_loop]. rewrite H1, (scan_overflow_frames variant _ Y n Hfirst H3).
    destruct (length (concat (map fst (firstn k fs))) =? 0)%nat eqn:E0.
    + apply Nat.eqb_eq in E0. pose proof (frames_nil variant _ Hfirst E0) as Hnil.
      rewrite Hnil. cbn [map concat expand flat_map length app]. rewrite Nat.add_0_r.
      rewrite (expand_firstn_skipn k fs), Hnil. cbn [map expand flat_map app].
      apply (IH (skipn k fs) T Y n Hskip HT Hne H2 H3 H4).
    + apply Nat.eqb_neq in E0.
      unfold jsonl_decode_ben32.
      rewrite firstn_app_len by reflexivity.
      rewrite (jsonl_decode_ben32_frames variant (firstn k fs) _ 0 n Hfirst)
        by (pose proof (concat_frames_length variant _ Hfirst); lia).
      rewrite skipn_app, skipn_all, Nat.sub_diag, skipn_O. cbn [app].
      rewrite (IH (skipn k fs) T Y _ Hskip HT Hne H2 H3 H4).
      rewrite (expand_firstn_skipn k fs), numbered_app. reflexivity.
Qed.

Lemma expand_ones : forall vs, expand (map (fun v => (v, 1)) vs) = vs.
Proof.
  induction vs as [|v vs IH]; [reflexivity|].
  unfold expand in *. cbn [map flat_map fst snd]. rewrite IH. reflexivity.
Qed.

Lemma expand_group_records : forall groups, expand (group_records groups) = expand_groups groups.
Proof.
  induction groups as [|[v k] gs IH]; [reflexivity|].
  unfold expand, group_records, expand_groups in *. cbn [map flat_map fst snd].
  rewrite Nat2Z.id, IH. reflexivity.
Qed.

(** [decode_xben_to_jsonl] on a stream of complete frames followed by the
    strict prefix [T] of one more frame. *)
Lemma xben_jsonl_stream : forall variant frames T reads,
  Forall (fun fr => ben32_frame variant (fst fr) (snd fr)) frames ->
  (T = [] \/ partial_frame variant T) ->
  Forall (fun c => c <> []) reads ->
  concat reads = concat (map fst frames) ++ T ->
  decode_xben_to_jsonl (banner variant ++ concat (map fst frames) ++ T) reads
  = (numbered (expand (map snd frames)) 0, Some (Ok tt)).
Proof.
  intros variant frames T reads Hfs HT Hne E.
  unfold decode_xben_to_jsonl.
  replace 17%nat with (length (banner variant)) by (destruct variant; reflexivity).
  rewrite read_exact_app.
  assert (L : xben_jsonl_loop variant reads [] 0 0
              = (numbered (expand (map snd frames)) 0, Some (Ok tt))).
  { apply (xben_jsonl_loop_frames variant reads frames T); auto.
    destruct frames as [|[F rec] fs]; [exact I|].
    apply Forall_cons_iff in Hfs as [HF _]. pose proof (ben32_frame_length _ _ _ HF).
    cbn [length fst] in *. lia. }
  destruct variant; [exact L|].
  replace (list_Z_eqb (banner MkvChain) STANDARD_BANNER) with false by reflexivity.
  replace (list_Z_eqb (banner MkvChain) MKVCHAIN_BANNER) with true by reflexivity.
  exact L.
Qed.

Lemma skipn_banner : forall variant (r : list Z), skipn 17 (banner variant ++ r) = r.
Proof.
  intros variant r. replace 17%nat with (length (banner variant)) by (destruct variant; reflexivity).
  rewrite skipn_app, skipn_all, Nat.sub_diag, skipn_O. reflexivity.
Qed.

Lemma firstn_partial : forall variant G rec k, ben32_frame variant G rec -> (k < length G)%nat ->
  partial_frame variant (firstn k G).
Proof.
  intros variant G rec k HG Hk. exists G, rec, (skipn k G).
  split; [exact HG | split; [apply firstn_skipn | rewrite length_firstn; lia]].
Qed.

(** XBEN to JSONL, Standard: the stream [jsonl_encode_xben] writes for
    [ben32]-encodable samples is turned back by [decode_xben_to_jsonl] into
    the samples' JSON lines numbered from 1, however [read] splits it. *)
Theorem xben_to_jsonl_standard : forall p vs, Forall ben32_ok vs ->
  exists s, jsonl_encode_xben p Standard vs = Some s
  /\ forall reads, Forall (fun c => c <> []) reads -> concat reads = skipn 17 s ->
       decode_xben_to_jsonl s reads = (numbered vs 0, Some (Ok tt)).
Proof.
  intros p vs Hok.
  destruct (xwrite_standard p vs STANDARD_BANNER [] 0 Hok) as (frames & W & Hfs & Hs).
  exists (banner Standard ++ concat (map fst frames)). split.
  - unfold jsonl_encode_xben. change (XBenEncoder_new Standard) with
      (mkXBenEncoder STANDARD_BANNER [] 0 Standard).
    rewrite W. reflexivity.
  - intros reads Hne E. rewrite skipn_banner in E.
    rewrite <- (app_nil_r (concat (map fst frames))).
    rewrite (xben_jsonl_stream Standard frames [] reads Hfs (or_introl eq_refl) Hne)
      by (rewrite app_nil_r; exact E).
    unfold MkvRecord in *. rewrite Hs, expand_ones. reflexivity.
Qed.

(** XBEN to JSONL, MkvChain: for groups of [ben32]-encodable samples, each
    repeated fewer than [2^16] times in a row and unlike its neighbours, the
    stream [jsonl_encode_xben] writes is turned back by
    [decode_xben_to_jsonl] into every sample's JSON line, repeats included,
    numbered from 1, however [read] splits it. *)
Theorem xben_to_jsonl_mkv : forall p groups, xgroups_ok None groups ->
  exists s, jsonl_encode_xben p MkvChain (expand_groups groups) = Some s
  /\ forall reads, Forall (fun c => c <> []) reads -> concat reads = skipn 17 s ->
       decode_xben_to_jsonl s reads = (numbered (expand_groups groups) 0, Some (Ok tt)).
Proof.
  intros p groups Hg.
  destruct (xwrite_groups_mkv p groups MKVCHAIN_BANNER [] 0 None Hg (conj eq_refl eq_refl))
    as (e & frames & W & D & Hfs & Hs).
  exists (banner MkvChain ++ concat (map fst frames)). split.
  - unfold jsonl_encode_xben. change (XBenEncoder_new MkvChain) with
      (mkXBenEncoder MKVCHAIN_BANNER [] 0 MkvChain).
    rewrite W, D. reflexivity.
  - intros reads Hne E. rewrite skipn_banner in E.
    rewrite <- (app_nil_r (concat (map fst frames))).
    rewrite (xben_jsonl_stream MkvChain frames [] reads Hfs (or_introl eq_refl) Hne)
      by (rewrite app_nil_r; exact E).
    unfold MkvRecord in *. cbn [app] in Hs. rewrite Hs, expand_group_records. reflexivity.
Qed.

(** [decode_xben_to_jsonl], Standard: an incomplete frame at the end of the
    stream (a strict prefix of the ben32 line of one more sample) is
    dropped without an error; the output is that of the complete frames. *)
Theorem xben_to_jsonl_truncated_standard : forall p vs u line k,
  Forall ben32_ok vs -> ben32_ok u -> encode_ben32_line p u = Some line ->
  (k < length line)%nat ->
  exists s, jsonl_encode_xben p Standard vs = Some s
  /\ forall reads, Forall (fun c => c <> []) reads ->
       concat reads = skipn 17 (s ++ firstn k line) ->
       decode_xben_to_jsonl (s ++ firstn k line) reads = (numbered vs 0, Some (Ok tt)).
Proof.
  intros p vs u line k Hok Hu El Hk.
  destruct (xwrite_standard p vs STANDARD_BANNER [] 0 Hok) as (frames & W & Hfs & Hs).
  exists (banner Standard ++ concat (map fst frames)). split.
  - unfold jsonl_encode_xben. change (XBenEncoder_new Standard) with
      (mkXBenEncoder STANDARD_BANNER [] 0 Standard).
    rewrite W. reflexivity.
  - intros reads Hne E. rewrite <- app_assoc in *. rewrite skipn_banner in E.
    assert (HT : firstn k line = [] \/ partial_frame Standard (firstn k line)).
    { right. apply (firstn_partial Standard line (u, 1)); auto.
      exact (proj1 (ben32_line_frame p u line Hu El)). }
    rewrite (xben_jsonl_stream Standard frames (firstn k line) reads Hfs HT Hne E).
    unfold MkvRecord in *. rewrite Hs, expand_ones. reflexivity.
Qed.

(** [decode_xben_to_jsonl], MkvChain: an incomplete frame at the end of the
    stream, cut anywhere before the last byte of its [u16] count, is dropped
    without an error; the output is that of the complete frames. *)
Theorem xben_to_jsonl_truncated_mkv : forall p groups u line c k,
  xgroups_ok None groups -> ben32_ok u -> encode_ben32_line p u = Some line ->
  1 <= c < 2 ^ 16 -> (k < length line + 2)%nat ->
  exists s, jsonl_encode_xben p MkvChain (expand_groups groups) = Some s
  /\ forall reads, Forall (fun c => c <> []) reads ->
       concat reads = skipn 17 (s ++ firstn k (line ++ u16_to_be_bytes c)) ->
       decode_xben_to_jsonl (s ++ firstn k (line ++ u16_to_be_bytes c)) reads
       = (numbered (expand_groups groups) 0, Some (Ok tt)).
Proof.
  intros p groups u line c k Hg Hu El Hc Hk.
  destruct (xwrite_groups_mkv p groups MKVCHAIN_BANNER [] 0 None Hg (conj eq_refl eq_refl))
    as (e & frames & W & D & Hfs & Hs).
  exists (banner MkvChain ++ concat (map fst frames)). split.
  - unfold jsonl_encode_xben. change (XBenEncoder_new MkvChain) with
      (mkXBenEncoder MKVCHAIN_BANNER [] 0 MkvChain).
    rewrite W, D. reflexivity.
  - intros reads Hne E. rewrite <- app_assoc in *. rewrite skipn_banner in E.
    assert (HT : firstn k (line ++ u16_to_be_bytes c) = []
                 \/ partial_frame MkvChain (firstn k (line ++ u16_to_be_bytes c))).
    { right. apply (firstn_partial MkvChain _ (u, c)).
      - exact (proj2 (ben32_line_frame p u line Hu El) c Hc).
      - rewrite length_app. exact Hk. }
    rewrite (xben_jsonl_stream MkvChain frames _ reads Hfs HT Hne E).
    unfold MkvRecord in *. cbn [app] in Hs. rewrite Hs, expand_group_records. reflexivity.
Qed.

Lemma xben_to_jsonl_standard_witness :
  Forall ben32_ok [[3; 3; 5]; [5]]
  /\ exists s, jsonl_encode_xben Release Standard [[3; 3; 5]; [5]] = Some s
  /\ forall reads, Forall (fun c => c <> []) reads -> concat reads = skipn 17 s ->
       decode_xben_to_jsonl s reads = ([([3; 3; 5], 1%nat); ([5], 2%nat)], Some (Ok tt)).
Proof.
  assert (H : Forall ben32_ok [[3; 3; 5]; [5]]).
  { constructor; [exists [(3, 2); (5, 1)] | constructor; [exists [(5, 1)] | constructor]];
      (split; [cbn; repeat split; (lia || discriminate) |
               split; [repeat constructor; cbn; lia | reflexivity]]). }
  exact (conj H (xben_to_jsonl_standard Release _ H)).
Defined.

Lemma xben_to_jsonl_mkv_witness :
  xgroups_ok None [([3; 3; 5], 2%nat); ([5], 1%nat)]
  /\ exists s,
    jsonl_encode_xben Debug MkvChain (expand_groups [([3; 3; 5], 2%nat); ([5], 1%nat)]) = Some s
  /\ forall reads, Forall (fun c => c <> []) reads -> concat reads = skipn 17 s ->
       decode_xben_to_jsonl s reads
       = ([([3; 3; 5], 1%nat); ([3; 3; 5], 2%nat); ([5], 3%nat)], Some (Ok tt)).
Proof.
  assert (H : xgroups_ok None [([3; 3; 5], 2%nat); ([5], 1%nat)]).
  { cbn [xgroups_ok]. refine (conj _ (conj _ (conj _ (conj _ (conj _ (conj _ I)))))).
    - exists [(3, 2); (5, 1)].
      split; [cbn; repeat split; (lia || discriminate) |
              split; [repeat constructor; cbn; lia | reflexivity]].
    - cbn; lia.
    - discriminate.
    - exists [(5, 1)].
      split; [cbn; repeat split; (lia || discriminate) |
              split; [repeat constructor; cbn; lia | reflexivity]].
    - cbn; lia.
    - discriminate. }
  exact (conj H (xben_to_jsonl_mkv Debug _ H)).
Defined.

Lemma xben_to_jsonl_truncated_standard_witness :
  Forall ben32_ok [[3; 3; 5]; [5]] /\ ben32_ok [7; 7]
  /\ encode_ben32_line Release [7; 7] = Some [0; 7; 0; 2; 0; 0; 0; 0]
  /\ (5 < length [0; 7; 0; 2; 0; 0; 0; 0])%nat
  /\ exists s, jsonl_encode_xben Release Standard [[3; 3; 5]; [5]] = Some s
  /\ forall reads, Forall (fun c => c <> []) reads ->
       concat reads = skipn 17 (s ++ firstn 5 [0; 7; 0; 2; 0; 0; 0; 0]) ->
       decode_xben_to_jsonl (s ++ firstn 5 [0; 7; 0; 2; 0; 0; 0; 0]) reads
       = ([([3; 3; 5], 1%nat); ([5], 2%nat)], Some (Ok tt)).
Proof.
  assert (H : Forall ben32_ok [[3; 3; 5]; [5]]).
  { constructor; [exists [(3, 2); (5, 1)] | constructor; [exists [(5, 1)] | constructor]];
      (split; [cbn; repeat split; (lia || discriminate) |
               split; [repeat constructor; cbn; lia | reflexivity]]). }
  assert (Hu : ben32_ok [7; 7]).
  { exists [(7, 2)]. split; [cbn; repeat split; (lia || discriminate) |
                            split; [repeat constructor; cbn; lia | reflexivity]]. }
  assert (El : encode_ben32_line Release [7; 7] = Some [0; 7; 0; 2; 0; 0; 0; 0])
    by reflexivity.
  assert (Hk : (5 < length [0; 7; 0; 2; 0; 0; 0; 0])%nat) by (cbn; lia).
  exact (conj H (conj Hu (conj El (conj Hk
    (xben_to_jsonl_truncated_standard Release _ _ _ 5 H Hu El Hk))))).
Defined.

Lemma xben_to_jsonl_truncated_mkv_witness :
  xgroups_ok None [([3; 3; 5], 2%nat); ([5], 1%nat)] /\ ben32_ok [7; 7]
  /\ encode_ben32_line Debug [7; 7] = Some [0; 7; 0; 2; 0; 0; 0; 0]
  /\ 1 <= 4 < 2 ^ 16
  /\ (9 < length [0; 7; 0; 2; 0; 0; 0; 0] + 2)%nat
  /\ exists s,
    jsonl_encode_xben Debug MkvChain (expand_groups [([3; 3; 5], 2%nat); ([5], 1%nat)]) = Some s
  /\ forall reads, Forall (fun c => c <> []) reads ->
       concat reads = skipn 17 (s ++ firstn 9 ([0; 7; 0; 2; 0; 0; 0; 0] ++ u16_to_be_bytes 4)) ->
       decode_xben_to_jsonl (s ++ firstn 9 ([0; 7; 0; 2; 0; 0; 0; 0] ++ u16_to_be_bytes 4)) reads
       = ([([3; 3; 5], 1%nat); ([3; 3; 5], 2%nat); ([5], 3%nat)], Some (Ok tt)).
Proof.
  assert (H : xgroups_ok None [([3; 3; 5], 2%nat); ([5], 1%nat)]).
  { cbn [xgroups_ok]. refine (conj _ (conj _ (conj _ (conj _ (conj _ (conj _ I)))))).
    - exists [(3, 2); (5, 1)].
      split; [cbn; repeat split; (lia || discriminate) |
              split; [repeat constructor; cbn; lia | reflexivity]].
    - cbn; lia.
    - discriminate.
    - exists [(5, 1)].
      split; [cbn; repeat split; (lia || discriminate) |
              split; [repeat constructor; cbn; lia | reflexivity]].
    - cbn; lia.
    - discriminate. }
  assert (Hu : ben32_ok [7; 7]).
  { exists [(7, 2)]. split; [cbn; repeat split; (lia || discriminate) |
                            split; [repeat constructor; cbn; lia | reflexivity]]. }
  assert (El : encode_ben32_line Debug [7; 7] = Some [0; 7; 0; 2; 0; 0; 0; 0])
    by reflexivity.
  assert (Hc : 1 <= 4 < 2 ^ 16) by lia.
  assert (Hk : (9 < length [0; 7; 0; 2; 0; 0; 0; 0] + 2)%nat) by (cbn; lia).
  exact (conj H (conj Hu (conj El (conj Hc (conj Hk
    (xben_to_jsonl_truncated_mkv Debug _ _ _ 4 9 H Hu El Hc Hk)))))).
Defined.

(** [decode_xben_to_jsonl] writes nothing when the first 17 bytes are not a
    banner: it fails with [UnexpectedEof] on a stream shorter than 17 bytes
    and with [InvalidData] otherwise. *)
Theorem decode_xben_to_jsonl_bad_header : forall stream reads,
  firstn 17 stream <> STANDARD_BANNER -> firstn 17 stream <> MKVCHAIN_BANNER ->
  decode_xben_to_jsonl stream reads
  = ([], Some (Err (if (length stream <? 17)%nat then UnexpectedEof else InvalidData))).
Proof.
  intros stream reads Hs Hm. unfold decode_xben_to_jsonl, read_exact.
  destruct (17 <=? length stream)%nat eqn:E.
  - apply Nat.leb_le in E.
    replace (length stream <? 17)%nat with false by (symmetry; apply Nat.ltb_ge; lia).
    replace (list_Z_eqb (firstn 17 stream) STANDARD_BANNER) with false
      by (symmetry; apply not_true_iff_false; rewrite list_Z_eqb_spec; exact Hs).
    replace (list_Z_eqb (firstn 17 stream) MKVCHAIN_BANNER) with false
      by (symmetry; apply not_true_iff_false; rewrite list_Z_eqb_spec; exact Hm).
    reflexivity.
  - apply Nat.leb_gt in E.
    replace (length stream <? 17)%nat with true by (symmetry; apply Nat.ltb_lt; lia).
    reflexivity.
Qed.

Lemma decode_xben_to_jsonl_bad_header_witness :
  firstn 17 [1; 2; 3] <> STANDARD_BANNER /\ firstn 17 [1; 2; 3] <> MKVCHAIN_BANNER
  /\ decode_xben_to_jsonl [1; 2; 3] [] = ([], Some (Err UnexpectedEof)).
Proof.
  assert (H1 : firstn 17 [1; 2; 3] <> STANDARD_BANNER) by discriminate.
  assert (H2 : firstn 17 [1; 2; 3] <> MKVCHAIN_BANNER) by discriminate.
  exact (conj H1 (conj H2 (decode_xben_to_jsonl_bad_header [1; 2; 3] [] H1 H2))).
Defined.
